(** * solana-txn-count: transaction-count aggregation over a ledger RPC

    A shallow embedding of the script (the retrying version with
    [withRetry], and the earlier [index.js] without it) and the
    properties of its retry executor, address loader, stake-account
    resolver, signature pagination and aggregation loop.

    Asynchronous functions are embedded in a state-and-trace monad:
    a computation takes the state of the outside world, and yields an
    outcome, the new state, and the events it produced (console lines,
    timer waits, requests to the RPC connection, file reads). *)

From Stdlib Require Import ZArith List String Ascii Bool Lia Arith.
From Stdlib Require Import Permutation.
Import ListNotations.

Local Open Scope string_scope.
Local Open Scope list_scope.
Local Open Scope Z_scope.

Set Implicit Arguments.

(** ** JavaScript values that are thrown

    The program throws and catches [Error] objects, of which it reads
    [message] (and, in [index.js], the string that the error makes of
    itself, which is left open there), and [withRetry] can throw its
    unassigned [lastError], which is [undefined]. *)

Inductive JsVal : Type :=
| VUndefined
| VError (message : string).

(** Reading [error.message]: a [TypeError] when [error] is [undefined]. *)
Definition TypeError_message : string :=
  "Cannot read properties of undefined (reading 'message')".

Definition get_message (error : JsVal) : JsVal + string :=
  match error with
  | VUndefined => inl (VError TypeError_message)
  | VError message => inr message
  end.

(** ** Outcomes of a computation *)

Inductive Outcome (A : Type) : Type :=
| Return (a : A)
| Throw (error : JsVal)
| Diverge.

Arguments Throw {A} error.
Arguments Diverge {A}.

(** ** Console lines

    One constructor per template literal of the source; the arguments
    are the interpolated values. *)

Inductive Msg : Type :=
| AttemptFailed (attempt maxAttempts : Z) (message : string)
| WaitingBeforeRetry (delay : Z)
| AddressIsInvalid
| FoundStakeAccounts (n : Z)
| FoundAssociatedStakeAccounts (n : Z)
| InvalidAddressSkipping (address : string)
| ProcessingAddress (address : string)
| AddressIsStakeAccount
| TotalForStakeAccount (n : Z)
| AddressIsMainAuthority
| TotalForMainAuthority (n : Z)
| ProcessingAssociatedStakeAccount (stakeAccount : string)
| TotalForAssociatedStakeAccount (n : Z)
| AddressIsNormalAccount
| TotalForNormalAccount (n : Z)
| InvalidAddress
| AccumulatingTotal (totalTransactions : Z)
| Separator
| EmptyLine
| NoStakeAccountsFoundWaiting
| ErrorProcessingAddress (address : string) (error : JsVal).

(** ** Requests to the ledger RPC connection *)

Inductive Filter : Type :=
| DataSize (dataSize : Z)
| Memcmp (offset : Z) (bytes : string).

Inductive ProgramId : Type :=
| StakeProgram_programId
| OtherProgram (name : string).

Record SignaturesForAddressOptions : Type := {
  before : option string;
  limit : Z;
  commitment : string
}.

Record ConfirmedSignatureInfo : Type := {
  signature : string;
  slot : Z
}.

Inductive AccountData : Type :=
| ParsedAccountData (program : string)
| BufferData.

Record AccountInfo : Type := { data : option AccountData }.

Record RpcResponseAndContext : Type := { value : option AccountInfo }.

(** A public key object, represented by its base-58 rendering (which
    determines the key): [toBase58] is [publicKey.toBase58()]. *)
Record PublicKey : Type := { toBase58 : string }.

Inductive Request : Type :=
| ReqGetParsedAccountInfo (publicKey : PublicKey)
| ReqGetProgramAccounts (programId : ProgramId) (filters : list Filter)
| ReqGetSignaturesForAddress (publicKey : PublicKey)
    (options : SignaturesForAddressOptions).

Inductive Event : Type :=
| ConsoleLog (m : Msg)
| ConsoleError (m : Msg)
| SetTimeout (ms : Z)
| Rpc (r : Request)
| ReadFile (filePath : string).

Record KeyedAccount : Type := { pubkey : PublicKey }.

(** ** The monad *)

Definition M (St A : Type) : Type := St -> Outcome A * St * list Event.

Definition ret {St A} (a : A) : M St A := fun s => (Return a, s, []).

Definition throw {St A} (error : JsVal) : M St A :=
  fun s => (Throw error, s, []).

Definition diverge {St A} : M St A := fun s => (Diverge, s, []).

Definition bind {St A B} (m : M St A) (k : A -> M St B) : M St B :=
  fun s =>
    match m s with
    | (Return a, s1, t1) =>
        match k a s1 with
        | (o, s2, t2) => (o, s2, t1 ++ t2)
        end
    | (Throw error, s1, t1) => (Throw error, s1, t1)
    | (Diverge, s1, t1) => (Diverge, s1, t1)
    end.

(** [try { m } catch (error) { handler error }] *)
Definition tryCatch {St A} (m : M St A) (handler : JsVal -> M St A)
  : M St A :=
  fun s =>
    match m s with
    | (Throw error, s1, t1) =>
        match handler error s1 with
        | (o, s2, t2) => (o, s2, t1 ++ t2)
        end
    | r => r
    end.

Definition emit {St} (e : Event) : M St unit :=
  fun s => (Return tt, s, [e]).

Definition console_log {St} (m : Msg) : M St unit := emit (ConsoleLog m).
Definition console_error {St} (m : Msg) : M St unit :=
  emit (ConsoleError m).

(** [await new Promise(resolve => setTimeout(resolve, delay))] *)
Definition sleep {St} (delay : Z) : M St unit := emit (SetTimeout delay).

Definition of_sum {St A} (r : JsVal + A) : M St A :=
  match r with
  | inl error => throw error
  | inr a => ret a
  end.

Declare Scope js_scope.
Delimit Scope js_scope with js.
Notation "x <- m ;; k" := (bind m (fun x => k))
  (at level 61, m at next level, right associativity) : js_scope.
Notation "m ;; k" := (bind m (fun _ => k))
  (at level 61, right associativity) : js_scope.
Local Open Scope js_scope.

(** ** [withRetry] *)

(** The [for] loop of [withRetry]; [n] bounds the iterations that are
    left ([maxAttempts - attempt + 1] of them when the loop is entered
    with [attempt <= maxAttempts]). *)
Fixpoint withRetry_loop {St A} (operation : M St A) (maxAttempts : Z)
    (n : nat) (attempt delay : Z) (lastError : JsVal) : M St A :=
  match n with
  | O => throw lastError
  | S n' =>
      if attempt <=? maxAttempts then
        tryCatch operation (fun error =>
          (* lastError = error *)
          message <- of_sum (get_message error) ;;
          console_error (AttemptFailed attempt maxAttempts message) ;;
          if attempt <? maxAttempts then
            console_log (WaitingBeforeRetry delay) ;;
            sleep delay ;;
            withRetry_loop operation maxAttempts n' (attempt + 1)
              (delay * 2) error
          else
            withRetry_loop operation maxAttempts n' (attempt + 1)
              delay error)
      else throw lastError
  end.

Definition withRetry {St A} (operation : M St A)
    (maxAttempts : Z) (delay : Z) : M St A :=
  withRetry_loop operation maxAttempts (Z.to_nat maxAttempts) 1 delay
    VUndefined.

(** The default parameters: [maxAttempts = 20, delay = 1000]. *)
Definition withRetry_default {St A} (operation : M St A) : M St A :=
  withRetry operation 20 1000.

(** ** The collaborators: RPC connection and file system

    Each method acts on the state [W] of the outside world. *)

Record Connection (W : Type) : Type := {
  getParsedAccountInfo :
    PublicKey -> W -> Outcome (option RpcResponseAndContext) * W;
  getProgramAccounts :
    ProgramId -> list Filter -> W -> Outcome (list KeyedAccount) * W;
  connection_getSignaturesForAddress :
    PublicKey -> SignaturesForAddressOptions ->
    W -> Outcome (list ConfirmedSignatureInfo) * W
}.

Record FileSystem (W : Type) : Type := {
  readFile : string -> W -> Outcome string * W
}.

(** [await connection.method(args)]: the request is recorded in the trace. *)
Definition rpc {W A} (r : Request) (method : W -> Outcome A * W) : M W A :=
  fun w => match method w with (o, w') => (o, w', [Rpc r]) end.

Definition fs_readFile {W} (fs : FileSystem W) (filePath : string)
  : M W string :=
  fun w => match readFile fs filePath w with
           | (o, w') => (o, w', [ReadFile filePath])
           end.

(** ** Local variables that outlive a [try] block *)

Definition lift {L W A} (m : M W A) : M (L * W) A :=
  fun s => match m (snd s) with (o, w', t) => (o, (fst s, w'), t) end.

Definition getLocal {L W} : M (L * W) L :=
  fun s => (Return (fst s), s, []).

Definition setLocal {L W} (l : L) : M (L * W) unit :=
  fun s => (Return tt, (l, snd s), []).

Definition withLocal {L W A} (init : L) (m : M (L * W) A) : M W A :=
  fun w => match m (init, w) with (o, s, t) => (o, snd s, t) end.

(** [for (const x of xs) { body x }] *)
Fixpoint forOf {St X} (xs : list X) (body : X -> M St unit) : M St unit :=
  match xs with
  | [] => ret tt
  | x :: xs' => body x ;; forOf xs' body
  end.

(** ** Strings, arrays and sets of the language *)

(** [array.length] *)
Definition len {X} (array : list X) : Z := Z.of_nat (List.length array).

(** White space removed by [String.prototype.trim], among the code
    units below 256 (a [string] is read as one code unit per character):
    TAB, LF, VT, FF, CR, SPACE and NBSP. *)
Definition isWhiteSpace (c : ascii) : bool :=
  let n := nat_of_ascii c in
  ((9 <=? n) && (n <=? 13) || (n =? 32) || (n =? 160))%nat.

Fixpoint trimStart (s : string) : string :=
  match s with
  | EmptyString => EmptyString
  | String c s' => if isWhiteSpace c then trimStart s' else s
  end.

Fixpoint trimEnd (s : string) : string :=
  match s with
  | EmptyString => EmptyString
  | String c s' =>
      match trimEnd s' with
      | EmptyString => if isWhiteSpace c then EmptyString
                       else String c EmptyString
      | r => String c r
      end
  end.

Definition trim (s : string) : string := trimEnd (trimStart s).

Definition LF : ascii := ascii_of_nat 10.

(** [s.split('\n')] *)
Fixpoint split_LF (s : string) : list string :=
  match s with
  | EmptyString => [EmptyString]
  | String c s' =>
      if Ascii.eqb c LF then EmptyString :: split_LF s'
      else match split_LF s' with
           | [] => [String c EmptyString]
           | l :: ls => String c l :: ls
           end
  end.

(** A [Set] of strings, in insertion order. *)
Definition Set_has (s : list string) (x : string) : bool :=
  existsb (String.eqb x) s.

Definition Set_add (s : list string) (x : string) : list string :=
  if Set_has s x then s else s ++ [x].

Definition Array_from (s : list string) : list string := s.

Record StakeAccountsResult : Type :=
  { stakeAccounts : list KeyedAccount }.

Record SignaturesResult : Type :=
  { signatures : list ConfirmedSignatureInfo }.

(** [accountInfo?.value?.data?.program] *)
Definition program_of (accountInfo : option RpcResponseAndContext)
  : option string :=
  match accountInfo with
  | Some r =>
      match value r with
      | Some info =>
          match data info with
          | Some (ParsedAccountData program) => Some program
          | _ => None
          end
      | None => None
      end
  | None => None
  end.

(** [accountInfo?.value?.data?.program === 'stake'] *)
Definition program_is_stake (accountInfo : option RpcResponseAndContext)
  : bool :=
  match program_of accountInfo with
  | Some program => String.eqb program "stake"
  | None => false
  end.

(** ** The program with [withRetry] *)

Section Program.

(** The key-format library: [new PublicKey(address)] either throws an
    [Error] (left: its message) or builds the key (right). *)
Variable PublicKey_new : string -> string + PublicKey.

Definition new_PublicKey {St} (address : string) : M St PublicKey :=
  match PublicKey_new address with
  | inl message => throw (VError message)
  | inr publicKey => ret publicKey
  end.

Definition isArrayNotEmpty {X} (array : list X) : bool := 0 <? len array.

Definition isValidSolanaAddress {St} (address : string) : M St bool :=
  tryCatch (new_PublicKey address ;; ret true)
           (fun err => console_error AddressIsInvalid ;; ret false).

Variable W : Type.
Variable connection : Connection W.

Definition stakeFilters (address : string) : list Filter :=
  [DataSize 200; Memcmp 44 address].

Definition getStakeAccountsForAddress (address : string)
    (maxAttempts delay : Z) : M W StakeAccountsResult :=
  withRetry
    (stakeAccounts <-
       rpc (ReqGetProgramAccounts StakeProgram_programId
              (stakeFilters address))
           (getProgramAccounts connection StakeProgram_programId
              (stakeFilters address)) ;;
     console_log (FoundStakeAccounts (len stakeAccounts)) ;;
     ret {| stakeAccounts := stakeAccounts |})
    maxAttempts delay.

(** Callers leave [maxAttempts = 3, delay = 1000] to their defaults. *)
Definition hasStakeAccount (address : string) : M W bool :=
  result <- getStakeAccountsForAddress address 3 1000 ;;
  ret (isArrayNotEmpty (stakeAccounts result)).

Definition getAssociatedStakeAccounts (address : string)
  : M W (list string) :=
  withRetry_default
    (result <- getStakeAccountsForAddress address 3 1000 ;;
     let associatedStakeAccounts :=
       map (fun account => toBase58 (pubkey account))
           (stakeAccounts result) in
     console_log
       (FoundAssociatedStakeAccounts (len associatedStakeAccounts)) ;;
     ret associatedStakeAccounts).

(** The [do ... while] loop of [getSignaturesForAddress]; [fuel] bounds
    the number of iterations, and the loop diverges when it runs out. *)
Fixpoint getSignaturesForAddress_loop (fuel : nat) (publicKey : PublicKey)
    (commitment : string) (signatures : list ConfirmedSignatureInfo)
    (lastSignature : option string) : M W (list ConfirmedSignatureInfo) :=
  match fuel with
  | O => diverge
  | S fuel' =>
      let options := {| before := lastSignature; limit := 1000;
                        commitment := commitment |} in
      fetchedSignatures <-
        rpc (ReqGetSignaturesForAddress publicKey options)
            (connection_getSignaturesForAddress connection publicKey
               options) ;;
      let signatures := signatures ++ fetchedSignatures in
      let lastSignature :=
        if 0 <? len fetchedSignatures
        then option_map signature
               (nth_error fetchedSignatures
                  (List.length fetchedSignatures - 1)%nat)
        else None in
      if len fetchedSignatures =? 1000
      then getSignaturesForAddress_loop fuel' publicKey commitment
             signatures lastSignature
      else ret signatures
  end.

Definition getSignaturesForAddress (fuel : nat) (address : string)
    (commitment : string) : M W SignaturesResult :=
  withRetry_default
    (publicKey <- new_PublicKey address ;;
     signatures <-
       getSignaturesForAddress_loop fuel publicKey commitment [] None ;;
     ret {| signatures := signatures |}).

Variable fs : FileSystem W.

Fixpoint readAddresses_loop (lines : list string)
    (addresses : list string) : M W (list string) :=
  match lines with
  | [] => ret addresses
  | line :: lines' =>
      let address := trim line in
      valid <- isValidSolanaAddress address ;;
      if valid : bool
      then readAddresses_loop lines' (Set_add addresses address)
      else console_error (InvalidAddressSkipping address) ;;
           readAddresses_loop lines' addresses
  end.

Definition readAddressesFromFile (filePath : string)
  : M W (list string) :=
  withRetry_default
    (data <- fs_readFile fs filePath ;;
     let lines := split_LF (trim data) in
     addresses <- readAddresses_loop lines [] ;;
     ret (Array_from addresses)).

(** [totalTransactions += n] *)
Definition addTotal (n : Z) : M (Z * W) unit :=
  totalTransactions <- getLocal ;;
  setLocal (totalTransactions + n).

(** [withRetry(() =>
       connection.getParsedAccountInfo(new PublicKey(address)))],
    the first statement of the [try] block. *)
Definition fetchAccountInfo (address : string)
  : M W (option RpcResponseAndContext) :=
  withRetry_default
    (publicKey <- new_PublicKey address ;;
     rpc (ReqGetParsedAccountInfo publicKey)
         (getParsedAccountInfo connection publicKey)).

(** The body of the [try] block, for one address. *)
Definition processAddress (fuel : nat) (address : string)
  : M (Z * W) unit :=
  console_log (ProcessingAddress address) ;;
  accountInfo <- lift (fetchAccountInfo address) ;;
  (if program_is_stake accountInfo then
     console_log AddressIsStakeAccount ;;
     r <- lift (getSignaturesForAddress fuel address "confirmed") ;;
     addTotal (len (signatures r)) ;;
     console_log (TotalForStakeAccount (len (signatures r)))
   else
     isAuthority <- lift (hasStakeAccount address) ;;
     if isAuthority : bool then
       console_log AddressIsMainAuthority ;;
       r <- lift (getSignaturesForAddress fuel address "confirmed") ;;
       console_log (TotalForMainAuthority (len (signatures r))) ;;
       addTotal (len (signatures r)) ;;
       associatedStakeAccounts <- lift (getAssociatedStakeAccounts address) ;;
       forOf associatedStakeAccounts (fun stakeAccount =>
         console_log (ProcessingAssociatedStakeAccount stakeAccount) ;;
         r <- lift (getSignaturesForAddress fuel stakeAccount "confirmed") ;;
         addTotal (len (signatures r)) ;;
         console_log (TotalForAssociatedStakeAccount (len (signatures r))))
     else
       again <- lift (hasStakeAccount address) ;;
       if negb again && negb (program_is_stake accountInfo) then
         console_log AddressIsNormalAccount ;;
         r <- lift (getSignaturesForAddress fuel address "confirmed") ;;
         addTotal (len (signatures r)) ;;
         console_log (TotalForNormalAccount (len (signatures r)))
       else
         console_log InvalidAddress) ;;
  totalTransactions <- getLocal ;;
  console_log (AccumulatingTotal totalTransactions) ;;
  console_log Separator.

(** One iteration of the [for] loop: the [try] block and its [catch]. *)
Definition processAddress_caught (fuel : nat) (address : string)
  : M (Z * W) unit :=
  tryCatch (processAddress fuel address)
    (fun error => console_error (ErrorProcessingAddress address error)).

(** The loop and the [return], from a given value of
    [totalTransactions]. *)
Definition aggregate (fuel : nat) (addresses : list string)
    (totalTransactions : Z) : M W Z :=
  withLocal totalTransactions
    (forOf addresses (processAddress_caught fuel) ;;
     getLocal).

Definition getTotalTransactionCount (fuel : nat) (addresses : list string)
  : M W Z :=
  aggregate fuel addresses 0.

End Program.

(** ** The program of [index.js], without [withRetry] *)

Module IndexJs.

Section Program.

Variable PublicKey_new : string -> string + PublicKey.
Variable W : Type.
Variable connection : Connection W.

(** The [for] loop of [getStakeAccountsForAddress]; [n] bounds the
    iterations that are left ([maxAttempts - attempt] of them). *)
Fixpoint getStakeAccountsForAddress_loop (maxAttempts delay : Z) (n : nat)
    (address : string) (attempt : Z) (stakeAccounts : list KeyedAccount)
  : M W (list KeyedAccount) :=
  match n with
  | O => ret stakeAccounts
  | S n' =>
      if attempt <? maxAttempts then
        stakeAccounts <-
          rpc (ReqGetProgramAccounts StakeProgram_programId
                 (stakeFilters address))
              (getProgramAccounts connection StakeProgram_programId
                 (stakeFilters address)) ;;
        if isArrayNotEmpty stakeAccounts then
          console_log (FoundStakeAccounts (len stakeAccounts)) ;;
          ret stakeAccounts (* break *)
        else
          (if attempt <? maxAttempts - 1 then
             console_log NoStakeAccountsFoundWaiting ;;
             sleep delay
           else ret tt) ;;
          getStakeAccountsForAddress_loop maxAttempts delay n' address
            (attempt + 1) stakeAccounts
      else ret stakeAccounts
  end.

Definition getStakeAccountsForAddress (address : string)
    (maxAttempts delay : Z) : M W StakeAccountsResult :=
  stakeAccounts <-
    getStakeAccountsForAddress_loop maxAttempts delay
      (Z.to_nat maxAttempts) address 0 [] ;;
  ret {| stakeAccounts := stakeAccounts |}.

(** Callers leave [maxAttempts = 1, delay = 1000] to their defaults. *)
Definition hasStakeAccount (address : string) : M W bool :=
  result <- getStakeAccountsForAddress address 1 1000 ;;
  ret (isArrayNotEmpty (stakeAccounts result)).

Definition getAssociatedStakeAccounts (address : string)
  : M W (list string) :=
  result <- getStakeAccountsForAddress address 1 1000 ;;
  let associatedStakeAccounts :=
    map (fun account => toBase58 (pubkey account))
        (stakeAccounts result) in
  console_log
    (FoundAssociatedStakeAccounts (len associatedStakeAccounts)) ;;
  ret associatedStakeAccounts.

Definition getSignaturesForAddress (fuel : nat) (address : string)
    (commitment : string) : M W SignaturesResult :=
  publicKey <- new_PublicKey PublicKey_new address ;;
  signatures <-
    getSignaturesForAddress_loop connection fuel publicKey commitment
      [] None ;;
  ret {| signatures := signatures |}.

Variable fs : FileSystem W.

(** [`${err}`]: the string that the thrown value makes of itself with
    its own [toString] (for an error: its name, for some its code, and
    its message).  The values of the model keep the message only, so
    the rendering is left open. *)
Variable String_of : JsVal -> string.

Definition readAddressesFromFile (filePath : string)
  : M W (list string) :=
  addresses <-
    tryCatch
      (data <- fs_readFile fs filePath ;;
       let lines := split_LF (trim data) in
       readAddresses_loop PublicKey_new lines [])
      (fun err =>
         throw (VError ("Error reading file: " ++ String_of err))) ;;
  ret (Array_from addresses).

(** [connection.getParsedAccountInfo(new PublicKey(address))], the
    second statement of the loop body. *)
Definition fetchAccountInfo (address : string)
  : M W (option RpcResponseAndContext) :=
  publicKey <- new_PublicKey PublicKey_new address ;;
  rpc (ReqGetParsedAccountInfo publicKey)
      (getParsedAccountInfo connection publicKey).

Definition processAddress (fuel : nat) (address : string)
  : M (Z * W) unit :=
  console_log (ProcessingAddress address) ;;
  accountInfo <- lift (fetchAccountInfo address) ;;
  (if program_is_stake accountInfo then
     console_log AddressIsStakeAccount ;;
     r <- lift (getSignaturesForAddress fuel address "confirmed") ;;
     addTotal (len (signatures r)) ;;
     console_log (TotalForStakeAccount (len (signatures r))) ;;
     console_log EmptyLine ;;
     console_log Separator ;;
     console_log EmptyLine
   else
     isAuthority <- lift (hasStakeAccount address) ;;
     if isAuthority : bool then
       console_log AddressIsMainAuthority ;;
       r <- lift (getSignaturesForAddress fuel address "confirmed") ;;
       console_log (TotalForMainAuthority (len (signatures r))) ;;
       addTotal (len (signatures r)) ;;
       associatedStakeAccounts <- lift (getAssociatedStakeAccounts address) ;;
       forOf associatedStakeAccounts (fun stakeAccount =>
         console_log (ProcessingAssociatedStakeAccount stakeAccount) ;;
         r <- lift (getSignaturesForAddress fuel stakeAccount "confirmed") ;;
         addTotal (len (signatures r)) ;;
         console_log EmptyLine ;;
         console_log (TotalForAssociatedStakeAccount (len (signatures r))) ;;
         console_log EmptyLine)
     else
       again <- lift (hasStakeAccount address) ;;
       if negb again && negb (program_is_stake accountInfo) then
         console_log AddressIsNormalAccount ;;
         r <- lift (getSignaturesForAddress fuel address "confirmed") ;;
         addTotal (len (signatures r)) ;;
         console_log (TotalForNormalAccount (len (signatures r))) ;;
         console_log EmptyLine ;;
         console_log Separator ;;
         console_log EmptyLine
       else
         console_log InvalidAddress) ;;
  totalTransactions <- getLocal ;;
  console_log (AccumulatingTotal totalTransactions).

Definition getTotalTransactionCount (fuel : nat) (addresses : list string)
  : M W Z :=
  withLocal 0
    (forOf addresses (processAddress fuel) ;;
     getLocal).

End Program.

End IndexJs.

(** ** Test doubles and reference functions used to state the properties *)

(** Counts the invocations of an operation, next to its own state. *)
Definition spy {St A} (operation : M St A) : M (nat * St) A :=
  fun s =>
    match operation (snd s) with
    | (o, s', t) => (o, (S (fst s), s'), t)
    end.

(** An operation fails with an [Error] several times in a row: the
    messages and traces of the failed attempts, from first to last. *)
Inductive FailsTimes {St A} (operation : M St A)
  : St -> list (string * list Event) -> St -> Prop :=
| FailsTimes_nil (s : St) : FailsTimes operation s [] s
| FailsTimes_cons (s s1 s2 : St) (message : string) (t : list Event)
    (failures : list (string * list Event)) :
    operation s = (Throw (VError message), s1, t) ->
    FailsTimes operation s1 failures s2 ->
    FailsTimes operation s ((message, t) :: failures) s2.

(** What [withRetry] leaves in the trace for a run of failed attempts,
    the first of them numbered [i + 1]: the [i+1]-th failure is reported,
    and followed, unless it was the last attempt allowed, by a wait of
    [delay * 2 ^ i]. *)
Fixpoint backoffTrace (maxAttempts delay : Z) (i : nat)
    (failures : list (string * list Event)) : list Event :=
  match failures with
  | [] => []
  | (message, t) :: failures' =>
      t ++ [ConsoleError
              (AttemptFailed (Z.of_nat i + 1) maxAttempts message)]
        ++ (if Z.of_nat i + 1 <? maxAttempts
            then [ConsoleLog (WaitingBeforeRetry (delay * 2 ^ Z.of_nat i));
                  SetTimeout (delay * 2 ^ Z.of_nat i)]
            else [])
        ++ backoffTrace maxAttempts delay (S i) failures'
  end.

(** The waits of a trace, in order. *)
Fixpoint waits (t : list Event) : list Z :=
  match t with
  | [] => []
  | SetTimeout ms :: t' => ms :: waits t'
  | _ :: t' => waits t'
  end.

(** The requests of a trace, in order. *)
Fixpoint requests (t : list Event) : list Request :=
  match t with
  | [] => []
  | Rpc r :: t' => r :: requests t'
  | _ :: t' => requests t'
  end.

(** The cursor that the pagination loop derives from a batch. *)
Definition cursorAfter (fetchedSignatures : list ConfirmedSignatureInfo)
  : option string :=
  if 0 <? len fetchedSignatures
  then option_map signature
         (nth_error fetchedSignatures
            (List.length fetchedSignatures - 1)%nat)
  else None.

Definition pageOptions (cursor : option string) (commitment : string)
  : SignaturesForAddressOptions :=
  {| before := cursor; limit := 1000; commitment := commitment |}.

Section Sources.

Variable W : Type.
Variable connection : Connection W.
Variable publicKey : PublicKey.
Variable commitment : string.

(** A source answers successive page requests, each with the cursor of
    the batch before, by full batches of 1000 and then by a batch of
    another size. *)
Inductive Paged
  : option string -> W -> list (list ConfirmedSignatureInfo) -> W -> Prop :=
| Paged_last (cursor : option string) (w w' : W)
    (batch : list ConfirmedSignatureInfo) :
    connection_getSignaturesForAddress connection publicKey
      (pageOptions cursor commitment) w = (Return batch, w') ->
    len batch <> 1000 ->
    Paged cursor w [batch] w'
| Paged_more (cursor : option string) (w w' w'' : W)
    (batch : list ConfirmedSignatureInfo)
    (batches : list (list ConfirmedSignatureInfo)) :
    connection_getSignaturesForAddress connection publicKey
      (pageOptions cursor commitment) w = (Return batch, w') ->
    len batch = 1000 ->
    Paged (cursorAfter batch) w' batches w'' ->
    Paged cursor w (batch :: batches) w''.

(** The page requests that fetch the given batches. *)
Fixpoint pageRequests (cursor : option string)
    (batches : list (list ConfirmedSignatureInfo)) : list Request :=
  match batches with
  | [] => []
  | batch :: batches' =>
      ReqGetSignaturesForAddress publicKey (pageOptions cursor commitment)
        :: pageRequests (cursorAfter batch) batches'
  end.

(** The answer of the source to the [n]-th page request (from 0) of a
    client that pages through it as long as batches are full. *)
Fixpoint nthResponse (n : nat) (cursor : option string) (w : W)
  : Outcome (list ConfirmedSignatureInfo) * W :=
  let r := connection_getSignaturesForAddress connection publicKey
             (pageOptions cursor commitment) w in
  match n with
  | O => r
  | S n' =>
      match r with
      | (Return batch, w') =>
          if len batch =? 1000
          then nthResponse n' (cursorAfter batch) w'
          else r
      | _ => r
      end
  end.

End Sources.

(** A source that answers its [k]-th signature request (from 0) with
    [batches k], whatever the cursor; its state counts the requests. *)
Definition scriptedSource (batches : nat -> list ConfirmedSignatureInfo)
  : Connection nat :=
  {| getParsedAccountInfo := fun _ k => (Return None, k);
     getProgramAccounts := fun _ _ k => (Return [], k);
     connection_getSignaturesForAddress :=
       fun _ _ k => (Return (batches k), S k) |}.

(** *** A ledger that does not change during the run *)

Record Ledger : Type := {
  ledger_accountInfo : PublicKey -> option RpcResponseAndContext;
  ledger_programAccounts : ProgramId -> list Filter -> list KeyedAccount;
  ledger_history : PublicKey -> list ConfirmedSignatureInfo
}.

(** The part of a history (newest first) that is older than a cursor. *)
Fixpoint olderThan (cursor : string)
    (history : list ConfirmedSignatureInfo) : list ConfirmedSignatureInfo :=
  match history with
  | [] => []
  | info :: history' =>
      if String.eqb (signature info) cursor then history'
      else olderThan cursor history'
  end.

(** What a cursor leaves to fetch of a history. *)
Definition remainingAfter (history : list ConfirmedSignatureInfo)
    (cursor : option string) : list ConfirmedSignatureInfo :=
  match cursor with
  | None => history
  | Some c => olderThan c history
  end.

Definition page (history : list ConfirmedSignatureInfo)
    (options : SignaturesForAddressOptions) : list ConfirmedSignatureInfo :=
  firstn (Z.to_nat (limit options))
    (remainingAfter history (before options)).

Definition ledgerConnection (L : Ledger) : Connection unit :=
  {| getParsedAccountInfo :=
       fun publicKey w => (Return (ledger_accountInfo L publicKey), w);
     getProgramAccounts :=
       fun programId filters w =>
         (Return (ledger_programAccounts L programId filters), w);
     connection_getSignaturesForAddress :=
       fun publicKey options w =>
         (Return (page (ledger_history L publicKey) options), w) |}.

(** A connection on which some requests always fail: [down r] is the
    message of the error that request [r] is answered with. *)
Definition withOutage {W} (down : Request -> option string)
    (connection : Connection W) : Connection W :=
  {| getParsedAccountInfo := fun publicKey w =>
       match down (ReqGetParsedAccountInfo publicKey) with
       | Some message => (Throw (VError message), w)
       | None => getParsedAccountInfo connection publicKey w
       end;
     getProgramAccounts := fun programId filters w =>
       match down (ReqGetProgramAccounts programId filters) with
       | Some message => (Throw (VError message), w)
       | None => getProgramAccounts connection programId filters w
       end;
     connection_getSignaturesForAddress := fun publicKey options w =>
       match down (ReqGetSignaturesForAddress publicKey options) with
       | Some message => (Throw (VError message), w)
       | None =>
           connection_getSignaturesForAddress connection publicKey options w
       end |}.

(** A file system with one content for every path. *)
Definition constFile {W} (content : string) : FileSystem W :=
  {| readFile := fun _ w => (Return content, w) |}.

(** *** The signals and the count of one address on a ledger *)

Inductive AccountKind : Type :=
| StakeAccount
| AuthorityAccount
| NormalAccount
| Indeterminate.

Section Reference.

Variable PublicKey_new : string -> string + PublicKey.
Variable L : Ledger.

Definition ownCount (publicKey : PublicKey) : Z :=
  len (ledger_history L publicKey).

Definition associatedOf (address : string) : list KeyedAccount :=
  ledger_programAccounts L StakeProgram_programId (stakeFilters address).

Definition isStakeAccountItself (publicKey : PublicKey) : bool :=
  program_is_stake (ledger_accountInfo L publicKey).

Definition hasAssociatedStakeAccounts (address : string) : bool :=
  isArrayNotEmpty (associatedOf address).

Definition associatedCount (address : string) : Z :=
  fold_right Z.add 0
    (map (fun account => ownCount (pubkey account)) (associatedOf address)).

(** The classification that the branches of the aggregation loop make. *)
Definition kindOf (address : string) (publicKey : PublicKey)
  : AccountKind :=
  if isStakeAccountItself publicKey then StakeAccount
  else if hasAssociatedStakeAccounts address then AuthorityAccount
  else NormalAccount.

(** The count of one address: nothing when it is not a valid address,
    else its own signatures, and those of its associated stake accounts
    when it is an authority account. *)
Definition contribution (address : string) : Z :=
  match PublicKey_new address with
  | inl _ => 0
  | inr publicKey =>
      match kindOf address publicKey with
      | AuthorityAccount => ownCount publicKey + associatedCount address
      | _ => ownCount publicKey
      end
  end.

Definition totalOf (addresses : list string) : Z :=
  fold_right Z.add 0 (map contribution addresses).

End Reference.

(** The decision table as the specification words it. *)
Definition decisionTable_spec
    (isStakeAccountItself hasAssociatedStakeAccounts : bool) : AccountKind :=
  match isStakeAccountItself, hasAssociatedStakeAccounts with
  | true, false => StakeAccount
  | false, true => AuthorityAccount
  | false, false => NormalAccount
  | true, true => Indeterminate
  end.

(** The classification that a console line announces. *)
Definition kindOfMsg (m : Msg) : option AccountKind :=
  match m with
  | AddressIsStakeAccount => Some StakeAccount
  | AddressIsMainAuthority => Some AuthorityAccount
  | AddressIsNormalAccount => Some NormalAccount
  | InvalidAddress => Some Indeterminate
  | _ => None
  end.

(** The classifications announced in a trace, in order. *)
Fixpoint announced (t : list Event) : list AccountKind :=
  match t with
  | [] => []
  | ConsoleLog m :: t' =>
      match kindOfMsg m with
      | Some k => k :: announced t'
      | None => announced t'
      end
  | _ :: t' => announced t'
  end.

(** *** A key library for tests: any non-empty string over the base-58
    alphabet is a valid address. *)
Definition isBase58Char (c : ascii) : bool :=
  let n := nat_of_ascii c in
  ((49 <=? n) && (n <=? 57)                       (* 1-9 *)
   || (65 <=? n) && (n <=? 90) && negb (n =? 73) && negb (n =? 79)
                                                  (* A-Z but I, O *)
   || (97 <=? n) && (n <=? 122) && negb (n =? 108))%nat.
                                                  (* a-z but l *)

Fixpoint allBase58 (s : string) : bool :=
  match s with
  | EmptyString => true
  | String c s' => isBase58Char c && allBase58 s'
  end.

Definition test_PublicKey_new (address : string) : string + PublicKey :=
  if negb (String.eqb address "") && allBase58 address
  then inr {| toBase58 := address |}
  else inl "Invalid public key input".

(** *** Operations for tests; their state counts their own runs *)

(** Fails on its first [k] runs, then succeeds. *)
Definition failsFirst (k : nat) (message result : string) : M nat string :=
  fun runs =>
    if (runs <? k)%nat then (Throw (VError message), S runs, [])
    else (Return result, S runs, []).

Definition alwaysFails (message : string) : M nat string :=
  fun runs => (Throw (VError message), S runs, []).

(** *** Signature records for tests *)

(** Distinct signatures for the numbers below 65536. *)
Definition sigOf (i : nat) : string :=
  String (ascii_of_nat (i / 256)) (String (ascii_of_nat (i mod 256)) "").

(** A history of [n] records, numbered from [start]. *)
Definition mkHistory (start n : nat) : list ConfirmedSignatureInfo :=
  map (fun i => {| signature := sigOf i; slot := Z.of_nat i |})
      (seq start n).

Definition scriptOf (script : list (list ConfirmedSignatureInfo))
  : nat -> list ConfirmedSignatureInfo :=
  fun k => nth k script [].

(** No string occurs twice. *)
Fixpoint distinctb (l : list string) : bool :=
  match l with
  | [] => true
  | x :: l' => negb (existsb (String.eqb x) l') && distinctb l'
  end.

(** A ledger with the history of one key. *)
Definition ledgerOfHistory (history : list ConfirmedSignatureInfo)
  : Ledger :=
  {| ledger_accountInfo := fun _ => None;
     ledger_programAccounts := fun _ _ => [];
     ledger_history := fun _ => history |}.

(** Every request of a trace satisfies [P]. *)
Definition requestsAll (P : Request -> Prop) (t : list Event) : Prop :=
  Forall (fun e => match e with Rpc r => P r | _ => True end) t.

(** *** The address loader, without its console lines *)

Definition validAddress (PublicKey_new : string -> string + PublicKey)
    (address : string) : bool :=
  match PublicKey_new address with
  | inl _ => false
  | inr _ => true
  end.

Fixpoint collect (PublicKey_new : string -> string + PublicKey)
    (lines : list string) (addresses : list string) : list string :=
  match lines with
  | [] => addresses
  | line :: lines' =>
      if validAddress PublicKey_new (trim line)
      then collect PublicKey_new lines' (Set_add addresses (trim line))
      else collect PublicKey_new lines' addresses
  end.

(** The content of a file with the given lines. *)
Definition fileOf (lines : list string) : string :=
  String.concat (String LF EmptyString) lines.

(** *** What the aggregation needs of a ledger, for one address *)

Section Needs.

Variable PublicKey_new : string -> string + PublicKey.
Variable L : Ledger.
Variable down : Request -> option string.

(** Iterations that paging through the history of a key takes. *)
Definition historyFuel (publicKey : PublicKey) : nat :=
  S (List.length (ledger_history L publicKey) / 1000).

Definition addressFuel (address : string) : nat :=
  match PublicKey_new address with
  | inl _ => 0%nat
  | inr publicKey =>
      Nat.max (historyFuel publicKey)
        (list_max (map (fun account => historyFuel (pubkey account))
                       (associatedOf L address)))
  end.

Definition enoughFuel (addresses : list string) : nat :=
  list_max (map addressFuel addresses).

(** The addresses of the associated stake accounts are read back by the
    key library as the keys they render. *)
Definition associatedKeysValid (address : string) : Prop :=
  forall account, In account (associatedOf L address) ->
  PublicKey_new (toBase58 (pubkey account)) = inr (pubkey account).

(** No request that the processing of the address sends is down. *)
Definition reachable (address : string) : Prop :=
  match PublicKey_new address with
  | inl _ => True
  | inr publicKey =>
      down (ReqGetParsedAccountInfo publicKey) = None /\
      down (ReqGetProgramAccounts StakeProgram_programId
              (stakeFilters address)) = None /\
      (forall options,
         down (ReqGetSignaturesForAddress publicKey options) = None) /\
      (forall account options,
         In account (associatedOf L address) ->
         down (ReqGetSignaturesForAddress (pubkey account) options) = None)
  end.

End Needs.

(** *** The claims on the sum, on classification and on failed
    addresses, as stated *)

(** The keys whose signatures the sum takes in: each valid address, and
    the stake accounts associated with it when it is an authority. *)
Definition countedKeys (PublicKey_new : string -> string + PublicKey)
    (L : Ledger) (addresses : list string) : list PublicKey :=
  flat_map
    (fun address =>
       match PublicKey_new address with
       | inl _ => []
       | inr publicKey =>
           match kindOf L address publicKey with
           | AuthorityAccount =>
               publicKey :: map pubkey (associatedOf L address)
           | _ => [publicKey]
           end
       end)
    addresses.

Definition PublicKey_eq_dec (x y : PublicKey) : {x = y} + {x <> y} :=
  match x, y with
  | {| toBase58 := a |}, {| toBase58 := b |} =>
      match string_dec a b with
      | left Heq => left (f_equal Build_PublicKey Heq)
      | right Hneq =>
          right (fun H : {| toBase58 := a |} = {| toBase58 := b |} =>
                   Hneq (f_equal toBase58 H))
      end
  end.

(** The value returned is the sum of the contributions, and no key has
    its signatures counted twice in it: it is what the keys counted
    hold, each of them taken once. *)
Definition sums_without_double_counting
    (PublicKey_new : string -> string + PublicKey) (L : Ledger)
    (fuel : nat) (addresses : list string) : Prop :=
  forall total t,
    getTotalTransactionCount PublicKey_new (ledgerConnection L) fuel
      addresses tt = (Return total, tt, t) ->
    total = totalOf PublicKey_new L addresses /\
    total = fold_right Z.add 0
              (map (ownCount L)
                   (nodup PublicKey_eq_dec
                      (countedKeys PublicKey_new L addresses))).

(** The classification of a valid address follows the decision table of
    the specification, and an [Indeterminate] address counts nothing. *)
Definition classification_follows_spec_table
    (PublicKey_new : string -> string + PublicKey) (L : Ledger)
    (fuel : nat) (address : string) : Prop :=
  forall publicKey total t,
    PublicKey_new address = inr publicKey ->
    getTotalTransactionCount PublicKey_new (ledgerConnection L) fuel
      [address] tt = (Return total, tt, t) ->
    let kind := decisionTable_spec (isStakeAccountItself L publicKey)
                  (hasAssociatedStakeAccounts L address) in
    announced t = [kind] /\ (kind = Indeterminate -> total = 0).

(** An address whose processing fails has added nothing to the total. *)
Definition failed_address_counts_nothing
    (PublicKey_new : string -> string + PublicKey) {W : Type}
    (connection : Connection W) (fuel : nat) (address : string) : Prop :=
  forall total w error total' w' t,
    processAddress PublicKey_new connection fuel address (total, w)
      = (Throw error, (total', w'), t) ->
    total' = total.

(** *** Ledgers for tests *)

Definition stakeInfo : option RpcResponseAndContext :=
  Some {| value := Some {| data := Some (ParsedAccountData "stake") |} |}.

Definition systemInfo : option RpcResponseAndContext :=
  Some {| value := Some {| data := Some (ParsedAccountData "system") |} |}.

(** Address A is a stake account, and the scan for A as an authority
    finds the stake account S; A has 2 signatures and S has 3. *)
Definition conflictedLedger : Ledger :=
  {| ledger_accountInfo := fun publicKey =>
       if String.eqb (toBase58 publicKey) "A" then stakeInfo
       else if String.eqb (toBase58 publicKey) "S" then stakeInfo
       else systemInfo;
     ledger_programAccounts := fun programId filters =>
       match programId, filters with
       | StakeProgram_programId, [DataSize 200; Memcmp 44 "A"] =>
           [{| pubkey := {| toBase58 := "S" |} |}]
       | _, _ => []
       end;
     ledger_history := fun publicKey =>
       if String.eqb (toBase58 publicKey) "A" then mkHistory 0 2
       else if String.eqb (toBase58 publicKey) "S" then mkHistory 10 3
       else [] |}.

(** Address A is an authority with 2 signatures and the stake account S
    with 3; B is a normal account with 4 signatures, C one with 5. *)
Definition authorityLedger : Ledger :=
  {| ledger_accountInfo := fun publicKey =>
       if String.eqb (toBase58 publicKey) "S" then stakeInfo
       else systemInfo;
     ledger_programAccounts := fun programId filters =>
       match programId, filters with
       | StakeProgram_programId, [DataSize 200; Memcmp 44 "A"] =>
           [{| pubkey := {| toBase58 := "S" |} |}]
       | _, _ => []
       end;
     ledger_history := fun publicKey =>
       if String.eqb (toBase58 publicKey) "A" then mkHistory 0 2
       else if String.eqb (toBase58 publicKey) "S" then mkHistory 10 3
       else if String.eqb (toBase58 publicKey) "B" then mkHistory 20 4
       else if String.eqb (toBase58 publicKey) "C" then mkHistory 30 5
       else [] |}.

(** The signature requests for S always fail. *)
Definition signaturesOfSDown (r : Request) : option string :=
  match r with
  | ReqGetSignaturesForAddress publicKey _ =>
      if String.eqb (toBase58 publicKey) "S" then Some "timeout" else None
  | _ => None
  end.

(** The account of B cannot be looked up. *)
Definition accountOfBDown (r : Request) : option string :=
  match r with
  | ReqGetParsedAccountInfo publicKey =>
      if String.eqb (toBase58 publicKey) "B" then Some "timeout" else None
  | _ => None
  end.

(** *** More test doubles and measures of a trace *)

(** The time waited in a trace. *)
Definition totalWait (t : list Event) : Z := fold_right Z.add 0 (waits t).

(** An operation that throws [undefined]; its state counts its runs. *)
Definition throwsUndefined : M nat string :=
  fun runs => (Throw VUndefined, S runs, []).

(** A source that answers its [k]-th signature request (from 0) with the
    outcome [answers k]: a batch, or a failure. *)
Definition scriptedAnswers
    (answers : nat -> Outcome (list ConfirmedSignatureInfo))
  : Connection nat :=
  {| getParsedAccountInfo := fun _ k => (Return None, k);
     getProgramAccounts := fun _ _ k => (Return [], k);
     connection_getSignaturesForAddress :=
       fun _ _ k => (answers k, S k) |}.

(** A full page, a failure, then a full page and a page of 5. *)
Definition failsMidway (k : nat) : Outcome (list ConfirmedSignatureInfo) :=
  match k with
  | 0%nat => Return (mkHistory 0 1000)
  | 1%nat => Throw (VError "timeout")
  | 2%nat => Return (mkHistory 0 1000)
  | 3%nat => Return (mkHistory 1000 5)
  | _ => Return []
  end.

(** The lines written with [console.error] in a trace, in order. *)
Fixpoint consoleErrors (t : list Event) : list Msg :=
  match t with
  | [] => []
  | ConsoleError m :: t' => m :: consoleErrors t'
  | _ :: t' => consoleErrors t'
  end.

(** The paths of the files read in a trace, in order. *)
Fixpoint fileReads (t : list Event) : list string :=
  match t with
  | [] => []
  | ReadFile filePath :: t' => filePath :: fileReads t'
  | _ :: t' => fileReads t'
  end.

(** What the loader reports for a line. *)
Definition lineReport (PublicKey_new : string -> string + PublicKey)
    (line : string) : list Msg :=
  if validAddress PublicKey_new (trim line) then []
  else [AddressIsInvalid; InvalidAddressSkipping (trim line)].

(** A string without white space. *)
Fixpoint noWhiteSpace (s : string) : bool :=
  match s with
  | EmptyString => true
  | String c s' => negb (isWhiteSpace c) && noWhiteSpace s'
  end.

(** A non-empty word: what a line holding one address is. *)
Definition isWord (s : string) : bool :=
  negb (String.eqb s "") && noWhiteSpace s.

Definition CR : ascii := ascii_of_nat 13.

(** A file system on which no file can be read. *)
Definition brokenFile {W} (message : string) : FileSystem W :=
  {| readFile := fun _ w => (Throw (VError message), w) |}.

(** [Error.prototype.toString] for the name 'Error': what [`${err}`]
    gives when every error thrown is a plain [Error]. *)
Definition Error_toString (err : JsVal) : string :=
  match err with
  | VUndefined => "undefined"
  | VError message =>
      if String.eqb message "" then "Error" else "Error: " ++ message
  end.

(** A string of white space only. *)
Fixpoint allWhiteSpace (s : string) : bool :=
  match s with
  | EmptyString => true
  | String c s' => isWhiteSpace c && allWhiteSpace s'
  end.

(** A line that holds the word [word], white space apart. *)
Definition paddedWord (line word : string) : Prop :=
  exists p q,
    allWhiteSpace p = true /\ allWhiteSpace q = true /\
    line = String.append p (String.append word q).

(** *** The requests that one address costs *)

Definition isScan (r : Request) : bool :=
  match r with
  | ReqGetProgramAccounts _ _ => true
  | _ => false
  end.

(** The number of stake-account scans in a trace. *)
Definition scans (t : list Event) : nat :=
  List.length (filter isScan (requests t)).

(** The requests for a valid address on a ledger that does not change:
    one account lookup, two scans unless it is a stake account, and the
    pages of its history and of those of its associated stake
    accounts. *)
Definition requestCost (L : Ledger) (address : string)
    (publicKey : PublicKey) : nat :=
  match kindOf L address publicKey with
  | StakeAccount => 1 + historyFuel L publicKey
  | AuthorityAccount =>
      3 + historyFuel L publicKey
      + list_sum (map (fun account => historyFuel L (pubkey account))
                      (associatedOf L address))
  | _ => 3 + historyFuel L publicKey
  end.

(** *** Scripted answers to the stake-account scan *)

(** A connection whose [k]-th scan gives [answers k]; its state counts
    the scans. *)
Definition scriptedScans (answers : nat -> Outcome (list KeyedAccount))
  : Connection nat :=
  {| getParsedAccountInfo := fun _ k => (Return None, k);
     getProgramAccounts := fun _ _ k => (answers k, S k);
     connection_getSignaturesForAddress := fun _ _ k => (Return [], k) |}.

Definition scanRequest (address : string) : Request :=
  ReqGetProgramAccounts StakeProgram_programId (stakeFilters address).

(** What [index.js] leaves in the trace for [i] empty answers, none of
    them the last one allowed. *)
Definition emptyRounds (address : string) (delay : Z) (i : nat)
  : list Event :=
  List.concat
    (repeat [Rpc (scanRequest address);
             ConsoleLog NoStakeAccountsFoundWaiting;
             SetTimeout delay] i).

(** ** [main] *)

(** What [main] does itself, around the events of the functions that it
    calls. *)
Inductive MainEvent : Type :=
| Inner (e : Event)
| LogProcessingAddresses (n : Z)
| LogTotalTransactions (totalTransactions : Z)
| ErrorFatal (error : JsVal)
| ProcessExit (code : Z).

(** How a run of [main] ends: its promise is fulfilled or rejected (and
    nothing handles the rejection), [main] ends the process with
    [process.exit], or a call never returns. *)
Inductive MainOutcome : Type :=
| Resolved
| Rejected (error : JsVal)
| Exited (code : Z)
| Pending.

Definition MainM (W : Type) : Type :=
  W -> MainOutcome * W * list MainEvent.

(** [const x = await m], then [k x]; what [m] throws goes to
    [onThrow]. *)
Definition await {W A} (m : M W A) (k : A -> MainM W)
    (onThrow : JsVal -> MainM W) : MainM W :=
  fun w =>
    match m w with
    | (Return a, w1, t1) =>
        match k a w1 with
        | (o, w2, t2) => (o, w2, map Inner t1 ++ t2)
        end
    | (Throw error, w1, t1) =>
        match onThrow error w1 with
        | (o, w2, t2) => (o, w2, map Inner t1 ++ t2)
        end
    | (Diverge, w1, t1) => (Pending, w1, map Inner t1)
    end.

Definition say {W} (e : MainEvent) (k : MainM W) : MainM W :=
  fun w =>
    match k w with
    | (o, w', t) => (o, w', e :: t)
    end.

Definition finish {W} (o : MainOutcome) : MainM W :=
  fun w => (o, w, []).

(** [const connection = new Connection(endpoint, commitment)], then
    [k connection]; [Connection_new] is the constructor of the library,
    which gives a connection or the message of the error that it throws
    (it throws for an endpoint that is no http or https URL). *)
Definition new_Connection {W}
    (Connection_new : string -> string -> string + Connection W)
    (endpoint commitment : string) (k : Connection W -> MainM W)
    (onThrow : JsVal -> MainM W) : MainM W :=
  match Connection_new endpoint commitment with
  | inl message => onThrow (VError message)
  | inr connection => k connection
  end.

(** [process.env.RPC_URL || 'https://api.mainnet-beta.solana.com']: the
    variable of the environment, unless it is not set or is empty. *)
Definition endpointOf (RPC_URL : option string) : string :=
  match RPC_URL with
  | Some url =>
      if String.eqb url "" then "https://api.mainnet-beta.solana.com"
      else url
  | None => "https://api.mainnet-beta.solana.com"
  end.

Definition addressFile : string := "./addresses.txt".

Section Main.

Variable PublicKey_new : string -> string + PublicKey.
Variable W : Type.
Variable Connection_new : string -> string -> string + Connection W.
Variable fs : FileSystem W.

(** [main]: the connection is made before the [try]; whatever is thrown
    inside the [try] is logged and the process exits with status 1. *)
Definition main (RPC_URL : option string) (fuel : nat) : MainM W :=
  let uncaught error := finish (Rejected error) in
  let catch error :=
    say (ErrorFatal error) (say (ProcessExit 1) (finish (Exited 1))) in
  new_Connection Connection_new (endpointOf RPC_URL) "confirmed"
    (fun connection =>
       await (readAddressesFromFile PublicKey_new fs addressFile)
         (fun addresses =>
            say (LogProcessingAddresses (len addresses))
              (await
                 (getTotalTransactionCount PublicKey_new connection fuel
                    addresses)
                 (fun totalTransactions =>
                    say (LogTotalTransactions totalTransactions)
                      (finish Resolved))
                 catch))
         catch)
    uncaught.

Variable String_of : JsVal -> string.

(** [main] of [index.js], which catches nothing; its endpoint is the
    text that the file holds in the place of one. *)
Definition IndexJs_main (fuel : nat) : MainM W :=
  let uncaught error := finish (Rejected error) in
  new_Connection Connection_new "<RPC ENDPOINT HERE>" "confirmed"
    (fun connection =>
       await
         (IndexJs.readAddressesFromFile PublicKey_new fs String_of
            addressFile)
         (fun addresses =>
            say (LogProcessingAddresses (len addresses))
              (await
                 (IndexJs.getTotalTransactionCount PublicKey_new connection
                    fuel addresses)
                 (fun totalTransactions =>
                    say (LogTotalTransactions totalTransactions)
                      (finish Resolved))
                 uncaught))
         uncaught)
    uncaught.

End Main.

(** The constructor of the library as a test double: [connection] for
    an endpoint that starts with 'http:' or 'https:', an error for any
    other. *)
Definition test_Connection_new {W} (connection : Connection W)
    (endpoint commitment : string) : string + Connection W :=
  if orb (String.prefix "http:" endpoint) (String.prefix "https:" endpoint)
  then inr connection
  else inl "Endpoint URL must start with `http:` or `https:`.".

(** The events of the functions called, out of a trace of [main]. *)
Fixpoint inner (t : list MainEvent) : list Event :=
  match t with
  | [] => []
  | Inner e :: t' => e :: inner t'
  | _ :: t' => inner t'
  end.

(** * Properties *)

Unset Implicit Arguments.

(** ** The monad *)

Lemma bind_Return {St A B} (m : M St A) (k : A -> M St B) s a s1 t1 :
  m s = (Return a, s1, t1) ->
  bind m k s = match k a s1 with (o, s2, t2) => (o, s2, t1 ++ t2) end.
Proof. intros H. unfold bind. rewrite H. reflexivity. Qed.

Lemma bind_Throw {St A B} (m : M St A) (k : A -> M St B) s error s1 t1 :
  m s = (Throw error, s1, t1) ->
  bind m k s = (Throw error, s1, t1).
Proof. intros H. unfold bind. rewrite H. reflexivity. Qed.

Lemma bind_Diverge {St A B} (m : M St A) (k : A -> M St B) s s1 t1 :
  m s = (Diverge, s1, t1) ->
  bind m k s = (Diverge, s1, t1).
Proof. intros H. unfold bind. rewrite H. reflexivity. Qed.

Lemma tryCatch_Return {St A} (m : M St A) handler s a s1 t1 :
  m s = (Return a, s1, t1) -> tryCatch m handler s = (Return a, s1, t1).
Proof. intros H. unfold tryCatch. rewrite H. reflexivity. Qed.

Lemma tryCatch_Diverge {St A} (m : M St A) handler s s1 t1 :
  m s = (Diverge, s1, t1) -> tryCatch m handler s = (Diverge, s1, t1).
Proof. intros H. unfold tryCatch. rewrite H. reflexivity. Qed.

Lemma tryCatch_Throw {St A} (m : M St A) handler s error s1 t1 :
  m s = (Throw error, s1, t1) ->
  tryCatch m handler s =
  match handler error s1 with (o, s2, t2) => (o, s2, t1 ++ t2) end.
Proof. intros H. unfold tryCatch. rewrite H. reflexivity. Qed.

(** ** [withRetry] *)

Section WithRetryFacts.

Variables St A : Type.
Variable operation : M St A.

(** One failed attempt that is not the last one allowed. *)
Lemma withRetry_loop_retry maxAttempts n attempt delay lastError
    s s1 message t :
  operation s = (Throw (VError message), s1, t) ->
  attempt < maxAttempts ->
  withRetry_loop operation maxAttempts (S n) attempt delay lastError s =
  match withRetry_loop operation maxAttempts n (attempt + 1) (delay * 2)
          (VError message) s1 with
  | (o, s2, t2) =>
      (o, s2,
       t ++ [ConsoleError (AttemptFailed attempt maxAttempts message)]
         ++ [ConsoleLog (WaitingBeforeRetry delay); SetTimeout delay]
         ++ t2)
  end.
Proof.
  intros Hop Hlt. simpl.
  assert (Hle : (attempt <=? maxAttempts) = true) by (apply Z.leb_le; lia).
  assert (Hlt' : (attempt <? maxAttempts) = true) by (apply Z.ltb_lt; lia).
  rewrite Hle. unfold tryCatch. rewrite Hop. simpl.
  unfold bind at 1. simpl. unfold bind at 1. simpl.
  rewrite Hlt'. unfold bind at 1. simpl. unfold bind at 1. simpl.
  destruct (withRetry_loop operation maxAttempts n (attempt + 1) (delay * 2)
              (VError message) s1) as [[o s2] t2].
  reflexivity.
Qed.

(** The failed attempt that exhausts the attempts. *)
Lemma withRetry_loop_last maxAttempts n delay lastError s s1 message t :
  operation s = (Throw (VError message), s1, t) ->
  withRetry_loop operation maxAttempts (S n) maxAttempts delay lastError s =
  (Throw (VError message), s1,
   t ++ [ConsoleError (AttemptFailed maxAttempts maxAttempts message)]).
Proof.
  intros Hop. simpl. rewrite Z.leb_refl. unfold tryCatch. rewrite Hop.
  simpl. unfold bind at 1. simpl. unfold bind at 1. simpl.
  rewrite Z.ltb_irrefl.
  destruct n; simpl.
  - reflexivity.
  - assert (H : (maxAttempts + 1 <=? maxAttempts) = false)
      by (apply Z.leb_gt; lia).
    rewrite H. reflexivity.
Qed.

(** An attempt that does not throw ends the loop. *)
Lemma withRetry_loop_done maxAttempts n attempt delay lastError s o s1 t :
  operation s = (o, s1, t) ->
  (forall error, o <> Throw error) ->
  attempt <= maxAttempts ->
  withRetry_loop operation maxAttempts (S n) attempt delay lastError s =
  (o, s1, t).
Proof.
  intros Hop Ho Hle. simpl.
  assert (H : (attempt <=? maxAttempts) = true) by (apply Z.leb_le; lia).
  rewrite H. unfold tryCatch. rewrite Hop.
  destruct o; try reflexivity. exfalso. eapply Ho. reflexivity.
Qed.

(** A run of failed attempts that leaves attempts to spare. *)
Lemma withRetry_loop_failures maxAttempts delay failures :
  forall (i n : nat) lastError s s1,
  FailsTimes operation s failures s1 ->
  Z.of_nat i + Z.of_nat (List.length failures) < maxAttempts ->
  exists lastError',
  withRetry_loop operation maxAttempts (List.length failures + n)
    (Z.of_nat i + 1) (delay * 2 ^ Z.of_nat i) lastError s =
  match withRetry_loop operation maxAttempts n
          (Z.of_nat (i + List.length failures) + 1)
          (delay * 2 ^ Z.of_nat (i + List.length failures)) lastError' s1 with
  | (o, s2, t2) =>
      (o, s2, backoffTrace maxAttempts delay i failures ++ t2)
  end.
Proof.
  induction failures as [|[message t] failures IH];
    intros i n lastError s s1 HF Hlen.
  - inversion HF; subst. exists lastError. simpl.
    rewrite Nat.add_0_r.
    destruct (withRetry_loop _ _ _ _ _ _ _) as [[o s2] t2]. reflexivity.
  - inversion HF as [|s' s1' s2' m' t' fs Hop HF']; subst.
    simpl List.length in *.
    destruct (IH (S i) n (VError message) _ _ HF') as [lastError' IH'].
    { lia. }
    exists lastError'.
    change (S (List.length failures) + n)%nat
      with (S (List.length failures + n)).
    rewrite (withRetry_loop_retry maxAttempts _ _ _ _ _ _ _ _ Hop) by lia.
    replace (Z.of_nat i + 1 + 1) with (Z.of_nat (S i) + 1) by lia.
    replace (delay * 2 ^ Z.of_nat i * 2) with (delay * 2 ^ Z.of_nat (S i)).
    2:{ rewrite Nat2Z.inj_succ, Z.pow_succ_r by lia. ring. }
    rewrite IH'.
    replace (S i + List.length failures)%nat
      with (i + S (List.length failures))%nat by lia.
    clear IH IH'.
    destruct (withRetry_loop operation maxAttempts n _ _ lastError' s1)
      as [[o s2] t2].
    simpl backoffTrace.
    assert (Hlt : (Z.of_nat i + 1 <? maxAttempts) = true)
      by (apply Z.ltb_lt; lia).
    rewrite Hlt. rewrite <- ?app_assoc. simpl. rewrite <- ?app_assoc.
    reflexivity.
Qed.

End WithRetryFacts.

Lemma backoffTrace_app maxAttempts delay failures failures' :
  forall i,
  backoffTrace maxAttempts delay i (failures ++ failures') =
  backoffTrace maxAttempts delay i failures
    ++ backoffTrace maxAttempts delay (i + List.length failures) failures'.
Proof.
  induction failures as [|[m t] failures IH]; intros i; simpl.
  - rewrite Nat.add_0_r. reflexivity.
  - rewrite IH. rewrite <- ?app_assoc.
    replace (S i + List.length failures)%nat
      with (i + S (List.length failures))%nat by lia.
    destruct (Z.of_nat i + 1 <? maxAttempts); simpl;
      rewrite <- ?app_assoc; reflexivity.
Qed.

Lemma waits_app t1 t2 : waits (t1 ++ t2) = waits t1 ++ waits t2.
Proof.
  induction t1 as [|e t1 IH]; simpl; [reflexivity|].
  destruct e; simpl; rewrite IH; reflexivity.
Qed.

Lemma announced_app t1 t2 :
  announced (t1 ++ t2) = announced t1 ++ announced t2.
Proof.
  induction t1 as [|e t1 IH]; simpl; [reflexivity|].
  destruct e; simpl; try exact IH.
  destruct (kindOfMsg m); simpl; rewrite IH; reflexivity.
Qed.

(** The waits of a run of failures of an operation that does not wait
    itself: the wait before the [k]-th retry is [delay * 2 ^ (k - 1)],
    and no wait follows the last attempt allowed. *)
Lemma waits_backoffTrace maxAttempts delay failures :
  Forall (fun f => waits (snd f) = []) failures ->
  forall i,
  Z.of_nat i + Z.of_nat (List.length failures) <= maxAttempts ->
  waits (backoffTrace maxAttempts delay i failures) =
  map (fun k => delay * 2 ^ (Z.of_nat k - 1))
      (seq (S i)
         (Nat.min (List.length failures) (Z.to_nat (maxAttempts - 1) - i))).
Proof.
  induction 1 as [|[m t] failures Hs HF IH]; intros i Hlen.
  - reflexivity.
  - simpl in Hs. simpl List.length in Hlen. simpl backoffTrace.
    rewrite !waits_app, Hs. simpl app.
    destruct (Z.ltb_spec (Z.of_nat i + 1) maxAttempts) as [Hlt|Hge].
    + cbn [waits app]. rewrite IH by lia.
      replace (Nat.min (List.length ((m, t) :: failures))
                 (Z.to_nat (maxAttempts - 1) - i))
        with (S (Nat.min (List.length failures)
                   (Z.to_nat (maxAttempts - 1) - S i)))
        by (simpl List.length; lia).
      cbn [seq map].
      replace (Z.of_nat (S i) - 1) with (Z.of_nat i) by lia.
      reflexivity.
    + assert (List.length failures = 0%nat) as Hnil by lia.
      destruct failures; [|discriminate]. simpl.
      replace (Z.to_nat (maxAttempts - 1) - i)%nat with 0%nat by lia.
      reflexivity.
Qed.

Section WithRetryRuns.

Variables St A : Type.
Variable operation : M St A.
Variables (maxAttempts delay : Z).

(** After failures that leave attempts to spare, an attempt that does
    not throw gives the result of [withRetry]. *)
Lemma withRetry_recovers s failures s1 o s2 t :
  FailsTimes operation s failures s1 ->
  operation s1 = (o, s2, t) ->
  (forall error, o <> Throw error) ->
  Z.of_nat (List.length failures) < maxAttempts ->
  withRetry operation maxAttempts delay s =
  (o, s2, backoffTrace maxAttempts delay 0 failures ++ t).
Proof.
  intros HF Hop Ho Hlen. unfold withRetry.
  set (n := (Z.to_nat maxAttempts - List.length failures - 1)%nat).
  replace (Z.to_nat maxAttempts)
    with (List.length failures + S n)%nat by lia.
  destruct (withRetry_loop_failures St A operation maxAttempts delay
              failures 0 (S n) VUndefined s s1 HF) as [lastError' H].
  { simpl. lia. }
  simpl Z.of_nat in H. rewrite Z.pow_0_r, Z.mul_1_r in H.
  change (0 + 1) with 1 in H. rewrite H.
  rewrite (withRetry_loop_done St A operation maxAttempts n _ _ _ s1 o s2 t
             Hop Ho) by lia.
  reflexivity.
Qed.

(** When as many attempts fail as are allowed, [withRetry] throws the
    error of the last one. *)
Lemma withRetry_exhausted s failures s1 message t s2 :
  FailsTimes operation s failures s1 ->
  operation s1 = (Throw (VError message), s2, t) ->
  Z.of_nat (List.length failures) + 1 = maxAttempts ->
  withRetry operation maxAttempts delay s =
  (Throw (VError message), s2,
   backoffTrace maxAttempts delay 0 (failures ++ [(message, t)])).
Proof.
  intros HF Hop Hlen. unfold withRetry.
  replace (Z.to_nat maxAttempts)
    with (List.length failures + 1)%nat by lia.
  destruct (withRetry_loop_failures St A operation maxAttempts delay
              failures 0 1 VUndefined s s1 HF) as [lastError' H].
  { simpl. lia. }
  simpl Z.of_nat in H. rewrite Z.pow_0_r, Z.mul_1_r in H.
  change (0 + 1) with 1 in H. rewrite H. clear H.
  replace (Z.of_nat (List.length failures) + 1) with maxAttempts by lia.
  rewrite (withRetry_loop_last St A operation maxAttempts 0 _ _ s1 s2
             message t Hop).
  rewrite backoffTrace_app. simpl.
  assert (Hge : (Z.of_nat (List.length failures) + 1 <? maxAttempts) = false)
    by (apply Z.ltb_ge; lia).
  rewrite Hge. simpl. rewrite ?app_nil_r.
  replace (Z.of_nat (List.length failures) + 1) with maxAttempts by lia.
  reflexivity.
Qed.

(** With no attempt allowed, the operation is not run. *)
Lemma withRetry_no_attempt s :
  maxAttempts < 1 ->
  withRetry operation maxAttempts delay s = (Throw VUndefined, s, []).
Proof.
  intros H. unfold withRetry.
  replace (Z.to_nat maxAttempts) with 0%nat by lia. reflexivity.
Qed.

End WithRetryRuns.

Lemma spy_FailsTimes {St A} (operation : M St A) s failures s1 :
  FailsTimes operation s failures s1 ->
  forall c,
  FailsTimes (spy operation) (c, s) failures
    ((c + List.length failures)%nat, s1).
Proof.
  induction 1 as [s|s s1 s2 m t fs Hop HF IH]; intros c.
  - simpl. rewrite Nat.add_0_r. constructor.
  - simpl List.length.
    replace (c + S (List.length fs))%nat with (S c + List.length fs)%nat
      by lia.
    econstructor; [|apply IH].
    unfold spy. simpl. rewrite Hop. reflexivity.
Qed.

(** [withRetry] never runs the operation more often than allowed. *)
Lemma spy_withRetry_loop_bound {St A} (operation : M St A) maxAttempts :
  forall n attempt delay lastError c s o c' s' t,
  withRetry_loop (spy operation) maxAttempts n attempt delay lastError (c, s)
    = (o, (c', s'), t) ->
  (c <= c' <= c + n)%nat.
Proof.
  induction n as [|n IH]; intros attempt delay lastError c s o c' s' t H.
  - simpl in H. inversion H; subst. lia.
  - simpl in H. destruct (attempt <=? maxAttempts).
    2:{ inversion H; subst. lia. }
    unfold tryCatch in H.
    assert (Hspy : spy operation (c, s) =
                   match operation s with
                   | (o1, s1, t1) => (o1, (S c, s1), t1)
                   end) by reflexivity.
    rewrite Hspy in H. clear Hspy.
    destruct (operation s) as [[o1 s1] t1] eqn:Hop.
    destruct o1 as [a|error|].
    + inversion H; subst. lia.
    + destruct error as [|message];
        cbv [bind of_sum get_message throw ret console_error console_log
             sleep emit] in H.
      * inversion H; subst. lia.
      * destruct (attempt <? maxAttempts).
        -- destruct (withRetry_loop (spy operation) maxAttempts n
                       (attempt + 1) (delay * 2) (VError message) (S c, s1))
             as [[o2 [c2 s2]] t2] eqn:Hrec.
           inversion H; subst. apply IH in Hrec. lia.
        -- destruct (withRetry_loop (spy operation) maxAttempts n
                       (attempt + 1) delay (VError message) (S c, s1))
             as [[o2 [c2 s2]] t2] eqn:Hrec.
           inversion H; subst. apply IH in Hrec. lia.
    + inversion H; subst. lia.
Qed.

Ltac norm_trace :=
  repeat first [ rewrite <- app_assoc | rewrite app_nil_r
               | progress cbn [app] ].

Ltac backoff_small :=
  cbn [app backoffTrace List.length Nat.add];
  change (Z.of_nat 0) with 0; change (Z.of_nat 1) with 1;
  change (Z.of_nat 2) with 2;
  change (2 ^ 0) with 1; change (2 ^ 1) with 2;
  change (0 + 1) with 1; change (1 + 1) with 2; change (2 + 1) with 3;
  change (1 <? 3) with true; change (2 <? 3) with true;
  change (3 <? 3) with false; cbn iota;
  rewrite ?Z.mul_1_r; norm_trace.

(** C10: with [maxAttempts] below 1, [withRetry] does not run the
    operation (the count of its runs and its state are unchanged, nothing
    is logged or waited for) and throws [undefined], the initial value of
    [lastError]. *)
Theorem withRetry_without_attempts :
  forall (St A : Type) (operation : M St A) (maxAttempts delay : Z)
         (runs : nat) (s : St),
  maxAttempts < 1 ->
  withRetry (spy operation) maxAttempts delay (runs, s) =
  (Throw VUndefined, (runs, s), []).
Proof.
  intros. apply withRetry_no_attempt. assumption.
Qed.

Lemma withRetry_without_attempts_witness :
  0 < 1 /\
  withRetry (spy (failsFirst 0 "never" "ok")) 0 1000 (0%nat, 0%nat) =
  (Throw VUndefined, (0%nat, 0%nat), []).
Proof.
  split; [lia | apply withRetry_without_attempts; lia].
Defined.

(** C5: with [maxAttempts = 3], an operation that fails twice and then
    succeeds is run exactly 3 times and its value is returned; an
    operation whose first three runs fail is run exactly 3 times and the
    error of the last run is thrown; and for every [maxAttempts] the
    operation is run at most [maxAttempts] times. *)
Theorem withRetry_three_attempts :
  (forall (St A : Type) (operation : M St A) (delay : Z)
          (s0 s1 s2 s3 : St) (m1 m2 : string) (a : A)
          (t1 t2 t3 : list Event),
     operation s0 = (Throw (VError m1), s1, t1) ->
     operation s1 = (Throw (VError m2), s2, t2) ->
     operation s2 = (Return a, s3, t3) ->
     withRetry (spy operation) 3 delay (0%nat, s0) =
     (Return a, (3%nat, s3),
      t1 ++ [ConsoleError (AttemptFailed 1 3 m1);
             ConsoleLog (WaitingBeforeRetry delay); SetTimeout delay]
         ++ t2 ++ [ConsoleError (AttemptFailed 2 3 m2);
                   ConsoleLog (WaitingBeforeRetry (delay * 2));
                   SetTimeout (delay * 2)]
         ++ t3)) /\
  (forall (St A : Type) (operation : M St A) (delay : Z)
          (s0 s1 s2 s3 : St) (m1 m2 m3 : string)
          (t1 t2 t3 : list Event),
     operation s0 = (Throw (VError m1), s1, t1) ->
     operation s1 = (Throw (VError m2), s2, t2) ->
     operation s2 = (Throw (VError m3), s3, t3) ->
     withRetry (spy operation) 3 delay (0%nat, s0) =
     (Throw (VError m3), (3%nat, s3),
      t1 ++ [ConsoleError (AttemptFailed 1 3 m1);
             ConsoleLog (WaitingBeforeRetry delay); SetTimeout delay]
         ++ t2 ++ [ConsoleError (AttemptFailed 2 3 m2);
                   ConsoleLog (WaitingBeforeRetry (delay * 2));
                   SetTimeout (delay * 2)]
         ++ t3 ++ [ConsoleError (AttemptFailed 3 3 m3)])) /\
  (forall (St A : Type) (operation : M St A) (maxAttempts delay : Z)
          (runs : nat) (s : St) o (runs' : nat) (s' : St) t,
     withRetry (spy operation) maxAttempts delay (runs, s)
       = (o, (runs', s'), t) ->
     (runs <= runs' <= runs + Z.to_nat maxAttempts)%nat).
Proof.
  split; [|split].
  - intros St A operation delay s0 s1 s2 s3 m1 m2 a t1 t2 t3 H1 H2 H3.
    assert (HF : FailsTimes operation s0 [(m1, t1); (m2, t2)] s2).
    { econstructor; [exact H1|]. econstructor; [exact H2|]. constructor. }
    apply spy_FailsTimes with (c := 0%nat) in HF.
    rewrite (withRetry_recovers _ _ (spy operation) 3 delay _ _ _
               (Return a) (3%nat, s3) t3 HF).
    + backoff_small. reflexivity.
    + unfold spy. simpl. rewrite H3. reflexivity.
    + discriminate.
    + simpl. lia.
  - intros St A operation delay s0 s1 s2 s3 m1 m2 m3 t1 t2 t3 H1 H2 H3.
    assert (HF : FailsTimes operation s0 [(m1, t1); (m2, t2)] s2).
    { econstructor; [exact H1|]. econstructor; [exact H2|]. constructor. }
    apply spy_FailsTimes with (c := 0%nat) in HF.
    rewrite (withRetry_exhausted _ _ (spy operation) 3 delay _ _ _
               m3 t3 (3%nat, s3) HF).
    + backoff_small. reflexivity.
    + unfold spy. simpl. rewrite H3. reflexivity.
    + reflexivity.
  - intros St A operation maxAttempts delay runs s o runs' s' t H.
    unfold withRetry in H.
    eapply spy_withRetry_loop_bound. exact H.
Qed.

Lemma withRetry_three_attempts_witness :
  withRetry (spy (failsFirst 2 "timeout" "ok")) 3 1000 (0%nat, 0%nat) =
  (Return "ok", (3%nat, 3%nat),
   [ConsoleError (AttemptFailed 1 3 "timeout");
    ConsoleLog (WaitingBeforeRetry 1000); SetTimeout 1000;
    ConsoleError (AttemptFailed 2 3 "timeout");
    ConsoleLog (WaitingBeforeRetry 2000); SetTimeout 2000]) /\
  withRetry (spy (alwaysFails "timeout")) 3 1000 (0%nat, 0%nat) =
  (Throw (VError "timeout"), (3%nat, 3%nat),
   [ConsoleError (AttemptFailed 1 3 "timeout");
    ConsoleLog (WaitingBeforeRetry 1000); SetTimeout 1000;
    ConsoleError (AttemptFailed 2 3 "timeout");
    ConsoleLog (WaitingBeforeRetry 2000); SetTimeout 2000;
    ConsoleError (AttemptFailed 3 3 "timeout")]).
Proof.
  destruct withRetry_three_attempts as [Hrecover [Hexhaust _]].
  split.
  - apply (Hrecover nat string (failsFirst 2 "timeout" "ok") 1000
             0%nat 1%nat 2%nat 3%nat "timeout" "timeout" "ok" [] [] []);
      reflexivity.
  - apply (Hexhaust nat string (alwaysFails "timeout") 1000
             0%nat 1%nat 2%nat 3%nat "timeout" "timeout" "timeout"
             [] [] []);
      reflexivity.
Defined.

Lemma FailsTimes_snoc_inv {St A} (operation : M St A) failures :
  forall s message t s2,
  FailsTimes operation s (failures ++ [(message, t)]) s2 ->
  exists s1, FailsTimes operation s failures s1 /\
             operation s1 = (Throw (VError message), s2, t).
Proof.
  induction failures as [|[m' t'] failures IH]; intros s message t s2 H.
  - simpl in H. inversion H as [|? ? ? ? ? ? Hop HF]; subst.
    inversion HF; subst. exists s. split; [constructor | exact Hop].
  - simpl in H. inversion H as [|? ? ? ? ? ? Hop HF]; subst.
    destruct (IH _ _ _ _ HF) as [s1' [HF' Hop']].
    exists s1'. split; [|exact Hop'].
    econstructor; [exact Hop | exact HF'].
Qed.

(** C6: after each failed attempt but the last one allowed, [withRetry]
    waits before it retries, and doubles the delay: the wait before the
    [k]-th retry is [delay * 2 ^ (k - 1)].  Stated for a run of failed
    attempts followed by an attempt that does not fail, and for a run of
    failed attempts that exhausts [maxAttempts]; the list of waits is
    that of an operation that does not wait itself. *)
Theorem withRetry_exponential_backoff :
  forall (St A : Type) (operation : M St A) (maxAttempts delay : Z)
         (s s1 : St) (failures : list (string * list Event)),
  FailsTimes operation s failures s1 ->
  (forall o s2 t,
     operation s1 = (o, s2, t) ->
     (forall error, o <> Throw error) ->
     Z.of_nat (List.length failures) < maxAttempts ->
     withRetry operation maxAttempts delay s =
       (o, s2, backoffTrace maxAttempts delay 0 failures ++ t) /\
     (Forall (fun f => waits (snd f) = []) failures ->
      waits (backoffTrace maxAttempts delay 0 failures) =
      map (fun k => delay * 2 ^ (Z.of_nat k - 1))
          (seq 1 (List.length failures)))) /\
  (Z.of_nat (List.length failures) = maxAttempts ->
   failures <> [] ->
   withRetry operation maxAttempts delay s =
     (Throw (VError (fst (last failures ("", [])))), s1,
      backoffTrace maxAttempts delay 0 failures) /\
   (Forall (fun f => waits (snd f) = []) failures ->
    waits (backoffTrace maxAttempts delay 0 failures) =
    map (fun k => delay * 2 ^ (Z.of_nat k - 1))
        (seq 1 (List.length failures - 1)))).
Proof.
  intros St A operation maxAttempts delay s s1 failures HF. split.
  - intros o s2 t Hop Ho Hlen. split.
    + eapply withRetry_recovers; eassumption.
    + intros Hsilent.
      rewrite (waits_backoffTrace maxAttempts delay failures Hsilent 0)
        by (simpl; lia).
      f_equal. f_equal. lia.
  - intros Hlen Hne. split.
    + destruct (exists_last Hne) as [failures' [[message t] Heq]].
      subst failures. rewrite last_last. simpl fst.
      apply FailsTimes_snoc_inv in HF. destruct HF as [s0 [HF Hop]].
      rewrite length_app in Hlen. simpl in Hlen.
      eapply withRetry_exhausted; try eassumption. lia.
    + intros Hsilent.
      rewrite (waits_backoffTrace maxAttempts delay failures Hsilent 0)
        by (simpl; lia).
      f_equal. f_equal. lia.
Qed.

Lemma withRetry_exponential_backoff_witness :
  withRetry (failsFirst 3 "timeout" "ok") 5 1000 0%nat =
  (Return "ok", 4%nat,
   [ConsoleError (AttemptFailed 1 5 "timeout");
    ConsoleLog (WaitingBeforeRetry 1000); SetTimeout 1000;
    ConsoleError (AttemptFailed 2 5 "timeout");
    ConsoleLog (WaitingBeforeRetry 2000); SetTimeout 2000;
    ConsoleError (AttemptFailed 3 5 "timeout");
    ConsoleLog (WaitingBeforeRetry 4000); SetTimeout 4000]) /\
  waits (snd (withRetry (alwaysFails "timeout") 3 1000 0%nat)) =
  [1000; 2000].
Proof.
  assert (HF : FailsTimes (failsFirst 3 "timeout" "ok") 0%nat
                 [("timeout", []); ("timeout", []); ("timeout", [])] 3%nat).
  { repeat (econstructor; [reflexivity|]). constructor. }
  assert (HG : FailsTimes (alwaysFails "timeout") 0%nat
                 [("timeout", []); ("timeout", []); ("timeout", [])] 3%nat).
  { repeat (econstructor; [reflexivity|]). constructor. }
  split.
  - destruct (withRetry_exponential_backoff nat string
                (failsFirst 3 "timeout" "ok") 5 1000 0%nat 3%nat _ HF)
      as [Hrecover _].
    destruct (Hrecover (Return "ok") 4%nat []) as [Hrun _].
    + reflexivity.
    + discriminate.
    + simpl. lia.
    + exact Hrun.
  - destruct (withRetry_exponential_backoff nat string
                (alwaysFails "timeout") 3 1000 0%nat 3%nat _ HG)
      as [_ Hexhaust].
    destruct Hexhaust as [Hrun Hwaits].
    + reflexivity.
    + discriminate.
    + rewrite Hrun. cbn [snd]. rewrite Hwaits.
      * reflexivity.
      * repeat constructor.
Defined.

(** An operation that does not throw at the first attempt. *)
Lemma withRetry_first_try {St A} (operation : M St A) maxAttempts delay
    s o s1 t :
  operation s = (o, s1, t) ->
  (forall error, o <> Throw error) ->
  1 <= maxAttempts ->
  withRetry operation maxAttempts delay s = (o, s1, t).
Proof.
  intros Hop Ho Hle.
  rewrite (withRetry_recovers St A operation maxAttempts delay s [] s o s1 t).
  - reflexivity.
  - constructor.
  - exact Hop.
  - exact Ho.
  - simpl. lia.
Qed.

Lemma Return_not_Throw {A} (a : A) : forall error, Return a <> Throw error.
Proof. discriminate. Qed.

(** ** Pagination of the signature history *)

Lemma cursorAfter_snoc batch info :
  cursorAfter (batch ++ [info]) = Some (signature info).
Proof.
  unfold cursorAfter, len. rewrite length_app. simpl.
  replace (0 <? Z.of_nat (List.length batch + 1)) with true
    by (symmetry; apply Z.ltb_lt; lia).
  replace (List.length batch + 1 - 1)%nat with (List.length batch) by lia.
  rewrite nth_error_app2 by lia. rewrite Nat.sub_diag. reflexivity.
Qed.

Section Pagination.

Variable PublicKey_new : string -> string + PublicKey.
Variable W : Type.
Variable connection : Connection W.
Variable publicKey : PublicKey.
Variable commitment : string.

Lemma loop_Paged cursor w batches w' :
  Paged connection publicKey commitment cursor w batches w' ->
  forall fuel signatures,
  (List.length batches <= fuel)%nat ->
  getSignaturesForAddress_loop connection fuel publicKey commitment
    signatures cursor w =
  (Return (signatures ++ List.concat batches), w',
   map Rpc (pageRequests publicKey commitment cursor batches)).
Proof.
  induction 1 as [cursor w w' batch Hcall Hlen
                 |cursor w w' w'' batch batches Hcall Hlen HP IH];
    intros fuel signatures Hfuel.
  - destruct fuel as [|fuel]; [simpl in Hfuel; lia|].
    simpl. unfold bind, rpc. unfold pageOptions in Hcall. rewrite Hcall.
    apply Z.eqb_neq in Hlen. rewrite Hlen. simpl.
    rewrite app_nil_r. reflexivity.
  - destruct fuel as [|fuel]; [simpl in Hfuel; lia|].
    simpl in Hfuel.
    simpl. unfold bind at 1, rpc. unfold pageOptions in Hcall. rewrite Hcall.
    assert (Hfull : (len batch =? 1000) = true) by (apply Z.eqb_eq; exact Hlen).
    rewrite Hfull.
    change (if 0 <? len batch
            then option_map signature
                   (nth_error batch (List.length batch - 1))
            else None) with (cursorAfter batch).
    rewrite IH by lia. simpl. rewrite <- app_assoc. reflexivity.
Qed.

Lemma pageRequests_length cursor batches :
  List.length (pageRequests publicKey commitment cursor batches)
  = List.length batches.
Proof.
  revert cursor. induction batches as [|b bs IH]; intros cursor; simpl.
  - reflexivity.
  - rewrite IH. reflexivity.
Qed.

Lemma requests_map_Rpc rs : requests (map Rpc rs) = rs.
Proof. induction rs as [|r rs IH]; simpl; [|rewrite IH]; reflexivity. Qed.

Lemma announced_map_Rpc rs : announced (map Rpc rs) = [].
Proof. induction rs as [|r rs IH]; simpl; [reflexivity | exact IH]. Qed.

(** The function with [withRetry]. *)
Lemma getSignaturesForAddress_Paged address w batches w' fuel :
  PublicKey_new address = inr publicKey ->
  Paged connection publicKey commitment None w batches w' ->
  (List.length batches <= fuel)%nat ->
  getSignaturesForAddress PublicKey_new connection fuel address commitment w =
  (Return {| signatures := List.concat batches |}, w',
   map Rpc (pageRequests publicKey commitment None batches)).
Proof.
  intros Hkey HP Hfuel. unfold getSignaturesForAddress, withRetry_default.
  apply withRetry_first_try; [|apply Return_not_Throw|lia].
  unfold bind at 1, new_PublicKey. rewrite Hkey. simpl.
  unfold bind at 1. rewrite (loop_Paged None w batches w' HP fuel [] Hfuel).
  simpl. rewrite app_nil_r. reflexivity.
Qed.

(** The function of [index.js]. *)
Lemma IndexJs_getSignaturesForAddress_Paged address w batches w' fuel :
  PublicKey_new address = inr publicKey ->
  Paged connection publicKey commitment None w batches w' ->
  (List.length batches <= fuel)%nat ->
  IndexJs.getSignaturesForAddress PublicKey_new connection fuel address
    commitment w =
  (Return {| signatures := List.concat batches |}, w',
   map Rpc (pageRequests publicKey commitment None batches)).
Proof.
  intros Hkey HP Hfuel. unfold IndexJs.getSignaturesForAddress.
  unfold bind at 1, new_PublicKey. rewrite Hkey. simpl.
  unfold bind at 1. rewrite (loop_Paged None w batches w' HP fuel [] Hfuel).
  simpl. rewrite app_nil_r. reflexivity.
Qed.

(** A small batch among the answers bounds the pages of the run. *)
Lemma nthResponse_Paged n :
  forall cursor w batch w',
  nthResponse connection publicKey commitment n cursor w
    = (Return batch, w') ->
  len batch <> 1000 ->
  exists batches,
    Paged connection publicKey commitment cursor w batches w' /\
    (List.length batches <= S n)%nat.
Proof.
  induction n as [|n IH]; intros cursor w batch w' Hn Hsmall.
  - simpl in Hn. exists [batch]. split; [|simpl; lia].
    apply Paged_last; assumption.
  - simpl in Hn.
    destruct (connection_getSignaturesForAddress connection publicKey
                (pageOptions cursor commitment) w) as [o w1] eqn:Hcall.
    destruct o as [b| |]; try discriminate.
    destruct (len b =? 1000) eqn:Hfull.
    + apply Z.eqb_eq in Hfull.
      destruct (IH _ _ _ _ Hn Hsmall) as [batches [HP Hlen]].
      exists (b :: batches). split; [|simpl; lia].
      eapply Paged_more; eassumption.
    + inversion Hn; subst. exists [batch]. split; [|simpl; lia].
      apply Paged_last; assumption.
Qed.

End Pagination.

(** C4: [getSignaturesForAddress] requests pages with [limit = 1000],
    the first without cursor and each next one with the signature of
    the last (oldest) record of the batch before as [before]; it goes on
    as long as batches have 1000 records, stops at the first batch of
    another size and returns the batches concatenated in the order
    fetched, with one request per batch (for the function with
    [withRetry] and for that of [index.js]).  A source answering with
    1000, 1000 and 200 records gives 2200 records in exactly 3 requests;
    one answering with 1000 and 0 records gives 1000 records in exactly
    2 requests. *)
Theorem getSignaturesForAddress_pagination :
  (forall batch info, cursorAfter (batch ++ [info]) = Some (signature info)) /\
  (forall PublicKey_new (W : Type) (connection : Connection W)
          publicKey commitment address w batches w' fuel,
     PublicKey_new address = inr publicKey ->
     Paged connection publicKey commitment None w batches w' ->
     (List.length batches <= fuel)%nat ->
     getSignaturesForAddress PublicKey_new connection fuel address
       commitment w =
       (Return {| signatures := List.concat batches |}, w',
        map Rpc (pageRequests publicKey commitment None batches)) /\
     IndexJs.getSignaturesForAddress PublicKey_new connection fuel address
       commitment w =
       (Return {| signatures := List.concat batches |}, w',
        map Rpc (pageRequests publicKey commitment None batches)) /\
     List.length (pageRequests publicKey commitment None batches)
       = List.length batches) /\
  (forall PublicKey_new publicKey commitment address batches fuel,
     PublicKey_new address = inr publicKey ->
     len (batches 0%nat) = 1000 ->
     len (batches 1%nat) = 1000 ->
     len (batches 2%nat) = 200 ->
     (3 <= fuel)%nat ->
     getSignaturesForAddress PublicKey_new (scriptedSource batches) fuel
       address commitment 0%nat =
       (Return {| signatures :=
                    batches 0%nat ++ batches 1%nat ++ batches 2%nat |},
        3%nat,
        [Rpc (ReqGetSignaturesForAddress publicKey
                (pageOptions None commitment));
         Rpc (ReqGetSignaturesForAddress publicKey
                (pageOptions (cursorAfter (batches 0%nat)) commitment));
         Rpc (ReqGetSignaturesForAddress publicKey
                (pageOptions (cursorAfter (batches 1%nat)) commitment))]) /\
     len (batches 0%nat ++ batches 1%nat ++ batches 2%nat) = 2200) /\
  (forall PublicKey_new publicKey commitment address batches fuel,
     PublicKey_new address = inr publicKey ->
     len (batches 0%nat) = 1000 ->
     len (batches 1%nat) = 0 ->
     (2 <= fuel)%nat ->
     getSignaturesForAddress PublicKey_new (scriptedSource batches) fuel
       address commitment 0%nat =
       (Return {| signatures := batches 0%nat ++ batches 1%nat |},
        2%nat,
        [Rpc (ReqGetSignaturesForAddress publicKey
                (pageOptions None commitment));
         Rpc (ReqGetSignaturesForAddress publicKey
                (pageOptions (cursorAfter (batches 0%nat)) commitment))]) /\
     len (batches 0%nat ++ batches 1%nat) = 1000).
Proof.
  split; [exact cursorAfter_snoc|]. split; [|split].
  - intros PublicKey_new W connection publicKey commitment address w batches
      w' fuel Hkey HP Hfuel.
    split; [|split].
    + eapply getSignaturesForAddress_Paged; eassumption.
    + eapply IndexJs_getSignaturesForAddress_Paged; eassumption.
    + apply pageRequests_length.
  - intros PublicKey_new publicKey commitment address batches fuel Hkey
      H0 H1 H2 Hfuel.
    split.
    + rewrite (getSignaturesForAddress_Paged PublicKey_new nat
                 (scriptedSource batches) publicKey commitment address
                 0%nat [batches 0%nat; batches 1%nat; batches 2%nat] 3%nat
                 fuel Hkey).
      * simpl. rewrite app_nil_r. reflexivity.
      * eapply Paged_more; [reflexivity | exact H0 |].
        eapply Paged_more; [reflexivity | exact H1 |].
        eapply Paged_last; [reflexivity | lia].
      * simpl. exact Hfuel.
    + unfold len in *. rewrite !length_app. lia.
  - intros PublicKey_new publicKey commitment address batches fuel Hkey
      H0 H1 Hfuel.
    split.
    + rewrite (getSignaturesForAddress_Paged PublicKey_new nat
                 (scriptedSource batches) publicKey commitment address
                 0%nat [batches 0%nat; batches 1%nat] 2%nat
                 fuel Hkey).
      * simpl. rewrite app_nil_r. reflexivity.
      * eapply Paged_more; [reflexivity | exact H0 |].
        eapply Paged_last; [reflexivity | lia].
      * simpl. exact Hfuel.
    + unfold len in *. rewrite !length_app. lia.
Qed.

Lemma getSignaturesForAddress_pagination_witness :
  (let batches := scriptOf [mkHistory 0 1000; mkHistory 1000 1000;
                            mkHistory 2000 200] in
   fst (getSignaturesForAddress test_PublicKey_new (scriptedSource batches)
          3 "A" "confirmed" 0%nat) =
     (Return {| signatures := mkHistory 0 2200 |}, 3%nat) /\
   len (mkHistory 0 2200) = 2200) /\
  (let batches := scriptOf [mkHistory 0 1000; []] in
   fst (getSignaturesForAddress test_PublicKey_new (scriptedSource batches)
          2 "A" "confirmed" 0%nat) =
     (Return {| signatures := mkHistory 0 1000 |}, 2%nat)).
Proof.
  destruct getSignaturesForAddress_pagination as [_ [_ [H3 H2]]].
  split.
  - intros batches.
    destruct (H3 test_PublicKey_new {| toBase58 := "A" |} "confirmed" "A"
                batches 3%nat eq_refl
                ltac:(vm_compute; reflexivity) ltac:(vm_compute; reflexivity)
                ltac:(vm_compute; reflexivity) (le_n 3)) as [Hrun Hlen].
    rewrite Hrun. split; vm_compute; reflexivity.
  - intros batches.
    destruct (H2 test_PublicKey_new {| toBase58 := "A" |} "confirmed" "A"
                batches 2%nat eq_refl
                ltac:(vm_compute; reflexivity) ltac:(vm_compute; reflexivity)
                (le_n 2)) as [Hrun Hlen].
    rewrite Hrun. vm_compute; reflexivity.
Defined.

(** ** The ledger that does not change *)

Lemma olderThan_unique a x b :
  NoDup (map signature (a ++ x :: b)) ->
  olderThan (signature x) (a ++ x :: b) = b.
Proof.
  induction a as [|y a IH]; intros Hnd; simpl.
  - rewrite String.eqb_refl. reflexivity.
  - simpl in Hnd. inversion Hnd as [|? ? Hnotin Hnd']; subst.
    destruct (String.eqb_spec (signature y) (signature x)) as [Heq|Hneq].
    + exfalso. apply Hnotin. rewrite Heq.
      rewrite map_app. apply in_or_app. right. simpl. left. reflexivity.
    + apply IH. exact Hnd'.
Qed.

Section StaticLedger.

Variable PublicKey_new : string -> string + PublicKey.
Variable L : Ledger.
Variable down : Request -> option string.
Variable publicKey : PublicKey.
Variable commitment : string.

(** The signature requests for the key are answered. *)
Hypothesis Hup :
  forall options, down (ReqGetSignaturesForAddress publicKey options) = None.

Let connection := withOutage down (ledgerConnection L).
Let history := ledger_history L publicKey.
Let remaining := remainingAfter history.

Lemma ledger_call cursor rest :
  remaining cursor = rest ->
  connection_getSignaturesForAddress connection publicKey
    (pageOptions cursor commitment) tt
  = (Return (firstn 1000 rest), tt).
Proof.
  intros Hrem.
  unfold connection, withOutage, ledgerConnection, pageOptions, page.
  cbn [connection_getSignaturesForAddress before limit].
  rewrite Hup.
  change (Z.to_nat 1000) with 1000%nat.
  fold history. fold remaining. rewrite Hrem. reflexivity.
Qed.

Lemma ledger_Paged :
  NoDup (map signature history) ->
  forall n rest pre cursor,
  (List.length rest <= n)%nat ->
  history = pre ++ rest ->
  remaining cursor = rest ->
  exists batches,
    Paged connection publicKey commitment cursor tt batches tt /\
    List.concat batches = rest /\
    List.length batches = (List.length rest / 1000 + 1)%nat.
Proof.
  intros Hnd.
  induction n as [|n IH]; intros rest pre cursor Hlen Hsplit Hrem.
  - destruct rest; [|cbn [List.length] in Hlen; lia].
    exists [[]]. split; [|split; reflexivity].
    apply Paged_last; [|discriminate].
    rewrite (ledger_call cursor [] Hrem). rewrite firstn_nil. reflexivity.
  - pose proof (ledger_call cursor rest Hrem) as Hcall.
    destruct (Nat.lt_ge_cases (List.length rest) 1000) as [Hsmall|Hbig].
    + exists [rest]. split; [|split].
      * apply Paged_last.
        -- rewrite Hcall. rewrite firstn_all2 by lia. reflexivity.
        -- unfold len. lia.
      * cbn [List.concat]. apply app_nil_r.
      * rewrite Nat.div_small by lia. reflexivity.
    + assert (Hblen : List.length (firstn 1000 rest) = 1000%nat)
        by (apply firstn_length_le; exact Hbig).
      assert (Hne : firstn 1000 rest <> []).
      { intros Hnil. rewrite Hnil in Hblen. discriminate. }
      destruct (exists_last Hne) as [b0 [x Hb]].
      assert (Hrest : rest = (b0 ++ [x]) ++ skipn 1000 rest).
      { rewrite <- Hb. symmetry. apply firstn_skipn. }
      assert (Hcur : cursorAfter (firstn 1000 rest) = Some (signature x)).
      { rewrite Hb. apply cursorAfter_snoc. }
      assert (Hold : remaining (Some (signature x)) = skipn 1000 rest).
      { assert (Hh : history = (pre ++ b0) ++ x :: skipn 1000 rest).
        { rewrite Hsplit. rewrite Hrest at 1. rewrite <- !app_assoc.
          reflexivity. }
        unfold remaining, remainingAfter. rewrite Hh.
        apply olderThan_unique. rewrite <- Hh. exact Hnd. }
      destruct (IH (skipn 1000 rest) (pre ++ firstn 1000 rest)
                  (Some (signature x))) as [batches [HP [Hcat Hcount]]].
      * rewrite length_skipn. lia.
      * rewrite <- app_assoc. rewrite firstn_skipn. exact Hsplit.
      * exact Hold.
      * exists (firstn 1000 rest :: batches). split; [|split].
        -- eapply Paged_more.
           ++ exact Hcall.
           ++ unfold len. rewrite Hblen. reflexivity.
           ++ rewrite Hcur. exact HP.
        -- cbn [List.concat]. rewrite Hcat. apply firstn_skipn.
        -- cbn [List.length]. rewrite Hcount. rewrite length_skipn.
           replace (List.length rest)
             with (List.length rest - 1000 + 1 * 1000)%nat at 2 by lia.
           rewrite Nat.div_add by discriminate. lia.
Qed.

(** The loop fetches the whole history of a key, in
    [length / 1000 + 1] requests. *)
Lemma ledger_pages :
  NoDup (map signature history) ->
  exists batches,
    Paged connection publicKey commitment None tt batches tt /\
    List.concat batches = history /\
    List.length batches = (List.length history / 1000 + 1)%nat.
Proof.
  intros Hnd.
  apply (ledger_Paged Hnd (List.length history) history [] None).
  - apply Nat.le_refl.
  - reflexivity.
  - reflexivity.
Qed.

Lemma ledger_getSignaturesForAddress address fuel :
  PublicKey_new address = inr publicKey ->
  NoDup (map signature history) ->
  (List.length history / 1000 < fuel)%nat ->
  exists t,
    getSignaturesForAddress PublicKey_new connection fuel address
      commitment tt = (Return {| signatures := history |}, tt, t) /\
    List.length (requests t) = (List.length history / 1000 + 1)%nat /\
    announced t = [].
Proof.
  intros Hkey Hnd Hfuel.
  destruct (ledger_pages Hnd) as [batches [HP [Hcat Hcount]]].
  exists (map Rpc (pageRequests publicKey commitment None batches)).
  split; [|split].
  - rewrite <- Hcat. eapply getSignaturesForAddress_Paged; try eassumption.
    lia.
  - rewrite requests_map_Rpc, pageRequests_length. exact Hcount.
  - apply announced_map_Rpc.
Qed.

End StaticLedger.

Lemma distinctb_NoDup l : distinctb l = true -> NoDup l.
Proof.
  induction l as [|x l IH]; intros H.
  - constructor.
  - simpl in H. apply andb_prop in H. destruct H as [Hx Hl].
    constructor.
    + intros Hin. apply negb_true_iff in Hx.
      assert (existsb (String.eqb x) l = true) as Hex.
      { apply existsb_exists. exists x. split; [exact Hin|].
        apply String.eqb_refl. }
      congruence.
    + apply IH. exact Hl.
Qed.

(** C9: when the source, paged through by the loop, answers some request
    with fewer than 1000 records, the pagination loop ends: with fuel for
    that many iterations or more it returns, and so does
    [getSignaturesForAddress] (with [withRetry], and in [index.js]).  On
    a ledger that does not change, a history of exactly [1000 * k]
    records (distinct signatures) is returned whole after [k + 1]
    requests, the last of which finds no record. *)
Theorem pagination_terminates :
  (forall PublicKey_new (W : Type) (connection : Connection W)
          publicKey commitment address w n batch w',
     PublicKey_new address = inr publicKey ->
     nthResponse connection publicKey commitment n None w
       = (Return batch, w') ->
     len batch < 1000 ->
     exists result t,
     forall fuel, (n < fuel)%nat ->
       getSignaturesForAddress_loop connection fuel publicKey commitment
         [] None w = (Return result, w', t) /\
       getSignaturesForAddress PublicKey_new connection fuel address
         commitment w = (Return {| signatures := result |}, w', t) /\
       IndexJs.getSignaturesForAddress PublicKey_new connection fuel address
         commitment w = (Return {| signatures := result |}, w', t)) /\
  (forall PublicKey_new (L : Ledger) publicKey commitment address (k : nat),
     PublicKey_new address = inr publicKey ->
     NoDup (map signature (ledger_history L publicKey)) ->
     List.length (ledger_history L publicKey) = (k * 1000)%nat ->
     forall fuel, (k < fuel)%nat ->
     exists t,
       getSignaturesForAddress PublicKey_new (ledgerConnection L) fuel
         address commitment tt =
         (Return {| signatures := ledger_history L publicKey |}, tt, t) /\
       List.length (requests t) = S k /\
       nthResponse (ledgerConnection L) publicKey commitment k None tt
         = (Return [], tt)).
Proof.
  split.
  - intros PublicKey_new W connection publicKey commitment address w n batch
      w' Hkey Hn Hsmall.
    destruct (nthResponse_Paged W connection publicKey commitment n None w
                batch w' Hn) as [batches [HP Hlen]]; [lia|].
    exists (List.concat batches),
           (map Rpc (pageRequests publicKey commitment None batches)).
    intros fuel Hfuel. split; [|split].
    + rewrite (loop_Paged W connection publicKey commitment None w batches
                 w' HP fuel []) by lia.
      reflexivity.
    + eapply getSignaturesForAddress_Paged; try eassumption. lia.
    + eapply IndexJs_getSignaturesForAddress_Paged; try eassumption. lia.
  - intros PublicKey_new L publicKey commitment address k Hkey Hnd Hlen
      fuel Hfuel.
    assert (Hdiv : (List.length (ledger_history L publicKey) / 1000 = k)%nat).
    { rewrite Hlen. apply Nat.div_mul. discriminate. }
    destruct (ledger_getSignaturesForAddress PublicKey_new L (fun _ => None)
                publicKey commitment (fun _ => eq_refl) address fuel Hkey
                Hnd) as [t [Hrun [Hreq _]]].
    { rewrite Hdiv. exact Hfuel. }
    exists t. split; [exact Hrun|]. split; [rewrite Hreq, Hdiv; lia|].
    clear Hrun Hreq t Hfuel fuel Hdiv.
    assert (Hgen : forall j rest pre cursor,
               ledger_history L publicKey = pre ++ rest ->
               remainingAfter (ledger_history L publicKey) cursor = rest ->
               List.length rest = (j * 1000)%nat ->
               nthResponse (ledgerConnection L) publicKey commitment j cursor
                 tt = (Return [], tt)).
    { induction j as [|j IH]; intros rest pre cursor Hsplit Hrem Hl.
      - destruct rest; [|discriminate].
        cbn [nthResponse].
        change (ledgerConnection L)
          with (withOutage (fun _ => None) (ledgerConnection L)).
        rewrite (ledger_call L (fun _ => None) publicKey commitment
                   (fun _ => eq_refl) cursor [] Hrem).
        rewrite firstn_nil. reflexivity.
      - cbn [nthResponse].
        change (ledgerConnection L)
          with (withOutage (fun _ => None) (ledgerConnection L)).
        rewrite (ledger_call L (fun _ => None) publicKey commitment
                   (fun _ => eq_refl) cursor rest Hrem).
        change (withOutage (fun _ => None) (ledgerConnection L))
          with (ledgerConnection L).
        assert (Hblen : List.length (firstn 1000 rest) = 1000%nat)
          by (apply firstn_length_le; lia).
        assert (Hfull : (len (firstn 1000 rest) =? 1000) = true).
        { unfold len. rewrite Hblen. reflexivity. }
        rewrite Hfull.
        assert (Hne : firstn 1000 rest <> []).
        { intros Hnil. rewrite Hnil in Hblen. discriminate. }
        destruct (exists_last Hne) as [b0 [x Hb]].
        assert (Hrest : rest = (b0 ++ [x]) ++ skipn 1000 rest).
        { rewrite <- Hb. symmetry. apply firstn_skipn. }
        rewrite Hb at 1. rewrite cursorAfter_snoc.
        apply (IH (skipn 1000 rest) (pre ++ firstn 1000 rest)).
        + rewrite <- app_assoc. rewrite firstn_skipn. exact Hsplit.
        + assert (Hh : ledger_history L publicKey
                       = (pre ++ b0) ++ x :: skipn 1000 rest).
          { rewrite Hsplit. rewrite Hrest at 1. rewrite <- !app_assoc.
            reflexivity. }
          unfold remainingAfter. rewrite Hh.
          apply olderThan_unique. rewrite <- Hh. exact Hnd.
        + rewrite length_skipn. lia. }
    apply (Hgen k (ledger_history L publicKey) [] None).
    + reflexivity.
    + reflexivity.
    + exact Hlen.
Qed.

Lemma pagination_terminates_witness :
  (nthResponse (ledgerConnection (ledgerOfHistory (mkHistory 0 2000)))
     {| toBase58 := "A" |} "confirmed" 2 None tt = (Return [], tt) /\
   exists result t,
     getSignaturesForAddress test_PublicKey_new
       (ledgerConnection (ledgerOfHistory (mkHistory 0 2000))) 3 "A"
       "confirmed" tt
     = (Return {| signatures := result |}, tt, t)) /\
  exists t,
    getSignaturesForAddress test_PublicKey_new
      (ledgerConnection (ledgerOfHistory (mkHistory 0 1000))) 2 "A"
      "confirmed" tt
    = (Return {| signatures := mkHistory 0 1000 |}, tt, t) /\
    List.length (requests t) = 2%nat.
Proof.
  destruct pagination_terminates as [Hgeneral Hledger].
  split.
  - split; [vm_compute; reflexivity|].
    destruct (Hgeneral test_PublicKey_new unit
                (ledgerConnection (ledgerOfHistory (mkHistory 0 2000)))
                {| toBase58 := "A" |} "confirmed" "A" tt 2%nat [] tt
                eq_refl ltac:(vm_compute; reflexivity) ltac:(reflexivity))
      as [result [t Hruns]].
    destruct (Hruns 3%nat (le_n 3)) as [_ [Hrun _]].
    exists result, t. exact Hrun.
  - destruct (Hledger test_PublicKey_new (ledgerOfHistory (mkHistory 0 1000))
                {| toBase58 := "A" |} "confirmed" "A" 1%nat eq_refl
                ltac:(apply distinctb_NoDup; vm_compute; reflexivity)
                ltac:(vm_compute; reflexivity) 2%nat (le_n 2))
      as [t [Hrun [Hreq _]]].
    exists t. split; [exact Hrun | exact Hreq].
Defined.

(** ** The stake-account scan *)

Lemma requestsAll_app P t1 t2 :
  requestsAll P t1 -> requestsAll P t2 -> requestsAll P (t1 ++ t2).
Proof. intros H1 H2. apply Forall_app. split; assumption. Qed.

Lemma requestsAll_requests P t :
  requestsAll P t -> Forall P (requests t).
Proof.
  induction 1 as [|e t He Ht IH]; simpl.
  - constructor.
  - destruct e; try exact IH. constructor; assumption.
Qed.

(** [withRetry] issues no request of its own. *)
Lemma withRetry_loop_requestsAll {St A} (operation : M St A) P maxAttempts :
  (forall s o s' t, operation s = (o, s', t) -> requestsAll P t) ->
  forall n attempt delay lastError s o s' t,
  withRetry_loop operation maxAttempts n attempt delay lastError s
    = (o, s', t) ->
  requestsAll P t.
Proof.
  intros Hop.
  induction n as [|n IH]; intros attempt delay lastError s o s' t H.
  - simpl in H. inversion H; subst. constructor.
  - simpl in H. destruct (attempt <=? maxAttempts).
    2:{ inversion H; subst. constructor. }
    unfold tryCatch in H.
    destruct (operation s) as [[o1 s1] t1] eqn:Hrun.
    apply Hop in Hrun.
    destruct o1 as [a|error|].
    + inversion H; subst. exact Hrun.
    + destruct error as [|message];
        cbv [bind of_sum get_message throw ret console_error console_log
             sleep emit] in H.
      * inversion H; subst. rewrite app_nil_r. exact Hrun.
      * destruct (attempt <? maxAttempts).
        -- destruct (withRetry_loop operation maxAttempts n
                       (attempt + 1) (delay * 2) (VError message) s1)
             as [[o2 s2] t2] eqn:Hrec.
           inversion H; subst. apply IH in Hrec.
           apply requestsAll_app; [exact Hrun|].
           repeat (constructor; [exact I|]). exact Hrec.
        -- destruct (withRetry_loop operation maxAttempts n
                       (attempt + 1) delay (VError message) s1)
             as [[o2 s2] t2] eqn:Hrec.
           inversion H; subst. apply IH in Hrec.
           apply requestsAll_app; [exact Hrun|].
           repeat (constructor; [exact I|]). exact Hrec.
    + inversion H; subst. exact Hrun.
Qed.

Section StakeScan.

Variable W : Type.
Variable connection : Connection W.
Variable address : string.

Let scan : Request :=
  ReqGetProgramAccounts StakeProgram_programId
    [DataSize 200; Memcmp 44 address].




End StakeScan.



(** ** The address loader *)

Lemma Set_has_In s x : Set_has s x = true <-> In x s.
Proof.
  unfold Set_has. rewrite existsb_exists. split.
  - intros [y [Hin Heq]]. apply String.eqb_eq in Heq. subst. exact Hin.
  - intros Hin. exists x. split; [exact Hin | apply String.eqb_refl].
Qed.

Lemma Set_add_In s x y : In y (Set_add s x) <-> In y s \/ y = x.
Proof.
  unfold Set_add. destruct (Set_has s x) eqn:Hhas.
  - apply Set_has_In in Hhas. split.
    + intros H. left. exact H.
    + intros [H|H]; [exact H | subst; exact Hhas].
  - rewrite in_app_iff. simpl. split.
    + intros [H|[H|[]]]; [left; exact H | right; symmetry; exact H].
    + intros [H|H]; [left; exact H | right; left; symmetry; exact H].
Qed.

Lemma Set_add_NoDup s x : NoDup s -> NoDup (Set_add s x).
Proof.
  intros Hnd. unfold Set_add. destruct (Set_has s x) eqn:Hhas.
  - exact Hnd.
  - apply NoDup_app; [exact Hnd | repeat constructor; intros [] |].
    intros y Hin [Heq|[]]. subst.
    apply Set_has_In in Hin. congruence.
Qed.

Section AddressLoader.

Variable PublicKey_new : string -> string + PublicKey.

Lemma isValidSolanaAddress_run {St} address (s : St) :
  isValidSolanaAddress PublicKey_new address s =
  (Return (validAddress PublicKey_new address), s,
   if validAddress PublicKey_new address then []
   else [ConsoleError AddressIsInvalid]).
Proof.
  unfold isValidSolanaAddress, tryCatch, bind, new_PublicKey, validAddress.
  destruct (PublicKey_new address); reflexivity.
Qed.

Lemma readAddresses_loop_collect {W} lines :
  forall addresses (w : W),
  exists t,
    readAddresses_loop PublicKey_new lines addresses w =
    (Return (collect PublicKey_new lines addresses), w, t).
Proof.
  induction lines as [|line lines IH]; intros addresses w.
  - exists []. reflexivity.
  - simpl. unfold bind at 1. rewrite isValidSolanaAddress_run.
    destruct (validAddress PublicKey_new (trim line)).
    + destruct (IH (Set_add addresses (trim line)) w) as [t Ht].
      rewrite Ht. eexists. reflexivity.
    + unfold bind at 1. simpl.
      destruct (IH addresses w) as [t Ht].
      rewrite Ht. eexists. reflexivity.
Qed.

Lemma collect_NoDup lines :
  forall addresses, NoDup addresses ->
  NoDup (collect PublicKey_new lines addresses).
Proof.
  induction lines as [|line lines IH]; intros addresses Hnd; simpl.
  - exact Hnd.
  - destruct (validAddress PublicKey_new (trim line)).
    + apply IH. apply Set_add_NoDup. exact Hnd.
    + apply IH. exact Hnd.
Qed.

Lemma collect_In lines :
  forall addresses x,
  In x (collect PublicKey_new lines addresses) <->
  In x addresses \/
  exists line, In line lines /\ x = trim line /\
               validAddress PublicKey_new x = true.
Proof.
  induction lines as [|line lines IH]; intros addresses x; simpl.
  - split; [intros H; left; exact H|].
    intros [H|[l [[] _]]]. exact H.
  - destruct (validAddress PublicKey_new (trim line)) eqn:Hvalid.
    + rewrite IH, Set_add_In. split.
      * intros [[H|H]|[l [Hin [Heq Hv]]]].
        -- left. exact H.
        -- right. exists line. subst. auto.
        -- right. exists l. auto.
      * intros [H|[l [[Hl|Hin] [Heq Hv]]]].
        -- left. left. exact H.
        -- subst. left. right. reflexivity.
        -- right. exists l. auto.
    + rewrite IH. split.
      * intros [H|[l [Hin [Heq Hv]]]].
        -- left. exact H.
        -- right. exists l. auto.
      * intros [H|[l [[Hl|Hin] [Heq Hv]]]].
        -- left. exact H.
        -- subst. congruence.
        -- right. exists l. auto.
Qed.

End AddressLoader.

(** C7: the loader keeps a trimmed line exactly when the key library
    accepts it, and keeps it once: the result has no duplicate and its
    members are the valid trimmed lines; an invalid line is left out and
    the load goes on (the loop always returns).  [readAddressesFromFile]
    returns this for the lines of the file, with [withRetry] and in
    [index.js].  Lines A, A, B with A and B valid give [A; B]; lines
    A, not-an-address, B give [A; B]. *)
Theorem readAddressesFromFile_valid_once :
  forall (PublicKey_new : string -> string + PublicKey) (W : Type)
         (fs : FileSystem W),
  (forall lines (w : W),
     exists t,
       readAddresses_loop PublicKey_new lines [] w =
       (Return (collect PublicKey_new lines []), w, t)) /\
  (forall lines,
     NoDup (collect PublicKey_new lines []) /\
     forall x,
       In x (collect PublicKey_new lines []) <->
       exists line, In line lines /\ x = trim line /\
                    validAddress PublicKey_new x = true) /\
  (forall filePath w data w',
     readFile fs filePath w = (Return data, w') ->
     exists t,
       readAddressesFromFile PublicKey_new fs filePath w =
         (Return (collect PublicKey_new (split_LF (trim data)) []), w', t) /\
       forall String_of,
       IndexJs.readAddressesFromFile PublicKey_new fs String_of filePath w =
         (Return (collect PublicKey_new (split_LF (trim data)) []), w', t)) /\
  (forall a b,
     trim a = a -> trim b = b -> a <> b ->
     validAddress PublicKey_new a = true ->
     validAddress PublicKey_new b = true ->
     collect PublicKey_new [a; a; b] [] = [a; b]) /\
  (forall a x b,
     trim a = a -> trim b = b -> a <> b ->
     validAddress PublicKey_new a = true ->
     validAddress PublicKey_new b = true ->
     validAddress PublicKey_new (trim x) = false ->
     collect PublicKey_new [a; x; b] [] = [a; b]).
Proof.
  intros PublicKey_new W fs. split; [|split; [|split; [|split]]].
  - intros lines w. apply readAddresses_loop_collect.
  - intros lines. split.
    + apply collect_NoDup. constructor.
    + intros x. rewrite collect_In. split.
      * intros [[]|H]. exact H.
      * intros H. right. exact H.
  - intros filePath w data w' Hread.
    destruct (readAddresses_loop_collect PublicKey_new
                (split_LF (trim data)) [] w') as [t Ht].
    exists (ReadFile filePath :: t). split.
    + unfold readAddressesFromFile, withRetry_default.
      apply withRetry_first_try; [|apply Return_not_Throw|lia].
      unfold bind at 1, fs_readFile. rewrite Hread.
      unfold bind at 1. rewrite Ht. unfold ret, Array_from.
      cbn [app]. rewrite app_nil_r. reflexivity.
    + intros String_of. unfold IndexJs.readAddressesFromFile.
      unfold bind at 1, tryCatch.
      unfold bind at 1, fs_readFile. rewrite Hread. rewrite Ht.
      unfold ret, Array_from. cbn [app]. rewrite app_nil_r. reflexivity.
  - intros a b Ha Hb Hab Hva Hvb. simpl. rewrite Ha, Hb, Hva, Hvb.
    unfold Set_add, Set_has. simpl.
    rewrite String.eqb_refl. simpl.
    apply String.eqb_neq in Hab. rewrite String.eqb_sym, Hab. reflexivity.
  - intros a x b Ha Hb Hab Hva Hvb Hvx. simpl. rewrite Ha, Hb, Hva, Hvb, Hvx.
    unfold Set_add, Set_has. simpl.
    apply String.eqb_neq in Hab. rewrite String.eqb_sym, Hab. reflexivity.
Qed.

Lemma readAddressesFromFile_valid_once_witness :
  fst (readAddressesFromFile test_PublicKey_new
         (constFile (fileOf ["A"; "A"; "B"])) "addresses.txt" tt)
    = (Return ["A"; "B"], tt) /\
  fst (readAddressesFromFile test_PublicKey_new
         (constFile (fileOf ["A"; "not-an-address"; "B"])) "addresses.txt" tt)
    = (Return ["A"; "B"], tt) /\
  collect test_PublicKey_new ["A"; "A"; "B"] [] = ["A"; "B"] /\
  collect test_PublicKey_new ["A"; "not-an-address"; "B"] [] = ["A"; "B"].
Proof.
  split; [|split; [|split]].
  - destruct (readAddressesFromFile_valid_once test_PublicKey_new unit
                (constFile (fileOf ["A"; "A"; "B"]))) as [_ [_ [Hfile _]]].
    destruct (Hfile "addresses.txt" tt (fileOf ["A"; "A"; "B"]) tt eq_refl)
      as [t [Hrun _]].
    rewrite Hrun. reflexivity.
  - destruct (readAddressesFromFile_valid_once test_PublicKey_new unit
                (constFile (fileOf ["A"; "not-an-address"; "B"])))
      as [_ [_ [Hfile _]]].
    destruct (Hfile "addresses.txt" tt
                (fileOf ["A"; "not-an-address"; "B"]) tt eq_refl)
      as [t [Hrun _]].
    rewrite Hrun. reflexivity.
  - destruct (readAddressesFromFile_valid_once test_PublicKey_new unit
                (constFile "")) as [_ [_ [_ [Hdup _]]]].
    apply Hdup; try reflexivity. discriminate.
  - destruct (readAddressesFromFile_valid_once test_PublicKey_new unit
                (constFile "")) as [_ [_ [_ [_ Hbad]]]].
    apply Hbad; try reflexivity. discriminate.
Defined.

(** ** Running the aggregation *)

Lemma bind_runs {St A B} (m : M St A) (k : A -> M St B)
    s a s1 t1 o s2 t2 :
  m s = (Return a, s1, t1) ->
  k a s1 = (o, s2, t2) ->
  bind m k s = (o, s2, t1 ++ t2).
Proof. intros Hm Hk. unfold bind. rewrite Hm, Hk. reflexivity. Qed.

Lemma lift_runs {L W A} (m : M W A) (l : L) w o w' t :
  m w = (o, w', t) -> lift m (l, w) = (o, (l, w'), t).
Proof. intros H. unfold lift. simpl. rewrite H. reflexivity. Qed.

Lemma addTotal_runs {W} n total (w : W) :
  addTotal n (total, w) = (Return tt, (total + n, w), []).
Proof. reflexivity. Qed.

Lemma console_log_runs {St} m (s : St) :
  console_log m s = (Return tt, s, [ConsoleLog m]).
Proof. reflexivity. Qed.

Lemma getLocal_runs {L W} (l : L) (w : W) :
  getLocal (l, w) = (Return l, (l, w), []).
Proof. reflexivity. Qed.

Lemma forOf_app {St X} (body : X -> M St unit) xs ys s :
  forOf (xs ++ ys) body s =
  match forOf xs body s with
  | (Return _, s1, t1) =>
      match forOf ys body s1 with
      | (o, s2, t2) => (o, s2, t1 ++ t2)
      end
  | r => r
  end.
Proof.
  revert s. induction xs as [|x xs IH]; intros s.
  - simpl. unfold ret. destruct (forOf ys body s) as [[o s2] t2].
    reflexivity.
  - simpl. unfold bind. destruct (body x s) as [[o s1] t1].
    destruct o as [[]| |]; try reflexivity.
    rewrite IH. destruct (forOf xs body s1) as [[o1 s2] t2].
    destruct o1 as [[]| |]; try reflexivity.
    destruct (forOf ys body s2) as [[o3 s3] t3].
    rewrite app_assoc. reflexivity.
Qed.

(** An operation that fails without changing the state fails at each of
    the attempts of [withRetry]. *)
Lemma FailsTimes_repeat {St A} (operation : M St A) s message t n :
  operation s = (Throw (VError message), s, t) ->
  FailsTimes operation s (repeat (message, t) n) s.
Proof.
  intros Hop. induction n as [|n IH]; simpl.
  - constructor.
  - econstructor; [exact Hop | exact IH].
Qed.

Lemma withRetry_default_fails {St A} (operation : M St A) s message t :
  operation s = (Throw (VError message), s, t) ->
  withRetry_default operation s =
  (Throw (VError message), s,
   backoffTrace 20 1000 0 (repeat (message, t) 20)).
Proof.
  intros Hop. unfold withRetry_default.
  rewrite (withRetry_exhausted St A operation 20 1000 s
             (repeat (message, t) 19) s message t s).
  - reflexivity.
  - apply FailsTimes_repeat. exact Hop.
  - exact Hop.
  - rewrite repeat_length. reflexivity.
Qed.

Section StaticAggregation.

Variable PublicKey_new : string -> string + PublicKey.
Variable L : Ledger.
Variable down : Request -> option string.

Let connection := withOutage down (ledgerConnection L).

Hypothesis Hdistinct :
  forall publicKey, NoDup (map signature (ledger_history L publicKey)).

Lemma fetchAccountInfo_static address publicKey :
  PublicKey_new address = inr publicKey ->
  down (ReqGetParsedAccountInfo publicKey) = None ->
  fetchAccountInfo PublicKey_new connection address tt =
  (Return (ledger_accountInfo L publicKey), tt,
   [Rpc (ReqGetParsedAccountInfo publicKey)]).
Proof.
  intros Hkey Hup. unfold fetchAccountInfo, withRetry_default.
  apply withRetry_first_try; [|apply Return_not_Throw|lia].
  unfold bind, new_PublicKey, rpc. rewrite Hkey. simpl. rewrite Hup.
  reflexivity.
Qed.

Lemma fetchAccountInfo_invalid {W} (c : Connection W) address message w :
  PublicKey_new address = inl message ->
  fetchAccountInfo PublicKey_new c address w =
  (Throw (VError message), w,
   backoffTrace 20 1000 0 (repeat (message, []) 20)).
Proof.
  intros Hkey. unfold fetchAccountInfo.
  apply withRetry_default_fails.
  unfold bind, new_PublicKey. rewrite Hkey. reflexivity.
Qed.

Lemma fetchAccountInfo_down address publicKey message :
  PublicKey_new address = inr publicKey ->
  down (ReqGetParsedAccountInfo publicKey) = Some message ->
  fetchAccountInfo PublicKey_new connection address tt =
  (Throw (VError message), tt,
   backoffTrace 20 1000 0
     (repeat (message, [Rpc (ReqGetParsedAccountInfo publicKey)]) 20)).
Proof.
  intros Hkey Hdown. unfold fetchAccountInfo.
  apply withRetry_default_fails.
  unfold bind, new_PublicKey, rpc. rewrite Hkey. simpl. rewrite Hdown.
  reflexivity.
Qed.

Lemma getStakeAccountsForAddress_static address :
  down (ReqGetProgramAccounts StakeProgram_programId (stakeFilters address))
    = None ->
  getStakeAccountsForAddress connection address 3 1000 tt =
  (Return {| stakeAccounts := associatedOf L address |}, tt,
   [Rpc (ReqGetProgramAccounts StakeProgram_programId
           (stakeFilters address));
    ConsoleLog (FoundStakeAccounts (len (associatedOf L address)))]).
Proof.
  intros Hup. unfold getStakeAccountsForAddress.
  apply withRetry_first_try; [|apply Return_not_Throw|lia].
  unfold bind, rpc. simpl. rewrite Hup. reflexivity.
Qed.

Lemma hasStakeAccount_static address :
  down (ReqGetProgramAccounts StakeProgram_programId (stakeFilters address))
    = None ->
  hasStakeAccount connection address tt =
  (Return (hasAssociatedStakeAccounts L address), tt,
   [Rpc (ReqGetProgramAccounts StakeProgram_programId
           (stakeFilters address));
    ConsoleLog (FoundStakeAccounts (len (associatedOf L address)))]).
Proof.
  intros Hup. unfold hasStakeAccount.
  rewrite (bind_runs _ _ _ _ _ _ _ _ _
             (getStakeAccountsForAddress_static address Hup) eq_refl).
  reflexivity.
Qed.

Lemma getAssociatedStakeAccounts_static address :
  down (ReqGetProgramAccounts StakeProgram_programId (stakeFilters address))
    = None ->
  getAssociatedStakeAccounts connection address tt =
  (Return (map (fun account => toBase58 (pubkey account))
               (associatedOf L address)), tt,
   [Rpc (ReqGetProgramAccounts StakeProgram_programId
           (stakeFilters address));
    ConsoleLog (FoundStakeAccounts (len (associatedOf L address)));
    ConsoleLog
      (FoundAssociatedStakeAccounts
         (len (map (fun account => toBase58 (pubkey account))
                   (associatedOf L address))))]).
Proof.
  intros Hup. unfold getAssociatedStakeAccounts, withRetry_default.
  apply withRetry_first_try; [|apply Return_not_Throw|lia].
  rewrite (bind_runs _ _ _ _ _ _ _ _ _
             (getStakeAccountsForAddress_static address Hup) eq_refl).
  reflexivity.
Qed.

(** Fetching and counting the signatures of one address. *)
Lemma count_static fuel address publicKey total (line : Z -> Msg) :
  PublicKey_new address = inr publicKey ->
  (forall options,
     down (ReqGetSignaturesForAddress publicKey options) = None) ->
  (historyFuel L publicKey <= fuel)%nat ->
  kindOfMsg (line (ownCount L publicKey)) = None ->
  exists t,
    (r <- lift (getSignaturesForAddress PublicKey_new connection fuel
                  address "confirmed") ;;
     addTotal (len (signatures r)) ;;
     console_log (line (len (signatures r)))) (total, tt)
    = (Return tt, (total + ownCount L publicKey, tt), t) /\
    announced t = [].
Proof.
  intros Hkey Hup Hfuel Hline.
  destruct (ledger_getSignaturesForAddress PublicKey_new L down publicKey
              "confirmed" Hup address fuel Hkey (Hdistinct publicKey))
    as [t [Hrun [_ Hquiet]]].
  { unfold historyFuel in Hfuel. lia. }
  eexists. split.
  - eapply bind_runs; [apply lift_runs; exact Hrun|].
    cbv beta. cbn [signatures].
    eapply bind_runs; [apply addTotal_runs|].
    apply console_log_runs.
  - rewrite !announced_app, Hquiet. simpl.
    unfold ownCount in Hline. rewrite Hline. reflexivity.
Qed.

End StaticAggregation.

Section StaticAddress.

Variable PublicKey_new : string -> string + PublicKey.
Variable L : Ledger.
Variable down : Request -> option string.

Let connection := withOutage down (ledgerConnection L).

Hypothesis Hdistinct :
  forall publicKey, NoDup (map signature (ledger_history L publicKey)).

(** The loop over the associated stake accounts. *)
Lemma forOf_associated_static fuel accounts :
  forall total,
  (forall account, In account accounts ->
     PublicKey_new (toBase58 (pubkey account)) = inr (pubkey account) /\
     (forall options,
        down (ReqGetSignaturesForAddress (pubkey account) options) = None) /\
     (historyFuel L (pubkey account) <= fuel)%nat) ->
  exists t,
    forOf (map (fun account => toBase58 (pubkey account)) accounts)
      (fun stakeAccount =>
         console_log (ProcessingAssociatedStakeAccount stakeAccount) ;;
         r <- lift (getSignaturesForAddress PublicKey_new connection fuel
                      stakeAccount "confirmed") ;;
         addTotal (len (signatures r)) ;;
         console_log (TotalForAssociatedStakeAccount (len (signatures r))))
      (total, tt)
    = (Return tt,
       (total + fold_right Z.add 0
                  (map (fun account => ownCount L (pubkey account)) accounts),
        tt), t) /\
    announced t = [].
Proof.
  induction accounts as [|account accounts IH]; intros total Hall.
  - exists []. split; [|reflexivity]. simpl. rewrite Z.add_0_r. reflexivity.
  - destruct (Hall account (or_introl eq_refl)) as [Hkey [Hup Hfuel]].
    destruct (count_static PublicKey_new L down Hdistinct fuel
                (toBase58 (pubkey account)) (pubkey account) total
                TotalForAssociatedStakeAccount Hkey Hup Hfuel eq_refl)
      as [t1 [Hrun1 Hquiet1]].
    destruct (IH (total + ownCount L (pubkey account))) as [t2 [Hrun2 Hquiet2]].
    { intros account' Hin. apply Hall. right. exact Hin. }
    eexists. split.
    + cbn [map forOf].
      eapply bind_runs.
      * eapply bind_runs; [apply console_log_runs|]. exact Hrun1.
      * cbv beta. rewrite Hrun2. cbn [map fold_right].
        rewrite Z.add_assoc. reflexivity.
    + rewrite !announced_app. rewrite Hquiet1, Hquiet2. reflexivity.
Qed.

Lemma addressFuel_own address publicKey fuel :
  PublicKey_new address = inr publicKey ->
  (addressFuel PublicKey_new L address <= fuel)%nat ->
  (historyFuel L publicKey <= fuel)%nat.
Proof.
  intros Hkey. unfold addressFuel. rewrite Hkey. lia.
Qed.

Lemma addressFuel_associated address publicKey fuel account :
  PublicKey_new address = inr publicKey ->
  (addressFuel PublicKey_new L address <= fuel)%nat ->
  In account (associatedOf L address) ->
  (historyFuel L (pubkey account) <= fuel)%nat.
Proof.
  intros Hkey. unfold addressFuel. rewrite Hkey. intros Hfuel Hin.
  assert (Hmax : (list_max (map (fun account => historyFuel L (pubkey account))
                              (associatedOf L address)) <= fuel)%nat) by lia.
  rewrite list_max_le in Hmax. rewrite Forall_forall in Hmax.
  apply Hmax. apply in_map_iff. exists account. split; [reflexivity|exact Hin].
Qed.

(** One address that the ledger answers for: the branch taken and the
    count added. *)
Lemma processAddress_static fuel address publicKey total :
  PublicKey_new address = inr publicKey ->
  reachable PublicKey_new L down address ->
  associatedKeysValid PublicKey_new L address ->
  (addressFuel PublicKey_new L address <= fuel)%nat ->
  exists t,
    processAddress PublicKey_new connection fuel address (total, tt)
    = (Return tt, (total + contribution PublicKey_new L address, tt), t) /\
    announced t = [kindOf L address publicKey].
Proof.
  intros Hkey Hreach Hvalid Hfuel.
  unfold reachable in Hreach. rewrite Hkey in Hreach.
  destruct Hreach as [Hinfo [Hscan [Hown Hassoc]]].
  pose proof (addressFuel_own address publicKey fuel Hkey Hfuel) as Hfuel1.
  pose proof (fetchAccountInfo_static PublicKey_new L down address publicKey
                Hkey Hinfo) as Hfetch.
  pose proof (hasStakeAccount_static L down address Hscan) as Hhas.
  unfold contribution, kindOf, isStakeAccountItself. rewrite Hkey.
  destruct (program_is_stake (ledger_accountInfo L publicKey)) eqn:Hstake.
  - (* a stake account *)
    destruct (count_static PublicKey_new L down Hdistinct fuel address
                publicKey total TotalForStakeAccount Hkey Hown Hfuel1 eq_refl)
      as [tc [Hcount Hquiet]].
    eexists. split.
    + unfold processAddress.
      eapply bind_runs; [apply console_log_runs|]. cbv beta.
      eapply bind_runs; [apply lift_runs; exact Hfetch|]. cbv beta.
      rewrite Hstake.
      eapply bind_runs.
      * eapply bind_runs; [apply console_log_runs|]. exact Hcount.
      * cbv beta.
        eapply bind_runs; [apply getLocal_runs|]. cbv beta.
        eapply bind_runs; [apply console_log_runs|apply console_log_runs].
    + rewrite !announced_app. rewrite Hquiet. reflexivity.
  - destruct (hasAssociatedStakeAccounts L address) eqn:Hauth.
    + (* an authority account *)
      destruct (ledger_getSignaturesForAddress PublicKey_new L down publicKey
                  "confirmed" Hown address fuel Hkey (Hdistinct publicKey))
        as [t1 [Hrun1 [_ Hquiet1]]].
      { unfold historyFuel in Hfuel1. lia. }
      pose proof (getAssociatedStakeAccounts_static L down address Hscan)
        as Hget.
      destruct (forOf_associated_static fuel (associatedOf L address)
                  (total + ownCount L publicKey)) as [t2 [Hrun2 Hquiet2]].
      { intros account Hin. split; [|split].
        - apply Hvalid. exact Hin.
        - intros options. apply Hassoc. exact Hin.
        - eapply addressFuel_associated; eassumption. }
      eexists. split.
      * unfold processAddress.
        eapply bind_runs; [apply console_log_runs|]. cbv beta.
        eapply bind_runs; [apply lift_runs; exact Hfetch|]. cbv beta.
        rewrite Hstake.
        eapply bind_runs.
        -- eapply bind_runs; [apply lift_runs; exact Hhas|]. cbv beta iota.
           eapply bind_runs; [apply console_log_runs|]. cbv beta.
           eapply bind_runs; [apply lift_runs; exact Hrun1|]. cbv beta.
           cbn [signatures].
           eapply bind_runs; [apply console_log_runs|]. cbv beta.
           eapply bind_runs; [apply addTotal_runs|]. cbv beta.
           eapply bind_runs; [apply lift_runs; exact Hget|]. cbv beta.
           exact Hrun2.
        -- cbv beta.
           eapply bind_runs; [apply getLocal_runs|]. cbv beta.
           eapply bind_runs; [apply console_log_runs|].
           unfold associatedCount. rewrite Z.add_assoc.
           apply console_log_runs.
      * rewrite !announced_app. rewrite Hquiet1, Hquiet2. reflexivity.
    + (* a normal account *)
      destruct (count_static PublicKey_new L down Hdistinct fuel address
                  publicKey total TotalForNormalAccount Hkey Hown Hfuel1
                  eq_refl) as [tc [Hcount Hquiet]].
      eexists. split.
      * unfold processAddress.
        eapply bind_runs; [apply console_log_runs|]. cbv beta.
        eapply bind_runs; [apply lift_runs; exact Hfetch|]. cbv beta.
        rewrite Hstake.
        eapply bind_runs.
        -- eapply bind_runs; [apply lift_runs; exact Hhas|]. cbv beta iota.
           eapply bind_runs; [apply lift_runs; exact Hhas|]. cbv beta.
           cbn [negb andb]. cbv iota.
           eapply bind_runs; [apply console_log_runs|]. exact Hcount.
        -- cbv beta.
           eapply bind_runs; [apply getLocal_runs|]. cbv beta.
           eapply bind_runs; [apply console_log_runs|apply console_log_runs].
      * rewrite !announced_app. rewrite Hquiet. reflexivity.
Qed.

End StaticAddress.

(** ** Failures of one address *)

Section Failures.

Variable PublicKey_new : string -> string + PublicKey.
Variable W : Type.
Variable connection : Connection W.
Variable fuel : nat.

(** The account lookup fails: nothing has been added. *)
Lemma processAddress_lookup_fails address total w error w' t :
  fetchAccountInfo PublicKey_new connection address w = (Throw error, w', t) ->
  processAddress PublicKey_new connection fuel address (total, w)
  = (Throw error, (total, w'), ConsoleLog (ProcessingAddress address) :: t).
Proof.
  intros Hfetch. unfold processAddress.
  change (ConsoleLog (ProcessingAddress address) :: t)
    with ([ConsoleLog (ProcessingAddress address)] ++ t).
  eapply bind_runs; [apply console_log_runs|]. cbv beta.
  apply bind_Throw. apply lift_runs. exact Hfetch.
Qed.

(** The stake-account scan fails: nothing has been added. *)
Lemma processAddress_scan_fails address total w info w1 t1 error w2 t2 :
  fetchAccountInfo PublicKey_new connection address w = (Return info, w1, t1) ->
  program_is_stake info = false ->
  hasStakeAccount connection address w1 = (Throw error, w2, t2) ->
  processAddress PublicKey_new connection fuel address (total, w)
  = (Throw error, (total, w2),
     ConsoleLog (ProcessingAddress address) :: t1 ++ t2).
Proof.
  intros Hfetch Hstake Hhas. unfold processAddress.
  change (ConsoleLog (ProcessingAddress address) :: t1 ++ t2)
    with ([ConsoleLog (ProcessingAddress address)] ++ t1 ++ t2).
  eapply bind_runs; [apply console_log_runs|]. cbv beta.
  eapply bind_runs; [apply lift_runs; exact Hfetch|]. cbv beta.
  rewrite Hstake.
  apply bind_Throw. apply bind_Throw. apply lift_runs. exact Hhas.
Qed.

(** What [catch] makes of a failed address. *)
Lemma processAddress_caught_Throw address total w error total' w' t :
  processAddress PublicKey_new connection fuel address (total, w)
    = (Throw error, (total', w'), t) ->
  processAddress_caught PublicKey_new connection fuel address (total, w)
  = (Return tt, (total', w'),
     t ++ [ConsoleError (ErrorProcessingAddress address error)]).
Proof.
  intros H. unfold processAddress_caught.
  rewrite (tryCatch_Throw _ _ _ _ _ _ H). reflexivity.
Qed.

Lemma processAddress_caught_not_Throw address s o s' t :
  processAddress_caught PublicKey_new connection fuel address s = (o, s', t) ->
  forall error, o <> Throw error.
Proof.
  unfold processAddress_caught, tryCatch. intros H error.
  destruct (processAddress PublicKey_new connection fuel address s)
    as [[o1 s1] t1].
  destruct o1; inversion H; subst; discriminate.
Qed.

Lemma forOf_caught_not_Throw addresses :
  forall s o s' t,
  forOf addresses (processAddress_caught PublicKey_new connection fuel) s
    = (o, s', t) ->
  forall error, o <> Throw error.
Proof.
  induction addresses as [|address addresses IH]; intros s o s' t H error.
  - simpl in H. inversion H; subst. discriminate.
  - simpl in H. unfold bind in H.
    destruct (processAddress_caught PublicKey_new connection fuel address s)
      as [[o1 s1] t1] eqn:H1.
    destruct o1 as [[]|e|].
    + destruct (forOf addresses
                  (processAddress_caught PublicKey_new connection fuel) s1)
        as [[o2 s2] t2] eqn:H2.
      inversion H; subst. eapply IH. exact H2.
    + exfalso. eapply processAddress_caught_not_Throw; [exact H1|reflexivity].
    + inversion H; subst. discriminate.
Qed.

(** [aggregate] in terms of its loop. *)
Lemma aggregate_forOf addresses total w :
  aggregate PublicKey_new connection fuel addresses total w =
  match forOf addresses (processAddress_caught PublicKey_new connection fuel)
          (total, w) with
  | (Return _, s, t) => (Return (fst s), snd s, t)
  | (Throw error, s, t) => (Throw error, snd s, t)
  | (Diverge, s, t) => (Diverge, snd s, t)
  end.
Proof.
  unfold aggregate, withLocal, bind.
  destruct (forOf addresses _ (total, w)) as [[o s] t].
  destruct o; simpl; try reflexivity.
  rewrite app_nil_r. reflexivity.
Qed.

Lemma aggregate_not_Throw addresses total w o w' t :
  aggregate PublicKey_new connection fuel addresses total w = (o, w', t) ->
  forall error, o <> Throw error.
Proof.
  rewrite aggregate_forOf. intros H error.
  destruct (forOf addresses _ (total, w)) as [[o1 s1] t1] eqn:Hloop.
  destruct o1 as [[]|e|].
  - inversion H; subst. discriminate.
  - exfalso. eapply forOf_caught_not_Throw; [exact Hloop|reflexivity].
  - inversion H; subst. discriminate.
Qed.

(** After an address that failed, the loop goes on from what the
    failed address had added. *)
Lemma aggregate_continues pre address post
    total0 w0 total1 w1 t1 error total2 w2 t2 :
  aggregate PublicKey_new connection fuel pre total0 w0
    = (Return total1, w1, t1) ->
  processAddress PublicKey_new connection fuel address (total1, w1)
    = (Throw error, (total2, w2), t2) ->
  aggregate PublicKey_new connection fuel (pre ++ address :: post) total0 w0
  = match aggregate PublicKey_new connection fuel post total2 w2 with
    | (o, w3, t3) =>
        (o, w3,
         t1 ++ t2 ++ ConsoleError (ErrorProcessingAddress address error)
            :: t3)
    end.
Proof.
  intros Hpre Hfail.
  rewrite aggregate_forOf in Hpre.
  rewrite !aggregate_forOf. rewrite forOf_app.
  destruct (forOf pre _ (total0, w0)) as [[o1 [total1' w1']] t1'] eqn:Hloop.
  destruct o1 as [[]|e|]; try discriminate.
  simpl in Hpre. inversion Hpre; subst. clear Hpre.
  cbn [forOf]. unfold bind at 1.
  rewrite (processAddress_caught_Throw _ _ _ _ _ _ _ Hfail).
  destruct (forOf post _ (total2, w2)) as [[o3 s3] t3].
  destruct o3; simpl; rewrite <- ?app_assoc; reflexivity.
Qed.

End Failures.

(** ** The total on a ledger that does not change *)

Section StaticTotal.

Variable PublicKey_new : string -> string + PublicKey.
Variable L : Ledger.
Variable down : Request -> option string.
Variable fuel : nat.

Let connection := withOutage down (ledgerConnection L).

Hypothesis Hdistinct :
  forall publicKey, NoDup (map signature (ledger_history L publicKey)).

(** An address that the ledger answers for, or that is not valid. *)
Lemma processAddress_caught_static address total :
  reachable PublicKey_new L down address ->
  associatedKeysValid PublicKey_new L address ->
  (addressFuel PublicKey_new L address <= fuel)%nat ->
  exists t,
    processAddress_caught PublicKey_new connection fuel address (total, tt)
    = (Return tt, (total + contribution PublicKey_new L address, tt), t).
Proof.
  intros Hreach Hvalid Hfuel.
  destruct (PublicKey_new address) as [message|publicKey] eqn:Hkey.
  - eexists. unfold contribution. rewrite Hkey. rewrite Z.add_0_r.
    apply processAddress_caught_Throw.
    apply processAddress_lookup_fails.
    apply fetchAccountInfo_invalid. exact Hkey.
  - destruct (processAddress_static PublicKey_new L down Hdistinct fuel
                address publicKey total Hkey Hreach Hvalid Hfuel)
      as [t [Hrun _]].
    exists t. unfold processAddress_caught.
    apply tryCatch_Return. exact Hrun.
Qed.

(** An address whose account cannot be looked up. *)
Lemma processAddress_caught_down address publicKey message total :
  PublicKey_new address = inr publicKey ->
  down (ReqGetParsedAccountInfo publicKey) = Some message ->
  exists t,
    processAddress_caught PublicKey_new connection fuel address (total, tt)
    = (Return tt, (total, tt), t).
Proof.
  intros Hkey Hdown. eexists.
  apply processAddress_caught_Throw.
  apply processAddress_lookup_fails.
  apply fetchAccountInfo_down; eassumption.
Qed.

Lemma enoughFuel_In addresses address :
  In address addresses ->
  (enoughFuel PublicKey_new L addresses <= fuel)%nat ->
  (addressFuel PublicKey_new L address <= fuel)%nat.
Proof.
  intros Hin Hfuel. unfold enoughFuel in Hfuel.
  rewrite list_max_le in Hfuel. rewrite Forall_forall in Hfuel.
  apply Hfuel. apply in_map. exact Hin.
Qed.

Lemma forOf_static addresses :
  forall total,
  (forall address, In address addresses ->
     reachable PublicKey_new L down address /\
     associatedKeysValid PublicKey_new L address) ->
  (enoughFuel PublicKey_new L addresses <= fuel)%nat ->
  exists t,
    forOf addresses (processAddress_caught PublicKey_new connection fuel)
      (total, tt)
    = (Return tt, (total + totalOf PublicKey_new L addresses, tt), t).
Proof.
  induction addresses as [|address addresses IH]; intros total Hall Hfuel.
  - exists []. simpl. unfold totalOf. simpl. rewrite Z.add_0_r. reflexivity.
  - destruct (Hall address (or_introl eq_refl)) as [Hreach Hvalid].
    destruct (processAddress_caught_static address total Hreach Hvalid)
      as [t1 H1].
    { apply (enoughFuel_In (address :: addresses)); [left; reflexivity|].
      exact Hfuel. }
    destruct (IH (total + contribution PublicKey_new L address))
      as [t2 H2].
    { intros a Hin. apply Hall. right. exact Hin. }
    { unfold enoughFuel in *. simpl in Hfuel. lia. }
    exists (t1 ++ t2). cbn [forOf].
    eapply bind_runs; [exact H1|]. cbv beta. rewrite H2.
    unfold totalOf. cbn [map fold_right]. rewrite Z.add_assoc. reflexivity.
Qed.

Lemma aggregate_static addresses total :
  (forall address, In address addresses ->
     reachable PublicKey_new L down address /\
     associatedKeysValid PublicKey_new L address) ->
  (enoughFuel PublicKey_new L addresses <= fuel)%nat ->
  exists t,
    aggregate PublicKey_new connection fuel addresses total tt
    = (Return (total + totalOf PublicKey_new L addresses), tt, t).
Proof.
  intros Hall Hfuel.
  destruct (forOf_static addresses total Hall Hfuel) as [t Ht].
  exists t. rewrite aggregate_forOf. rewrite Ht. reflexivity.
Qed.

End StaticTotal.

Lemma reachable_no_outage PublicKey_new L address :
  reachable PublicKey_new L (fun _ => None) address.
Proof.
  unfold reachable. destruct (PublicKey_new address); [exact I|].
  repeat split; reflexivity.
Qed.

(** C1: on a ledger that does not change (any account infos, scan
    results and histories with distinct signatures, the stake accounts
    found having addresses the key library reads back), the value that
    [getTotalTransactionCount] returns is the sum over the addresses of:
    nothing for an address that is not valid; else its own signature
    count, plus the counts of its associated stake accounts exactly when
    it is not a stake account itself and has some.  An address that is a
    stake account counts its own signatures only, also when the scan
    finds stake accounts for it.  The sum runs over the list as it is
    given: an address counts as often as it is listed, and a stake
    account listed next to its authority counts with both. *)
Theorem getTotalTransactionCount_sums_contributions :
  forall PublicKey_new (L : Ledger) (addresses : list string),
  (forall publicKey, NoDup (map signature (ledger_history L publicKey))) ->
  (forall address, In address addresses ->
     associatedKeysValid PublicKey_new L address) ->
  forall fuel,
  (enoughFuel PublicKey_new L addresses <= fuel)%nat ->
  (exists t,
     getTotalTransactionCount PublicKey_new (ledgerConnection L) fuel
       addresses tt
     = (Return (totalOf PublicKey_new L addresses), tt, t)) /\
  (forall address publicKey,
     PublicKey_new address = inr publicKey ->
     contribution PublicKey_new L address =
     if isStakeAccountItself L publicKey then ownCount L publicKey
     else if hasAssociatedStakeAccounts L address
          then ownCount L publicKey + associatedCount L address
          else ownCount L publicKey).
Proof.
  intros PublicKey_new L addresses Hdistinct Hvalid fuel Hfuel. split.
  - destruct (aggregate_static PublicKey_new L (fun _ => None) fuel Hdistinct
                addresses 0) as [t Ht].
    + intros address Hin. split; [apply reachable_no_outage|].
      apply Hvalid. exact Hin.
    + exact Hfuel.
    + exists t. exact Ht.
  - intros address publicKey Hkey. unfold contribution, kindOf.
    rewrite Hkey.
    destruct (isStakeAccountItself L publicKey); [reflexivity|].
    destruct (hasAssociatedStakeAccounts L address); reflexivity.
Qed.

Lemma authorityLedger_distinct publicKey :
  NoDup (map signature (ledger_history authorityLedger publicKey)).
Proof.
  unfold authorityLedger. cbn [ledger_history].
  repeat (destruct (String.eqb _ _)); apply distinctb_NoDup; reflexivity.
Qed.

Lemma authorityLedger_keys address :
  In address ["A"; "B"; "C"; "bad-address"] ->
  associatedKeysValid test_PublicKey_new authorityLedger address.
Proof.
  intros Hin account Hacc.
  repeat (destruct Hin as [Heq|Hin];
          [subst address; vm_compute in Hacc;
           repeat (destruct Hacc as [Heq|Hacc]; [subst account; reflexivity|]);
           destruct Hacc|]).
  destruct Hin.
Qed.

Lemma getTotalTransactionCount_sums_contributions_witness :
  exists t,
    getTotalTransactionCount test_PublicKey_new
      (ledgerConnection authorityLedger) 1 ["A"; "B"; "C"; "bad-address"] tt
    = (Return 14, tt, t).
Proof.
  destruct (getTotalTransactionCount_sums_contributions test_PublicKey_new
              authorityLedger ["A"; "B"; "C"; "bad-address"]
              authorityLedger_distinct authorityLedger_keys 1%nat
              ltac:(vm_compute; apply le_n)) as [[t Hrun] _].
  exists t. exact Hrun.
Defined.

(** The claim C1 as stated fails for an authority listed together with
    its stake account: the 3 signatures of S are counted with A, whose
    stake account it is, and again with S itself, so that 8 is returned
    where A and S hold 5 signatures. *)
Lemma double_counting_counterexample :
  ~ sums_without_double_counting test_PublicKey_new authorityLedger 1
      ["A"; "S"].
Proof.
  intros H.
  specialize (H 8
                (snd (getTotalTransactionCount test_PublicKey_new
                        (ledgerConnection authorityLedger) 1 ["A"; "S"] tt))
                ltac:(vm_compute; reflexivity)).
  destruct H as [_ H]. vm_compute in H. discriminate.
Qed.

(** ** The classification in [index.js] *)

Section IndexJsStatic.

Variable PublicKey_new : string -> string + PublicKey.
Variable L : Ledger.

Let connection := ledgerConnection L.

Hypothesis Hdistinct :
  forall publicKey, NoDup (map signature (ledger_history L publicKey)).

Lemma IndexJs_getStakeAccountsForAddress_static address :
  IndexJs.getStakeAccountsForAddress connection address 1 1000 tt =
  (Return {| stakeAccounts := associatedOf L address |}, tt,
   Rpc (ReqGetProgramAccounts StakeProgram_programId (stakeFilters address))
   :: (if isArrayNotEmpty (associatedOf L address)
       then [ConsoleLog (FoundStakeAccounts (len (associatedOf L address)))]
       else [])).
Proof.
  unfold IndexJs.getStakeAccountsForAddress.
  change (Z.to_nat 1) with 1%nat.
  cbn [IndexJs.getStakeAccountsForAddress_loop].
  change (0 <? 1) with true. change (0 <? 1 - 1) with false. cbv iota.
  unfold bind, rpc. cbn [getProgramAccounts connection ledgerConnection].
  fold (associatedOf L address).
  destruct (isArrayNotEmpty (associatedOf L address)); reflexivity.
Qed.

Lemma IndexJs_hasStakeAccount_static address :
  exists t,
    IndexJs.hasStakeAccount connection address tt =
    (Return (hasAssociatedStakeAccounts L address), tt, t) /\
    announced t = [].
Proof.
  eexists. split.
  - unfold IndexJs.hasStakeAccount.
    eapply bind_runs; [apply IndexJs_getStakeAccountsForAddress_static|].
    reflexivity.
  - destruct (isArrayNotEmpty (associatedOf L address)); reflexivity.
Qed.

Lemma IndexJs_getAssociatedStakeAccounts_static address :
  exists t,
    IndexJs.getAssociatedStakeAccounts connection address tt =
    (Return (map (fun account => toBase58 (pubkey account))
                 (associatedOf L address)), tt, t) /\
    announced t = [].
Proof.
  eexists. split.
  - unfold IndexJs.getAssociatedStakeAccounts.
    eapply bind_runs; [apply IndexJs_getStakeAccountsForAddress_static|].
    cbv beta. cbn [stakeAccounts].
    eapply bind_runs; [apply console_log_runs|]. reflexivity.
  - destruct (isArrayNotEmpty (associatedOf L address)); reflexivity.
Qed.

Lemma IndexJs_getSignaturesForAddress_static address publicKey fuel :
  PublicKey_new address = inr publicKey ->
  (historyFuel L publicKey <= fuel)%nat ->
  exists t,
    IndexJs.getSignaturesForAddress PublicKey_new connection fuel address
      "confirmed" tt
    = (Return {| signatures := ledger_history L publicKey |}, tt, t) /\
    announced t = [].
Proof.
  intros Hkey Hfuel.
  destruct (ledger_pages L (fun _ => None) publicKey "confirmed"
              (fun _ => eq_refl) (Hdistinct publicKey))
    as [batches [HP [Hcat Hcount]]].
  exists (map Rpc (pageRequests publicKey "confirmed" None batches)).
  split; [|apply announced_map_Rpc].
  rewrite <- Hcat.
  eapply IndexJs_getSignaturesForAddress_Paged; [exact Hkey|exact HP|].
  unfold historyFuel in Hfuel. lia.
Qed.

Lemma IndexJs_forOf_associated_static fuel accounts :
  forall total,
  (forall account, In account accounts ->
     PublicKey_new (toBase58 (pubkey account)) = inr (pubkey account) /\
     (historyFuel L (pubkey account) <= fuel)%nat) ->
  exists t,
    forOf (map (fun account => toBase58 (pubkey account)) accounts)
      (fun stakeAccount =>
         console_log (ProcessingAssociatedStakeAccount stakeAccount) ;;
         r <- lift (IndexJs.getSignaturesForAddress PublicKey_new connection
                      fuel stakeAccount "confirmed") ;;
         addTotal (len (signatures r)) ;;
         console_log EmptyLine ;;
         console_log (TotalForAssociatedStakeAccount (len (signatures r))) ;;
         console_log EmptyLine)
      (total, tt)
    = (Return tt,
       (total + fold_right Z.add 0
                  (map (fun account => ownCount L (pubkey account)) accounts),
        tt), t) /\
    announced t = [].
Proof.
  induction accounts as [|account accounts IH]; intros total Hall.
  - exists []. split; [|reflexivity]. simpl. rewrite Z.add_0_r. reflexivity.
  - destruct (Hall account (or_introl eq_refl)) as [Hkey Hfuel].
    destruct (IndexJs_getSignaturesForAddress_static _ _ fuel Hkey Hfuel)
      as [t1 [Hrun1 Hquiet1]].
    destruct (IH (total + ownCount L (pubkey account))) as [t2 [Hrun2 Hquiet2]].
    { intros account' Hin. apply Hall. right. exact Hin. }
    eexists. split.
    + cbn [map forOf].
      eapply bind_runs.
      * eapply bind_runs; [apply console_log_runs|]. cbv beta.
        eapply bind_runs; [apply lift_runs; exact Hrun1|]. cbv beta.
        cbn [signatures].
        eapply bind_runs; [apply addTotal_runs|]. cbv beta.
        eapply bind_runs; [apply console_log_runs|]. cbv beta.
        eapply bind_runs; [apply console_log_runs|apply console_log_runs].
      * cbv beta. fold (ownCount L (pubkey account)).
        rewrite Hrun2. cbn [map fold_right].
        rewrite Z.add_assoc. reflexivity.
    + rewrite !announced_app. rewrite Hquiet1, Hquiet2. reflexivity.
Qed.

Lemma IndexJs_processAddress_static fuel address publicKey total :
  PublicKey_new address = inr publicKey ->
  associatedKeysValid PublicKey_new L address ->
  (addressFuel PublicKey_new L address <= fuel)%nat ->
  exists t,
    IndexJs.processAddress PublicKey_new connection fuel address (total, tt)
    = (Return tt, (total + contribution PublicKey_new L address, tt), t) /\
    announced t = [kindOf L address publicKey].
Proof.
  intros Hkey Hvalid Hfuel.
  pose proof (addressFuel_own PublicKey_new L address publicKey fuel Hkey
                Hfuel) as Hfuel1.
  assert (Hfetch :
    IndexJs.fetchAccountInfo PublicKey_new connection address tt
    = (Return (ledger_accountInfo L publicKey), tt,
       [Rpc (ReqGetParsedAccountInfo publicKey)])).
  { unfold IndexJs.fetchAccountInfo, bind, new_PublicKey, rpc.
    rewrite Hkey. reflexivity. }
  destruct (IndexJs_hasStakeAccount_static address) as [th [Hhas Hquieth]].
  destruct (IndexJs_getSignaturesForAddress_static address publicKey fuel
              Hkey Hfuel1) as [t1 [Hrun1 Hquiet1]].
  unfold contribution, kindOf, isStakeAccountItself. rewrite Hkey.
  destruct (program_is_stake (ledger_accountInfo L publicKey)) eqn:Hstake.
  - eexists. split.
    + unfold IndexJs.processAddress.
      eapply bind_runs; [apply console_log_runs|]. cbv beta.
      eapply bind_runs; [apply lift_runs; exact Hfetch|]. cbv beta.
      rewrite Hstake.
      eapply bind_runs.
      * eapply bind_runs; [apply console_log_runs|]. cbv beta.
        eapply bind_runs; [apply lift_runs; exact Hrun1|]. cbv beta.
        cbn [signatures].
        eapply bind_runs; [apply addTotal_runs|]. cbv beta.
        eapply bind_runs; [apply console_log_runs|]. cbv beta.
        eapply bind_runs; [apply console_log_runs|]. cbv beta.
        eapply bind_runs; [apply console_log_runs|apply console_log_runs].
      * cbv beta.
        eapply bind_runs; [apply getLocal_runs|]. cbv beta.
        apply console_log_runs.
    + rewrite !announced_app. rewrite Hquiet1. reflexivity.
  - destruct (hasAssociatedStakeAccounts L address) eqn:Hauth.
    + destruct (IndexJs_getAssociatedStakeAccounts_static address)
        as [ta [Hget Hquieta]].
      destruct (IndexJs_forOf_associated_static fuel (associatedOf L address)
                  (total + ownCount L publicKey)) as [t2 [Hrun2 Hquiet2]].
      { intros account Hin. split.
        - apply Hvalid. exact Hin.
        - eapply addressFuel_associated; eassumption. }
      eexists. split.
      * unfold IndexJs.processAddress.
        eapply bind_runs; [apply console_log_runs|]. cbv beta.
        eapply bind_runs; [apply lift_runs; exact Hfetch|]. cbv beta.
        rewrite Hstake.
        eapply bind_runs.
        -- eapply bind_runs; [apply lift_runs; exact Hhas|]. cbv beta iota.
           eapply bind_runs; [apply console_log_runs|]. cbv beta.
           eapply bind_runs; [apply lift_runs; exact Hrun1|]. cbv beta.
           cbn [signatures].
           eapply bind_runs; [apply console_log_runs|]. cbv beta.
           eapply bind_runs; [apply addTotal_runs|]. cbv beta.
           eapply bind_runs; [apply lift_runs; exact Hget|]. cbv beta.
           exact Hrun2.
        -- cbv beta.
           eapply bind_runs; [apply getLocal_runs|]. cbv beta.
           unfold associatedCount. rewrite Z.add_assoc.
           apply console_log_runs.
      * rewrite !announced_app.
        rewrite Hquieth, Hquiet1, Hquieta, Hquiet2. reflexivity.
    + eexists. split.
      * unfold IndexJs.processAddress.
        eapply bind_runs; [apply console_log_runs|]. cbv beta.
        eapply bind_runs; [apply lift_runs; exact Hfetch|]. cbv beta.
        rewrite Hstake.
        eapply bind_runs.
        -- eapply bind_runs; [apply lift_runs; exact Hhas|]. cbv beta iota.
           eapply bind_runs; [apply lift_runs; exact Hhas|]. cbv beta.
           cbn [negb andb]. cbv iota.
           eapply bind_runs; [apply console_log_runs|]. cbv beta.
           eapply bind_runs; [apply lift_runs; exact Hrun1|]. cbv beta.
           cbn [signatures].
           eapply bind_runs; [apply addTotal_runs|]. cbv beta.
           eapply bind_runs; [apply console_log_runs|]. cbv beta.
           eapply bind_runs; [apply console_log_runs|]. cbv beta.
           eapply bind_runs; [apply console_log_runs|apply console_log_runs].
        -- cbv beta.
           eapply bind_runs; [apply getLocal_runs|]. cbv beta.
           apply console_log_runs.
      * rewrite !announced_app. rewrite Hquieth, Hquiet1. reflexivity.
Qed.

End IndexJsStatic.

(** ** Classification *)

(** The branch that logs 'invalid address': taken when the scan finds no
    stake account at the first evaluation and some at the second. *)
Lemma processAddress_torn {W} PublicKey_new (connection : Connection W)
    fuel address total w info w1 t1 w2 t2 w3 t3 :
  fetchAccountInfo PublicKey_new connection address w = (Return info, w1, t1) ->
  program_is_stake info = false ->
  hasStakeAccount connection address w1 = (Return false, w2, t2) ->
  hasStakeAccount connection address w2 = (Return true, w3, t3) ->
  processAddress PublicKey_new connection fuel address (total, w)
  = (Return tt, (total, w3),
     [ConsoleLog (ProcessingAddress address)] ++ t1 ++
     ((t2 ++ t3 ++ [ConsoleLog InvalidAddress]) ++
      [] ++ [ConsoleLog (AccumulatingTotal total)] ++
      [ConsoleLog Separator])).
Proof.
  intros Hfetch Hstake Hfirst Hsecond. unfold processAddress.
  eapply bind_runs; [apply console_log_runs|]. cbv beta.
  eapply bind_runs; [apply lift_runs; exact Hfetch|]. cbv beta.
  rewrite Hstake.
  eapply bind_runs.
  - eapply bind_runs; [apply lift_runs; exact Hfirst|]. cbv beta iota.
    eapply bind_runs; [apply lift_runs; exact Hsecond|]. cbv beta.
    cbn [negb andb]. cbv iota. apply console_log_runs.
  - cbv beta.
    eapply bind_runs; [apply getLocal_runs|]. cbv beta.
    eapply bind_runs; [apply console_log_runs|apply console_log_runs].
Qed.

Lemma IndexJs_processAddress_torn {W} PublicKey_new
    (connection : Connection W) fuel address total w info w1 t1 w2 t2 w3 t3 :
  IndexJs.fetchAccountInfo PublicKey_new connection address w
    = (Return info, w1, t1) ->
  program_is_stake info = false ->
  IndexJs.hasStakeAccount connection address w1 = (Return false, w2, t2) ->
  IndexJs.hasStakeAccount connection address w2 = (Return true, w3, t3) ->
  IndexJs.processAddress PublicKey_new connection fuel address (total, w)
  = (Return tt, (total, w3),
     [ConsoleLog (ProcessingAddress address)] ++ t1 ++
     ((t2 ++ t3 ++ [ConsoleLog InvalidAddress]) ++
      [] ++ [ConsoleLog (AccumulatingTotal total)])).
Proof.
  intros Hfetch Hstake Hfirst Hsecond. unfold IndexJs.processAddress.
  eapply bind_runs; [apply console_log_runs|]. cbv beta.
  eapply bind_runs; [apply lift_runs; exact Hfetch|]. cbv beta.
  rewrite Hstake.
  eapply bind_runs.
  - eapply bind_runs; [apply lift_runs; exact Hfirst|]. cbv beta iota.
    eapply bind_runs; [apply lift_runs; exact Hsecond|]. cbv beta.
    cbn [negb andb]. cbv iota. apply console_log_runs.
  - cbv beta.
    eapply bind_runs; [apply getLocal_runs|]. cbv beta.
    apply console_log_runs.
Qed.

(** C2, as the code has it: the branches are tried in order, so that an
    address that is a stake account is classified [StakeAccount] and
    counts its own signatures whatever the scan finds for it;
    otherwise it is an [AuthorityAccount] when the scan finds stake
    accounts, and a [NormalAccount] when it finds none.  On a ledger that
    does not change exactly one of these three is announced.  The last
    branch ('invalid address') is taken when the scan, evaluated twice,
    finds nothing the first time and something the second time; the
    address then counts nothing.  The same holds for the loop body of
    [index.js]. *)
Theorem classification_first_match :
  (forall PublicKey_new (L : Ledger) address publicKey,
     (forall publicKey,
        NoDup (map signature (ledger_history L publicKey))) ->
     PublicKey_new address = inr publicKey ->
     associatedKeysValid PublicKey_new L address ->
     forall fuel total,
     (addressFuel PublicKey_new L address <= fuel)%nat ->
     exists t,
       processAddress PublicKey_new (ledgerConnection L) fuel address
         (total, tt)
       = (Return tt, (total + contribution PublicKey_new L address, tt), t) /\
       announced t = [kindOf L address publicKey] /\
       kindOf L address publicKey =
         match isStakeAccountItself L publicKey,
               hasAssociatedStakeAccounts L address with
         | true, _ => StakeAccount
         | false, true => AuthorityAccount
         | false, false => NormalAccount
         end /\
       contribution PublicKey_new L address =
         match kindOf L address publicKey with
         | AuthorityAccount =>
             ownCount L publicKey + associatedCount L address
         | _ => ownCount L publicKey
         end) /\
  (forall PublicKey_new (W : Type) (connection : Connection W)
          fuel address total w info w1 t1 w2 t2 w3 t3,
     fetchAccountInfo PublicKey_new connection address w
       = (Return info, w1, t1) ->
     program_is_stake info = false ->
     hasStakeAccount connection address w1 = (Return false, w2, t2) ->
     hasStakeAccount connection address w2 = (Return true, w3, t3) ->
     exists t,
       processAddress PublicKey_new connection fuel address (total, w)
       = (Return tt, (total, w3), t) /\
       In (ConsoleLog InvalidAddress) t) /\
  (forall PublicKey_new (L : Ledger) address publicKey,
     (forall publicKey,
        NoDup (map signature (ledger_history L publicKey))) ->
     PublicKey_new address = inr publicKey ->
     associatedKeysValid PublicKey_new L address ->
     forall fuel total,
     (addressFuel PublicKey_new L address <= fuel)%nat ->
     exists t,
       IndexJs.processAddress PublicKey_new (ledgerConnection L) fuel
         address (total, tt)
       = (Return tt, (total + contribution PublicKey_new L address, tt), t) /\
       announced t = [kindOf L address publicKey]) /\
  (forall PublicKey_new (W : Type) (connection : Connection W)
          fuel address total w info w1 t1 w2 t2 w3 t3,
     IndexJs.fetchAccountInfo PublicKey_new connection address w
       = (Return info, w1, t1) ->
     program_is_stake info = false ->
     IndexJs.hasStakeAccount connection address w1
       = (Return false, w2, t2) ->
     IndexJs.hasStakeAccount connection address w2
       = (Return true, w3, t3) ->
     exists t,
       IndexJs.processAddress PublicKey_new connection fuel address
         (total, w)
       = (Return tt, (total, w3), t) /\
       In (ConsoleLog InvalidAddress) t).
Proof.
  split; [|split; [|split]].
  - intros PublicKey_new L address publicKey Hdistinct Hkey Hvalid fuel total
      Hfuel.
    destruct (processAddress_static PublicKey_new L (fun _ => None)
                Hdistinct fuel address publicKey total Hkey
                (reachable_no_outage PublicKey_new L address) Hvalid Hfuel)
      as [t [Hrun Hkind]].
    exists t. split; [exact Hrun|]. split; [exact Hkind|]. split.
    + unfold kindOf.
      destruct (isStakeAccountItself L publicKey); [reflexivity|].
      destruct (hasAssociatedStakeAccounts L address); reflexivity.
    + unfold contribution. rewrite Hkey. reflexivity.
  - intros PublicKey_new W connection fuel address total w info w1 t1 w2 t2
      w3 t3 Hfetch Hstake Hfirst Hsecond.
    eexists. split.
    + eapply processAddress_torn; eassumption.
    + apply in_or_app. right. apply in_or_app. right.
      apply in_or_app. left. apply in_or_app. right.
      apply in_or_app. right. left. reflexivity.
  - intros PublicKey_new L address publicKey Hdistinct Hkey Hvalid fuel total
      Hfuel.
    apply IndexJs_processAddress_static; assumption.
  - intros PublicKey_new W connection fuel address total w info w1 t1 w2 t2
      w3 t3 Hfetch Hstake Hfirst Hsecond.
    eexists. split.
    + eapply IndexJs_processAddress_torn; eassumption.
    + apply in_or_app. right. apply in_or_app. right.
      apply in_or_app. left. apply in_or_app. right.
      apply in_or_app. right. left. reflexivity.
Qed.

Lemma conflictedLedger_distinct publicKey :
  NoDup (map signature (ledger_history conflictedLedger publicKey)).
Proof.
  unfold conflictedLedger. cbn [ledger_history].
  repeat (destruct (String.eqb _ _)); apply distinctb_NoDup; reflexivity.
Qed.

Lemma classification_first_match_witness :
  exists t,
    processAddress test_PublicKey_new (ledgerConnection conflictedLedger) 1
      "A" (0, tt)
    = (Return tt, (2, tt), t) /\
    announced t = [StakeAccount].
Proof.
  destruct classification_first_match as [Hstatic _].
  destruct (Hstatic test_PublicKey_new conflictedLedger "A"
              {| toBase58 := "A" |} conflictedLedger_distinct eq_refl)
    with (fuel := 1%nat) (total := 0) as [t [Hrun [Hkind _]]].
  - intros account Hacc. vm_compute in Hacc.
    destruct Hacc as [Heq|[]]. subst account. reflexivity.
  - vm_compute. apply le_n.
  - exists t. split; [exact Hrun | exact Hkind].
Defined.

(** The claim C2 as stated fails for an address that is a stake account
    and for which the scan finds a stake account: it is announced as a
    stake account and its 2 signatures are counted. *)
Lemma spec_table_counterexample :
  ~ classification_follows_spec_table test_PublicKey_new conflictedLedger 1
      "A".
Proof.
  intros H.
  specialize (H {| toBase58 := "A" |} 2
                (snd (getTotalTransactionCount test_PublicKey_new
                        (ledgerConnection conflictedLedger) 1 ["A"] tt))
                eq_refl ltac:(vm_compute; reflexivity)).
  destruct H as [_ H]. specialize (H eq_refl). discriminate.
Qed.

(** ** Fault isolation *)

Lemma three_addresses_static PublicKey_new L down fuel
    a1 a2 a3 publicKey2 message :
  (forall publicKey, NoDup (map signature (ledger_history L publicKey))) ->
  reachable PublicKey_new L down a1 ->
  reachable PublicKey_new L down a3 ->
  associatedKeysValid PublicKey_new L a1 ->
  associatedKeysValid PublicKey_new L a3 ->
  PublicKey_new a2 = inr publicKey2 ->
  down (ReqGetParsedAccountInfo publicKey2) = Some message ->
  (enoughFuel PublicKey_new L [a1; a3] <= fuel)%nat ->
  exists t,
    getTotalTransactionCount PublicKey_new
      (withOutage down (ledgerConnection L)) fuel [a1; a2; a3] tt
    = (Return (contribution PublicKey_new L a1
               + contribution PublicKey_new L a3), tt, t).
Proof.
  intros Hdistinct Hr1 Hr3 Hv1 Hv3 Hkey2 Hdown Hfuel.
  assert (Hf1 : (addressFuel PublicKey_new L a1 <= fuel)%nat).
  { apply (enoughFuel_In PublicKey_new L fuel [a1; a3]);
      [left; reflexivity | exact Hfuel]. }
  assert (Hf3 : (addressFuel PublicKey_new L a3 <= fuel)%nat).
  { apply (enoughFuel_In PublicKey_new L fuel [a1; a3]);
      [right; left; reflexivity | exact Hfuel]. }
  destruct (processAddress_caught_static PublicKey_new L down fuel Hdistinct
              a1 0 Hr1 Hv1 Hf1) as [t1 H1].
  destruct (processAddress_caught_down PublicKey_new L down fuel a2
              publicKey2 message (0 + contribution PublicKey_new L a1)
              Hkey2 Hdown) as [t2 H2].
  destruct (processAddress_caught_static PublicKey_new L down fuel Hdistinct
              a3 (0 + contribution PublicKey_new L a1) Hr3 Hv3 Hf3)
    as [t3 H3].
  eexists. unfold getTotalTransactionCount. rewrite aggregate_forOf.
  cbn [forOf].
  erewrite bind_runs; [| exact H1 |].
  2:{ cbv beta. eapply bind_runs; [exact H2|]. cbv beta.
      eapply bind_runs; [exact H3|]. reflexivity. }
  reflexivity.
Qed.

(** C3, as the code has it: an address whose processing fails does not
    stop the run: the error is logged and the loop goes on with the next
    address, from the total as the failed address left it.  The failed
    address has added nothing when the failure is in its classification
    (the account lookup, or the stake-account scan); the function never
    throws.  With three addresses of which the account of the second
    cannot be looked up, the total is that of the first and the third. *)
Theorem getTotalTransactionCount_fault_isolation :
  forall PublicKey_new (W : Type) (connection : Connection W) (fuel : nat),
  (forall pre address post total0 w0 total1 w1 t1 error total2 w2 t2,
     aggregate PublicKey_new connection fuel pre total0 w0
       = (Return total1, w1, t1) ->
     processAddress PublicKey_new connection fuel address (total1, w1)
       = (Throw error, (total2, w2), t2) ->
     aggregate PublicKey_new connection fuel (pre ++ address :: post)
       total0 w0
     = match aggregate PublicKey_new connection fuel post total2 w2 with
       | (o, w3, t3) =>
           (o, w3,
            t1 ++ t2 ++ ConsoleError (ErrorProcessingAddress address error)
               :: t3)
       end) /\
  (forall address total w error w' t,
     fetchAccountInfo PublicKey_new connection address w
       = (Throw error, w', t) ->
     processAddress PublicKey_new connection fuel address (total, w)
     = (Throw error, (total, w'),
        ConsoleLog (ProcessingAddress address) :: t)) /\
  (forall address total w info w1 t1 error w2 t2,
     fetchAccountInfo PublicKey_new connection address w
       = (Return info, w1, t1) ->
     program_is_stake info = false ->
     hasStakeAccount connection address w1 = (Throw error, w2, t2) ->
     processAddress PublicKey_new connection fuel address (total, w)
     = (Throw error, (total, w2),
        ConsoleLog (ProcessingAddress address) :: t1 ++ t2)) /\
  (forall addresses w o w' t,
     getTotalTransactionCount PublicKey_new connection fuel addresses w
       = (o, w', t) ->
     forall error, o <> Throw error) /\
  (forall (L : Ledger) down a1 a2 a3 publicKey2 message,
     (forall publicKey,
        NoDup (map signature (ledger_history L publicKey))) ->
     reachable PublicKey_new L down a1 ->
     reachable PublicKey_new L down a3 ->
     associatedKeysValid PublicKey_new L a1 ->
     associatedKeysValid PublicKey_new L a3 ->
     PublicKey_new a2 = inr publicKey2 ->
     down (ReqGetParsedAccountInfo publicKey2) = Some message ->
     (enoughFuel PublicKey_new L [a1; a3] <= fuel)%nat ->
     exists t,
       getTotalTransactionCount PublicKey_new
         (withOutage down (ledgerConnection L)) fuel [a1; a2; a3] tt
       = (Return (contribution PublicKey_new L a1
                  + contribution PublicKey_new L a3), tt, t)).
Proof.
  intros PublicKey_new W connection fuel.
  split; [|split; [|split; [|split]]].
  - intros. eapply aggregate_continues; eassumption.
  - intros. apply processAddress_lookup_fails. assumption.
  - intros. eapply processAddress_scan_fails; eassumption.
  - intros addresses w o w' t H.
    eapply aggregate_not_Throw. exact H.
  - intros. eapply three_addresses_static; eassumption.
Qed.

Lemma getTotalTransactionCount_fault_isolation_witness :
  exists t,
    getTotalTransactionCount test_PublicKey_new
      (withOutage accountOfBDown (ledgerConnection authorityLedger)) 1
      ["A"; "B"; "C"] tt
    = (Return 10, tt, t).
Proof.
  destruct (getTotalTransactionCount_fault_isolation test_PublicKey_new unit
              (ledgerConnection authorityLedger) 1)
    as [_ [_ [_ [_ Hthree]]]].
  destruct (Hthree authorityLedger accountOfBDown "A" "B" "C"
              {| toBase58 := "B" |} "timeout" authorityLedger_distinct)
    as [t Hrun].
  - vm_compute. repeat split; intros; reflexivity.
  - vm_compute. repeat split; intros; reflexivity.
  - apply authorityLedger_keys. left. reflexivity.
  - apply authorityLedger_keys. right. right. left. reflexivity.
  - reflexivity.
  - reflexivity.
  - vm_compute. apply le_n.
  - exists t. exact Hrun.
Defined.

(** The claim C3 as stated fails when the failure comes after a count
    was added: the authority A has added its 2 signatures when the
    signatures of its stake account S cannot be fetched. *)
Lemma failed_address_counterexample :
  ~ failed_address_counts_nothing test_PublicKey_new
      (withOutage signaturesOfSDown (ledgerConnection authorityLedger)) 1 "A".
Proof.
  intros H.
  specialize (H 0 tt (VError "timeout") 2 tt
                (snd (processAddress test_PublicKey_new
                        (withOutage signaturesOfSDown
                           (ledgerConnection authorityLedger)) 1 "A"
                        (0, tt)))
                ltac:(vm_compute; reflexivity)).
  discriminate.
Qed.

(** * Further properties *)

(** ** [withRetry]: runs, waiting time, thrown [undefined] *)

(** X1: for every [maxAttempts], an operation that fails [k] times, with
    [k < maxAttempts], and then returns is run exactly [k + 1] times and
    its value is returned; an operation that fails [maxAttempts] times
    in a row is run exactly [maxAttempts] times and its last error is
    thrown. *)
Theorem withRetry_runs_counted :
  forall (St A : Type) (operation : M St A) (maxAttempts delay : Z)
         (s s1 : St) (failures : list (string * list Event)),
  FailsTimes operation s failures s1 ->
  (forall a s2 t,
     operation s1 = (Return a, s2, t) ->
     Z.of_nat (List.length failures) < maxAttempts ->
     withRetry (spy operation) maxAttempts delay (0%nat, s) =
     (Return a, (S (List.length failures), s2),
      backoffTrace maxAttempts delay 0 failures ++ t)) /\
  (Z.of_nat (List.length failures) = maxAttempts ->
   failures <> [] ->
   withRetry (spy operation) maxAttempts delay (0%nat, s) =
   (Throw (VError (fst (last failures ("", [])))),
    (List.length failures, s1),
    backoffTrace maxAttempts delay 0 failures)).
Proof.
  intros St A operation maxAttempts delay s s1 failures HF. split.
  - intros a s2 t Hop Hlen.
    apply (withRetry_recovers _ _ (spy operation) maxAttempts delay
             (0%nat, s) failures (List.length failures, s1)).
    + exact (spy_FailsTimes operation s failures s1 HF 0%nat).
    + unfold spy. cbn [fst snd]. rewrite Hop. reflexivity.
    + discriminate.
    + exact Hlen.
  - intros Hlen Hne.
    destruct (exists_last Hne) as [failures' [[message t] Heq]].
    subst failures. rewrite last_last. cbn [fst].
    apply FailsTimes_snoc_inv in HF. destruct HF as [s0 [HF Hop]].
    rewrite length_app in *. cbn [List.length] in *.
    apply (withRetry_exhausted _ _ (spy operation) maxAttempts delay
             (0%nat, s) failures' (List.length failures', s0)).
    + exact (spy_FailsTimes operation s failures' s0 HF 0%nat).
    + unfold spy. cbn [fst snd]. rewrite Hop.
      replace (List.length failures' + 1)%nat
        with (S (List.length failures')) by lia.
      reflexivity.
    + lia.
Qed.

Lemma withRetry_runs_counted_witness :
  fst (withRetry (spy (failsFirst 4 "timeout" "ok")) 7 10 (0%nat, 0%nat))
    = (Return "ok", (5%nat, 5%nat)) /\
  fst (withRetry (spy (alwaysFails "timeout")) 4 10 (0%nat, 0%nat))
    = (Throw (VError "timeout"), (4%nat, 4%nat)).
Proof.
  assert (HF : FailsTimes (failsFirst 4 "timeout" "ok") 0%nat
                 (repeat ("timeout", []) 4) 4%nat).
  { repeat (econstructor; [reflexivity|]). constructor. }
  assert (HG : FailsTimes (alwaysFails "timeout") 0%nat
                 (repeat ("timeout", []) 4) 4%nat).
  { repeat (econstructor; [reflexivity|]). constructor. }
  split.
  - destruct (withRetry_runs_counted nat string
                (failsFirst 4 "timeout" "ok") 7 10 0%nat 4%nat _ HF)
      as [Hrecover _].
    rewrite (Hrecover "ok" 5%nat [] eq_refl ltac:(cbn; lia)). reflexivity.
  - destruct (withRetry_runs_counted nat string
                (alwaysFails "timeout") 4 10 0%nat 4%nat _ HG)
      as [_ Hexhaust].
    rewrite (Hexhaust eq_refl ltac:(discriminate)). reflexivity.
Defined.

Lemma sum_of_doubling delay n :
  fold_right Z.add 0
    (map (fun k => delay * 2 ^ (Z.of_nat k - 1)) (seq 1 n))
  = delay * (2 ^ Z.of_nat n - 1).
Proof.
  induction n as [|n IH].
  - cbn. ring.
  - rewrite seq_S, map_app, fold_right_app. cbn [map fold_right seq].
    assert (Hshift : forall l acc,
              fold_right Z.add acc l = fold_right Z.add 0 l + acc).
    { induction l as [|x l IHl]; intros acc; cbn; [lia|].
      rewrite IHl. lia. }
    rewrite Hshift, IH.
    replace (Z.of_nat (1 + n) - 1) with (Z.of_nat n) by lia.
    rewrite Nat2Z.inj_succ, Z.pow_succ_r by lia. ring.
Qed.

(** X2: the time [withRetry] waits doubles up to a closed sum: after [k]
    failed attempts that leave attempts to spare it has waited
    [delay * (2 ^ k - 1)], and when all [maxAttempts] attempts fail it
    has waited [delay * (2 ^ (maxAttempts - 1) - 1)] before it throws
    (for an operation that does not wait itself). *)
Theorem withRetry_total_wait :
  forall (St A : Type) (operation : M St A) (maxAttempts delay : Z)
         (s s1 : St) (failures : list (string * list Event)),
  FailsTimes operation s failures s1 ->
  Forall (fun f => waits (snd f) = []) failures ->
  (forall o s2 t,
     operation s1 = (o, s2, t) ->
     (forall error, o <> Throw error) ->
     waits t = [] ->
     Z.of_nat (List.length failures) < maxAttempts ->
     totalWait (snd (withRetry operation maxAttempts delay s))
     = delay * (2 ^ Z.of_nat (List.length failures) - 1)) /\
  (Z.of_nat (List.length failures) = maxAttempts ->
   failures <> [] ->
   totalWait (snd (withRetry operation maxAttempts delay s))
   = delay * (2 ^ (maxAttempts - 1) - 1)).
Proof.
  intros St A operation maxAttempts delay s s1 failures HF Hsilent. split.
  - intros o s2 t Hop Ho Ht Hlen.
    rewrite (withRetry_recovers _ _ operation maxAttempts delay s failures
               s1 o s2 t HF Hop Ho Hlen).
    cbn [snd]. unfold totalWait. rewrite waits_app, Ht, app_nil_r.
    rewrite (waits_backoffTrace maxAttempts delay failures Hsilent 0)
      by (cbn; lia).
    replace (Nat.min (List.length failures)
               (Z.to_nat (maxAttempts - 1) - 0))
      with (List.length failures) by lia.
    apply sum_of_doubling.
  - intros Hlen Hne.
    destruct (exists_last Hne) as [failures' [[message t] Heq]].
    subst failures.
    pose proof HF as HF'.
    apply FailsTimes_snoc_inv in HF'. destruct HF' as [s0 [HF' Hop]].
    rewrite length_app in Hlen. cbn [List.length] in Hlen.
    rewrite (withRetry_exhausted _ _ operation maxAttempts delay s failures'
               s0 message t s1 HF' Hop) by lia.
    cbn [snd]. unfold totalWait.
    rewrite (waits_backoffTrace maxAttempts delay _ Hsilent 0)
      by (rewrite length_app; cbn; lia).
    rewrite length_app. cbn [List.length].
    replace (Nat.min (List.length failures' + 1)
               (Z.to_nat (maxAttempts - 1) - 0))
      with (List.length failures') by lia.
    rewrite sum_of_doubling. f_equal. f_equal. f_equal. lia.
Qed.

Lemma withRetry_total_wait_witness :
  totalWait (snd (withRetry (failsFirst 3 "timeout" "ok") 20 1000 0%nat))
    = 7000 /\
  totalWait (snd (withRetry_default (alwaysFails "timeout") 0%nat))
    = 524287000.
Proof.
  assert (HF : FailsTimes (failsFirst 3 "timeout" "ok") 0%nat
                 (repeat ("timeout", []) 3) 3%nat).
  { repeat (econstructor; [reflexivity|]). constructor. }
  assert (HG : FailsTimes (alwaysFails "timeout") 0%nat
                 (repeat ("timeout", []) 20) 20%nat).
  { repeat (econstructor; [reflexivity|]). constructor. }
  split.
  - destruct (withRetry_total_wait nat string (failsFirst 3 "timeout" "ok")
                20 1000 0%nat 3%nat _ HF ltac:(repeat constructor))
      as [Hrecover _].
    exact (Hrecover (Return "ok") 4%nat [] eq_refl ltac:(discriminate)
             eq_refl ltac:(cbn; lia)).
  - destruct (withRetry_total_wait nat string (alwaysFails "timeout")
                20 1000 0%nat 20%nat _ HG ltac:(repeat constructor))
      as [_ Hexhaust].
    exact (Hexhaust eq_refl ltac:(discriminate)).
Defined.

(** X3: when the operation throws [undefined], the [catch] block of
    [withRetry] fails on reading [error.message]: a [TypeError] is
    thrown after this one run, with no report, no wait and no retry.
    So a [withRetry] with no attempt allowed, wrapped in a [withRetry]
    that allows some, throws this [TypeError] and the operation is
    never run. *)
Theorem withRetry_thrown_undefined :
  forall (St A : Type) (operation : M St A) (maxAttempts delay : Z),
  1 <= maxAttempts ->
  (forall runs s s1 t,
     operation s = (Throw VUndefined, s1, t) ->
     withRetry (spy operation) maxAttempts delay (runs, s) =
     (Throw (VError TypeError_message), (S runs, s1), t)) /\
  (forall inner delay' runs s,
     inner < 1 ->
     withRetry (withRetry (spy operation) inner delay') maxAttempts delay
       (runs, s)
     = (Throw (VError TypeError_message), (runs, s), [])).
Proof.
  intros St A operation maxAttempts delay Hle.
  assert (Hone : forall (B : Type) (op : M B A) s s1 t,
            op s = (Throw VUndefined, s1, t) ->
            withRetry op maxAttempts delay s
            = (Throw (VError TypeError_message), s1, t)).
  { intros B op s s1 t Hop. unfold withRetry.
    destruct (Z.to_nat maxAttempts) as [|n] eqn:Hn; [lia|].
    cbn [withRetry_loop].
    assert (H1 : (1 <=? maxAttempts) = true) by (apply Z.leb_le; lia).
    rewrite H1. unfold tryCatch. rewrite Hop.
    cbv [bind of_sum get_message throw]. rewrite app_nil_r. reflexivity. }
  split.
  - intros runs s s1 t Hop. apply Hone.
    unfold spy. cbn [fst snd]. rewrite Hop. reflexivity.
  - intros inner delay' runs s Hinner. apply Hone.
    apply withRetry_no_attempt. exact Hinner.
Qed.

Lemma withRetry_thrown_undefined_witness :
  withRetry (spy throwsUndefined) 20 1000 (0%nat, 0%nat)
    = (Throw (VError TypeError_message), (1%nat, 1%nat), []) /\
  withRetry (withRetry (spy (alwaysFails "timeout")) 0 1000) 20 1000
    (0%nat, 0%nat)
    = (Throw (VError TypeError_message), (0%nat, 0%nat), []).
Proof.
  destruct (withRetry_thrown_undefined nat string throwsUndefined 20 1000
              ltac:(lia)) as [Hthrown _].
  destruct (withRetry_thrown_undefined nat string (alwaysFails "timeout")
              20 1000 ltac:(lia)) as [_ Hnested].
  split.
  - apply Hthrown. reflexivity.
  - apply Hnested. lia.
Defined.

(** ** The stake-account scan: how many requests *)

Lemma requests_app t1 t2 : requests (t1 ++ t2) = requests t1 ++ requests t2.
Proof.
  induction t1 as [|e t1 IH]; cbn; [reflexivity|].
  destruct e; cbn; rewrite IH; reflexivity.
Qed.

(** [withRetry] sends at most as many requests as its attempts send. *)
Lemma withRetry_loop_requests_bound {St A} (operation : M St A) k
    maxAttempts :
  (forall s o s' t, operation s = (o, s', t) ->
     (List.length (requests t) <= k)%nat) ->
  forall n attempt delay lastError s o s' t,
  withRetry_loop operation maxAttempts n attempt delay lastError s
    = (o, s', t) ->
  (List.length (requests t) <= n * k)%nat.
Proof.
  intros Hop.
  induction n as [|n IH]; intros attempt delay lastError s o s' t H.
  - cbn in H. inversion H; subst. cbn. lia.
  - cbn [withRetry_loop] in H. destruct (attempt <=? maxAttempts).
    2:{ inversion H; subst. cbn. lia. }
    unfold tryCatch in H.
    destruct (operation s) as [[o1 s1] t1] eqn:Hrun.
    apply Hop in Hrun.
    destruct o1 as [a|error|].
    + inversion H; subst. lia.
    + destruct error as [|message];
        cbv [bind of_sum get_message throw ret console_error console_log
             sleep emit] in H.
      * inversion H; subst. rewrite app_nil_r. lia.
      * destruct (attempt <? maxAttempts).
        -- destruct (withRetry_loop operation maxAttempts n
                       (attempt + 1) (delay * 2) (VError message) s1)
             as [[o2 s2] t2] eqn:Hrec.
           inversion H; subst. apply IH in Hrec.
           rewrite requests_app, length_app. cbn [app requests].
           lia.
        -- destruct (withRetry_loop operation maxAttempts n
                       (attempt + 1) delay (VError message) s1)
             as [[o2 s2] t2] eqn:Hrec.
           inversion H; subst. apply IH in Hrec.
           rewrite requests_app, length_app. cbn [app requests].
           lia.
    + inversion H; subst. lia.
Qed.

Lemma withRetry_3_fails {St A} (operation : M St A) s message t :
  operation s = (Throw (VError message), s, t) ->
  withRetry operation 3 1000 s =
  (Throw (VError message), s,
   backoffTrace 3 1000 0 (repeat (message, t) 3)).
Proof.
  intros Hop.
  rewrite (withRetry_exhausted St A operation 3 1000 s
             (repeat (message, t) 2) s message t s).
  - reflexivity.
  - apply FailsTimes_repeat. exact Hop.
  - exact Hop.
  - reflexivity.
Qed.

Section ScanRequests.

Variable W : Type.
Variable connection : Connection W.
Variable address : string.

Lemma getStakeAccountsForAddress_requests_bound maxAttempts delay
    w o w' t :
  getStakeAccountsForAddress connection address maxAttempts delay w
    = (o, w', t) ->
  (List.length (requests t) <= Z.to_nat maxAttempts)%nat.
Proof.
  unfold getStakeAccountsForAddress, withRetry. intros H.
  apply (withRetry_loop_requests_bound _ 1%nat) in H; [lia|].
  clear. intros s o s' t H.
  unfold bind at 1, rpc in H.
  destruct (getProgramAccounts connection StakeProgram_programId
              (stakeFilters address) s) as [o1 s1].
  destruct o1; inversion H; subst; cbn; lia.
Qed.

Lemma hasStakeAccount_requests_bound w o w' t :
  hasStakeAccount connection address w = (o, w', t) ->
  (List.length (requests t) <= 3)%nat.
Proof.
  unfold hasStakeAccount, bind. intros H.
  destruct (getStakeAccountsForAddress connection address 3 1000 w)
    as [[o1 s1] t1] eqn:Hget.
  apply getStakeAccountsForAddress_requests_bound in Hget.
  change (Z.to_nat 3) with 3%nat in Hget.
  destruct o1; inversion H; subst; try exact Hget.
  rewrite app_nil_r. exact Hget.
Qed.

Lemma getAssociatedStakeAccounts_requests_bound w o w' t :
  getAssociatedStakeAccounts connection address w = (o, w', t) ->
  (List.length (requests t) <= 60)%nat.
Proof.
  unfold getAssociatedStakeAccounts, withRetry_default, withRetry.
  intros H.
  apply (withRetry_loop_requests_bound _ 3%nat) in H.
  { change (Z.to_nat 20) with 20%nat in H. lia. }
  clear. intros s o s' t H. unfold bind at 1 in H.
  destruct (getStakeAccountsForAddress connection address 3 1000 s)
    as [[o1 s1] t1] eqn:Hget.
  apply getStakeAccountsForAddress_requests_bound in Hget.
  change (Z.to_nat 3) with 3%nat in Hget.
  destruct o1; inversion H; subst; try exact Hget.
  rewrite requests_app, length_app. cbn. lia.
Qed.

Lemma getStakeAccountsForAddress_down w message :
  getProgramAccounts connection StakeProgram_programId
    (stakeFilters address) w = (Throw (VError message), w) ->
  getStakeAccountsForAddress connection address 3 1000 w =
  (Throw (VError message), w,
   backoffTrace 3 1000 0
     (repeat (message,
              [Rpc (ReqGetProgramAccounts StakeProgram_programId
                      (stakeFilters address))]) 3)).
Proof.
  intros Hscan. unfold getStakeAccountsForAddress.
  apply withRetry_3_fails.
  unfold bind, rpc. rewrite Hscan. reflexivity.
Qed.

End ScanRequests.

(** X4: nested retries multiply.  For every connection,
    [hasStakeAccount] sends at most 3 scan requests and
    [getAssociatedStakeAccounts], which retries 20 times an operation
    that itself retries 3 times, at most 60.  When the scan keeps
    failing both bounds are reached: the error is thrown after exactly
    3 requests and 3000 ms of waiting, respectively after exactly 60
    requests and 524347000 ms of waiting. *)
Theorem stake_scan_request_bounds :
  forall (W : Type) (connection : Connection W) (address : string),
  (forall w o w' t,
     hasStakeAccount connection address w = (o, w', t) ->
     (List.length (requests t) <= 3)%nat) /\
  (forall w o w' t,
     getAssociatedStakeAccounts connection address w = (o, w', t) ->
     (List.length (requests t) <= 60)%nat) /\
  (forall w message,
     getProgramAccounts connection StakeProgram_programId
       (stakeFilters address) w = (Throw (VError message), w) ->
     exists t3 t60,
       hasStakeAccount connection address w
         = (Throw (VError message), w, t3) /\
       List.length (requests t3) = 3%nat /\ totalWait t3 = 3000 /\
       getAssociatedStakeAccounts connection address w
         = (Throw (VError message), w, t60) /\
       List.length (requests t60) = 60%nat /\ totalWait t60 = 524347000).
Proof.
  intros W connection address. split; [|split].
  - intros w o w' t H. eapply hasStakeAccount_requests_bound. exact H.
  - intros w o w' t H. eapply getAssociatedStakeAccounts_requests_bound.
    exact H.
  - intros w message Hscan.
    pose proof (getStakeAccountsForAddress_down W connection address w
                  message Hscan) as Hget.
    eexists. eexists. split; [|split; [|split; [|split; [|split]]]].
    + unfold hasStakeAccount. apply bind_Throw. exact Hget.
    + vm_compute. reflexivity.
    + vm_compute. reflexivity.
    + unfold getAssociatedStakeAccounts.
      apply withRetry_default_fails. apply bind_Throw. exact Hget.
    + vm_compute. reflexivity.
    + vm_compute. reflexivity.
Qed.

Lemma stake_scan_request_bounds_witness :
  exists t,
    getAssociatedStakeAccounts
      (withOutage (fun _ => Some "timeout")
         (ledgerConnection authorityLedger)) "A" tt
    = (Throw (VError "timeout"), tt, t) /\
    List.length (requests t) = 60%nat.
Proof.
  destruct (stake_scan_request_bounds unit
              (withOutage (fun _ => Some "timeout")
                 (ledgerConnection authorityLedger)) "A")
    as [_ [_ Hdown]].
  destruct (Hdown tt "timeout" eq_refl)
    as [t3 [t60 [_ [_ [_ [Hrun [Hcount _]]]]]]].
  exists t60. split; [exact Hrun | exact Hcount].
Defined.

(** ** [getSignaturesForAddress]: invalid address, restart, endless source *)

(** X5: the key is built inside the retried operation, so an address
    that the key library rejects is retried like a network failure:
    [getSignaturesForAddress] throws the library's error only after 20
    attempts and 524287000 ms of waiting, without having sent a
    request, and an invalid address given to [getTotalTransactionCount]
    costs the same wait before it is skipped with the total unchanged.
    In [index.js] the error is thrown at once. *)
Theorem invalid_address_is_retried :
  forall PublicKey_new (W : Type) (connection : Connection W)
         (address message commitment : string) (fuel : nat) (w : W),
  PublicKey_new address = inl message ->
  (exists t,
     getSignaturesForAddress PublicKey_new connection fuel address
       commitment w = (Throw (VError message), w, t) /\
     requests t = [] /\
     waits t = map (fun k => 1000 * 2 ^ Z.of_nat k) (seq 0 19) /\
     totalWait t = 524287000) /\
  IndexJs.getSignaturesForAddress PublicKey_new connection fuel address
    commitment w = (Throw (VError message), w, []) /\
  (forall total,
   exists t,
     processAddress_caught PublicKey_new connection fuel address (total, w)
       = (Return tt, (total, w), t) /\
     requests t = [] /\
     totalWait t = 524287000).
Proof.
  intros PublicKey_new W connection address message commitment fuel w Hkey.
  split; [|split].
  - eexists. split; [|split; [|split]].
    + unfold getSignaturesForAddress.
      apply withRetry_default_fails.
      unfold bind, new_PublicKey. rewrite Hkey. reflexivity.
    + vm_compute. reflexivity.
    + vm_compute. reflexivity.
    + vm_compute. reflexivity.
  - unfold IndexJs.getSignaturesForAddress, bind, new_PublicKey.
    rewrite Hkey. reflexivity.
  - intros total. eexists. split; [|split].
    + apply processAddress_caught_Throw.
      apply processAddress_lookup_fails.
      unfold fetchAccountInfo. apply withRetry_default_fails.
      unfold bind, new_PublicKey. rewrite Hkey. reflexivity.
    + vm_compute. reflexivity.
    + vm_compute. reflexivity.
Qed.

Lemma invalid_address_is_retried_witness :
  exists t,
    getTotalTransactionCount test_PublicKey_new
      (ledgerConnection authorityLedger) 1 ["not-an-address"] tt
    = (Return 0, tt, t) /\
    totalWait t = 524287000.
Proof.
  destruct (invalid_address_is_retried test_PublicKey_new unit
              (ledgerConnection authorityLedger) "not-an-address"
              "Invalid public key input" "confirmed" 1 tt eq_refl)
    as [_ [_ Hskip]].
  destruct (Hskip 0) as [t [Hrun [_ Hwait]]].
  exists (t ++ []). split.
  - unfold getTotalTransactionCount. rewrite aggregate_forOf.
    cbn [forOf]. unfold bind. rewrite Hrun. reflexivity.
  - rewrite app_nil_r. exact Hwait.
Defined.

Section Restart.

Variable PublicKey_new : string -> string + PublicKey.
Variable W : Type.
Variable connection : Connection W.
Variable publicKey : PublicKey.
Variable commitment : string.
Variable address : string.

Hypothesis Hkey : PublicKey_new address = inr publicKey.

(** One attempt of [getSignaturesForAddress] on a source that pages. *)
Lemma attempt_Paged fuel w batches w' :
  Paged connection publicKey commitment None w batches w' ->
  (List.length batches <= fuel)%nat ->
  (publicKey <- new_PublicKey PublicKey_new address ;;
   signatures <-
     getSignaturesForAddress_loop connection fuel publicKey commitment
       [] None ;;
   ret {| signatures := signatures |}) w
  = (Return {| signatures := List.concat batches |}, w',
     map Rpc (pageRequests publicKey commitment None batches)).
Proof.
  intros HP Hfuel.
  unfold bind at 1, new_PublicKey. rewrite Hkey. cbn [ret app].
  unfold bind at 1.
  rewrite (loop_Paged W connection publicKey commitment None w batches w'
             HP fuel [] Hfuel).
  cbn [ret app]. rewrite app_nil_r. reflexivity.
Qed.

(** One attempt in which the second page fails. *)
Lemma attempt_fails_midway fuel w batch w1 message w2 :
  connection_getSignaturesForAddress connection publicKey
    (pageOptions None commitment) w = (Return batch, w1) ->
  len batch = 1000 ->
  connection_getSignaturesForAddress connection publicKey
    (pageOptions (cursorAfter batch) commitment) w1
    = (Throw (VError message), w2) ->
  (2 <= fuel)%nat ->
  (publicKey <- new_PublicKey PublicKey_new address ;;
   signatures <-
     getSignaturesForAddress_loop connection fuel publicKey commitment
       [] None ;;
   ret {| signatures := signatures |}) w
  = (Throw (VError message), w2,
     [Rpc (ReqGetSignaturesForAddress publicKey
             (pageOptions None commitment));
      Rpc (ReqGetSignaturesForAddress publicKey
             (pageOptions (cursorAfter batch) commitment))]).
Proof.
  intros Hfirst Hfull Hsecond Hfuel.
  destruct fuel as [|[|fuel]]; try lia.
  unfold bind at 1, new_PublicKey. rewrite Hkey. cbn [ret app].
  unfold bind at 1. cbn [getSignaturesForAddress_loop].
  unfold bind at 1, rpc.
  unfold pageOptions in Hfirst. rewrite Hfirst.
  apply Z.eqb_eq in Hfull. rewrite Hfull.
  unfold bind at 1.
  change (if 0 <? len batch
          then option_map signature
                 (nth_error batch (List.length batch - 1))
          else None) with (cursorAfter batch).
  unfold pageOptions in Hsecond. rewrite Hsecond. reflexivity.
Qed.

End Restart.

(** X6: a failure in the middle of the pagination restarts the whole
    fetch: the next attempt asks again for the first page (no cursor),
    and the batches of the failed attempt are not in the result, which
    holds the batches of the attempt that succeeded only. *)
Theorem getSignaturesForAddress_restarts :
  forall PublicKey_new (W : Type) (connection : Connection W)
         publicKey commitment address fuel
         w batch w1 message w2 batches w3,
  PublicKey_new address = inr publicKey ->
  connection_getSignaturesForAddress connection publicKey
    (pageOptions None commitment) w = (Return batch, w1) ->
  len batch = 1000 ->
  connection_getSignaturesForAddress connection publicKey
    (pageOptions (cursorAfter batch) commitment) w1
    = (Throw (VError message), w2) ->
  Paged connection publicKey commitment None w2 batches w3 ->
  (2 <= fuel)%nat ->
  (List.length batches <= fuel)%nat ->
  getSignaturesForAddress PublicKey_new connection fuel address commitment w
  = (Return {| signatures := List.concat batches |}, w3,
     [Rpc (ReqGetSignaturesForAddress publicKey
             (pageOptions None commitment));
      Rpc (ReqGetSignaturesForAddress publicKey
             (pageOptions (cursorAfter batch) commitment));
      ConsoleError (AttemptFailed 1 20 message);
      ConsoleLog (WaitingBeforeRetry 1000); SetTimeout 1000]
     ++ map Rpc (pageRequests publicKey commitment None batches)).
Proof.
  intros PublicKey_new W connection publicKey commitment address fuel
    w batch w1 message w2 batches w3 Hkey Hfirst Hfull Hsecond HP Hfuel2
    Hfuel.
  unfold getSignaturesForAddress, withRetry_default.
  rewrite (withRetry_recovers _ _ _ 20 1000 w
             [(message,
               [Rpc (ReqGetSignaturesForAddress publicKey
                       (pageOptions None commitment));
                Rpc (ReqGetSignaturesForAddress publicKey
                       (pageOptions (cursorAfter batch) commitment))])]
             w2 (Return {| signatures := List.concat batches |}) w3
             (map Rpc (pageRequests publicKey commitment None batches))).
  - reflexivity.
  - econstructor; [|constructor].
    eapply attempt_fails_midway; eassumption.
  - eapply attempt_Paged; eassumption.
  - discriminate.
  - cbn. lia.
Qed.

Lemma getSignaturesForAddress_restarts_witness :
  fst (getSignaturesForAddress test_PublicKey_new
         (scriptedAnswers failsMidway) 2 "A" "confirmed" 0%nat)
  = (Return {| signatures := mkHistory 0 1005 |}, 4%nat).
Proof.
  rewrite (getSignaturesForAddress_restarts test_PublicKey_new nat
             (scriptedAnswers failsMidway) {| toBase58 := "A" |}
             "confirmed" "A" 2 0%nat (mkHistory 0 1000) 1%nat "timeout"
             2%nat [mkHistory 0 1000; mkHistory 1000 5] 4%nat eq_refl
             eq_refl ltac:(vm_compute; reflexivity) eq_refl).
  - vm_compute. reflexivity.
  - eapply Paged_more; [reflexivity | vm_compute; reflexivity |].
    eapply Paged_last; [reflexivity | vm_compute; discriminate].
  - apply le_n.
  - apply le_n.
Defined.

(** X7: the loop ends only when the source says so: on a source that
    answers every request with exactly 1000 records the loop never
    stops asking (with fuel for [n] iterations it has sent [n] requests
    and has not returned), and [withRetry] does not interrupt it. *)
Theorem endless_source_never_returns :
  forall PublicKey_new (W : Type) (connection : Connection W)
         publicKey commitment address,
  PublicKey_new address = inr publicKey ->
  (forall cursor w, exists batch w',
     connection_getSignaturesForAddress connection publicKey
       (pageOptions cursor commitment) w = (Return batch, w') /\
     len batch = 1000) ->
  forall fuel w,
  (forall signatures cursor, exists w' t,
     getSignaturesForAddress_loop connection fuel publicKey commitment
       signatures cursor w = (Diverge, w', t) /\
     List.length (requests t) = fuel) /\
  (exists w' t,
     getSignaturesForAddress PublicKey_new connection fuel address
       commitment w = (Diverge, w', t) /\
     List.length (requests t) = fuel).
Proof.
  intros PublicKey_new W connection publicKey commitment address Hkey Hfull.
  assert (Hloop : forall fuel w signatures cursor, exists w' t,
            getSignaturesForAddress_loop connection fuel publicKey
              commitment signatures cursor w = (Diverge, w', t) /\
            List.length (requests t) = fuel).
  { induction fuel as [|fuel IH]; intros w signatures cursor.
    - exists w, []. split; reflexivity.
    - destruct (Hfull cursor w) as [batch [w1 [Hcall Hlen]]].
      destruct (IH w1 (signatures ++ batch) (cursorAfter batch))
        as [w' [t [Hrec Hcount]]].
      exists w', (Rpc (ReqGetSignaturesForAddress publicKey
                         (pageOptions cursor commitment)) :: t).
      split; [|cbn; rewrite Hcount; reflexivity].
      cbn [getSignaturesForAddress_loop]. unfold bind at 1, rpc.
      unfold pageOptions in Hcall. rewrite Hcall.
      apply Z.eqb_eq in Hlen. rewrite Hlen.
      change (if 0 <? len batch
              then option_map signature
                     (nth_error batch (List.length batch - 1))
              else None) with (cursorAfter batch).
      rewrite Hrec. reflexivity. }
  intros fuel w. split; [intros; apply Hloop|].
  destruct (Hloop fuel w [] None) as [w' [t [Hrun Hcount]]].
  exists w', t. split; [|exact Hcount].
  unfold getSignaturesForAddress, withRetry_default.
  apply withRetry_first_try; [|discriminate|lia].
  unfold bind at 1, new_PublicKey. rewrite Hkey. cbn [ret app].
  unfold bind at 1. rewrite Hrun. reflexivity.
Qed.

Lemma endless_source_never_returns_witness :
  exists w' t,
    getSignaturesForAddress test_PublicKey_new
      (scriptedSource (fun _ => mkHistory 0 1000)) 7 "A" "confirmed" 0%nat
    = (Diverge, w', t) /\
    List.length (requests t) = 7%nat.
Proof.
  destruct (endless_source_never_returns test_PublicKey_new nat
              (scriptedSource (fun _ => mkHistory 0 1000))
              {| toBase58 := "A" |} "confirmed" "A" eq_refl) with
    (fuel := 7%nat) (w := 0%nat) as [_ Hrun].
  - intros cursor w. exists (mkHistory 0 1000), (S w).
    split; [reflexivity | vm_compute; reflexivity].
  - exact Hrun.
Defined.

(** X8: on a ledger that does not change, whatever the length of the
    history of a key (with distinct signatures), the fetch returns the
    history whole and in order, in [length / 1000 + 1] requests; so
    does the function of [index.js]. *)
Theorem static_history_is_complete :
  forall PublicKey_new (L : Ledger) publicKey commitment address fuel,
  PublicKey_new address = inr publicKey ->
  NoDup (map signature (ledger_history L publicKey)) ->
  (List.length (ledger_history L publicKey) / 1000 < fuel)%nat ->
  exists t,
    getSignaturesForAddress PublicKey_new (ledgerConnection L) fuel address
      commitment tt
    = (Return {| signatures := ledger_history L publicKey |}, tt, t) /\
    IndexJs.getSignaturesForAddress PublicKey_new (ledgerConnection L) fuel
      address commitment tt
    = (Return {| signatures := ledger_history L publicKey |}, tt, t) /\
    List.length (requests t)
    = (List.length (ledger_history L publicKey) / 1000 + 1)%nat.
Proof.
  intros PublicKey_new L publicKey commitment address fuel Hkey Hnd Hfuel.
  destruct (ledger_pages L (fun _ => None) publicKey commitment
              (fun _ => eq_refl) Hnd) as [batches [HP [Hcat Hcount]]].
  exists (map Rpc (pageRequests publicKey commitment None batches)).
  split; [|split].
  - rewrite <- Hcat.
    eapply getSignaturesForAddress_Paged; [exact Hkey | exact HP | lia].
  - rewrite <- Hcat.
    eapply IndexJs_getSignaturesForAddress_Paged;
      [exact Hkey | exact HP | lia].
  - rewrite requests_map_Rpc, pageRequests_length. exact Hcount.
Qed.

Lemma static_history_is_complete_witness :
  exists t,
    getSignaturesForAddress test_PublicKey_new
      (ledgerConnection (ledgerOfHistory (mkHistory 0 2345))) 3 "A"
      "confirmed" tt
    = (Return {| signatures := mkHistory 0 2345 |}, tt, t) /\
    List.length (requests t) = 3%nat.
Proof.
  destruct (static_history_is_complete test_PublicKey_new
              (ledgerOfHistory (mkHistory 0 2345)) {| toBase58 := "A" |}
              "confirmed" "A" 3 eq_refl
              ltac:(apply distinctb_NoDup; vm_compute; reflexivity)
              ltac:(vm_compute; apply le_n))
    as [t [Hrun [_ Hcount]]].
  exists t. split; [exact Hrun | exact Hcount].
Defined.

(** ** The address loader: order, reports, unreadable file, file format *)

Lemma collect_fold_left PublicKey_new lines :
  forall addresses,
  collect PublicKey_new lines addresses =
  fold_left Set_add
    (filter (validAddress PublicKey_new) (map trim lines)) addresses.
Proof.
  induction lines as [|line lines IH]; intros addresses; cbn.
  - reflexivity.
  - destruct (validAddress PublicKey_new (trim line)); cbn; apply IH.
Qed.

Lemma fold_left_Set_add_first_occurrences l :
  fold_left Set_add l [] = rev (nodup string_dec (rev l)).
Proof.
  induction l as [|x l IH] using rev_ind.
  - reflexivity.
  - rewrite fold_left_app. cbn [fold_left]. rewrite IH.
    rewrite rev_app_distr. cbn [rev app nodup].
    unfold Set_add.
    destruct (in_dec string_dec x (rev l)) as [Hin|Hnotin].
    + assert (Hhas : Set_has (rev (nodup string_dec (rev l))) x = true).
      { apply Set_has_In. rewrite <- in_rev. apply nodup_In. exact Hin. }
      rewrite Hhas. reflexivity.
    + assert (Hhas : Set_has (rev (nodup string_dec (rev l))) x = false).
      { destruct (Set_has (rev (nodup string_dec (rev l))) x) eqn:H;
          [|reflexivity].
        exfalso. apply Hnotin. apply Set_has_In in H.
        rewrite <- in_rev in H. apply nodup_In in H. exact H. }
      rewrite Hhas. reflexivity.
Qed.

(** X9: the loader keeps the order of the file: its result lists the
    valid trimmed lines in the order of their first occurrence (the
    candidates with every later repetition removed). *)
Theorem readAddresses_keeps_first_occurrences :
  forall PublicKey_new (W : Type) (fs : FileSystem W) filePath w data w',
  readFile fs filePath w = (Return data, w') ->
  let candidates :=
    filter (validAddress PublicKey_new)
           (map trim (split_LF (trim data))) in
  exists t,
    readAddressesFromFile PublicKey_new fs filePath w
      = (Return (rev (nodup string_dec (rev candidates))), w', t) /\
    forall String_of,
    IndexJs.readAddressesFromFile PublicKey_new fs String_of filePath w
      = (Return (rev (nodup string_dec (rev candidates))), w', t).
Proof.
  intros PublicKey_new W fs filePath w data w' Hread candidates.
  destruct (readAddresses_loop_collect PublicKey_new
              (split_LF (trim data)) [] w') as [t Ht].
  rewrite collect_fold_left, fold_left_Set_add_first_occurrences in Ht.
  fold candidates in Ht.
  exists (ReadFile filePath :: t). split.
  - unfold readAddressesFromFile, withRetry_default.
    apply withRetry_first_try; [|apply Return_not_Throw|lia].
    unfold bind at 1, fs_readFile. rewrite Hread.
    unfold bind at 1. rewrite Ht. unfold ret, Array_from.
    cbn [app]. rewrite app_nil_r. reflexivity.
  - intros String_of. unfold IndexJs.readAddressesFromFile.
    unfold bind at 1, tryCatch.
    unfold bind at 1, fs_readFile. rewrite Hread. rewrite Ht.
    unfold ret, Array_from. cbn [app]. rewrite app_nil_r. reflexivity.
Qed.

Lemma readAddresses_keeps_first_occurrences_witness :
  fst (readAddressesFromFile test_PublicKey_new
         (constFile (fileOf ["B"; "A"; " B "; "no good"; "C"; "A"]))
         "addresses.txt" tt)
  = (Return ["B"; "A"; "C"], tt).
Proof.
  destruct (readAddresses_keeps_first_occurrences test_PublicKey_new unit
              (constFile (fileOf ["B"; "A"; " B "; "no good"; "C"; "A"]))
              "addresses.txt" tt _ tt eq_refl) as [t [Hrun _]].
  rewrite Hrun. vm_compute. reflexivity.
Defined.

Lemma readAddresses_loop_trace PublicKey_new {W} lines :
  forall addresses (w : W),
  snd (readAddresses_loop PublicKey_new lines addresses w) =
  map ConsoleError (flat_map (lineReport PublicKey_new) lines).
Proof.
  induction lines as [|line lines IH]; intros addresses w.
  - reflexivity.
  - cbn [readAddresses_loop flat_map]. unfold bind at 1.
    rewrite isValidSolanaAddress_run. unfold lineReport at 1.
    destruct (validAddress PublicKey_new (trim line)).
    + specialize (IH (Set_add addresses (trim line)) w).
      destruct (readAddresses_loop PublicKey_new lines
                  (Set_add addresses (trim line)) w) as [[o s2] t2].
      cbn in IH |- *. rewrite IH. reflexivity.
    + unfold bind at 1. cbn [console_error emit].
      specialize (IH addresses w).
      destruct (readAddresses_loop PublicKey_new lines addresses w)
        as [[o s2] t2].
      cbn in IH |- *. rewrite IH. reflexivity.
Qed.

(** X10: no line is dropped silently.  The loader writes to the console
    exactly two error lines for each line that the key library rejects
    ('Address is invalid', then 'Invalid address: ..., skipping...'), in
    the order of the file, and nothing for a valid line.  A blank line
    is such a rejected line when the empty string is not a valid key,
    so an empty file gives an empty list and one report. *)
Theorem invalid_lines_are_reported :
  forall PublicKey_new (W : Type) (fs : FileSystem W),
  (forall lines addresses (w : W),
     snd (readAddresses_loop PublicKey_new lines addresses w) =
     map ConsoleError (flat_map (lineReport PublicKey_new) lines)) /\
  (forall filePath w data w',
     readFile fs filePath w = (Return data, w') ->
     consoleErrors
       (snd (readAddressesFromFile PublicKey_new fs filePath w))
     = flat_map (lineReport PublicKey_new) (split_LF (trim data))) /\
  (forall filePath w data w',
     readFile fs filePath w = (Return data, w') ->
     trim data = "" ->
     validAddress PublicKey_new "" = false ->
     readAddressesFromFile PublicKey_new fs filePath w
     = (Return [], w',
        [ReadFile filePath; ConsoleError AddressIsInvalid;
         ConsoleError (InvalidAddressSkipping "")])).
Proof.
  intros PublicKey_new W fs.
  assert (Hrun : forall filePath w data w',
            readFile fs filePath w = (Return data, w') ->
            readAddressesFromFile PublicKey_new fs filePath w
            = (Return (collect PublicKey_new (split_LF (trim data)) []), w',
               ReadFile filePath
               :: map ConsoleError
                    (flat_map (lineReport PublicKey_new)
                       (split_LF (trim data))))).
  { intros filePath w data w' Hread.
    destruct (readAddresses_loop_collect PublicKey_new
                (split_LF (trim data)) [] w') as [t Ht].
    pose proof (readAddresses_loop_trace PublicKey_new
                  (split_LF (trim data)) [] w') as Htrace.
    rewrite Ht in Htrace. cbn [snd] in Htrace. subst t.
    unfold readAddressesFromFile, withRetry_default.
    apply withRetry_first_try; [|apply Return_not_Throw|lia].
    unfold bind at 1, fs_readFile. rewrite Hread.
    unfold bind at 1. rewrite Ht. unfold ret, Array_from.
    cbn [app]. rewrite app_nil_r. reflexivity. }
  split; [|split].
  - intros. apply readAddresses_loop_trace.
  - intros filePath w data w' Hread. rewrite (Hrun _ _ _ _ Hread).
    cbn [snd consoleErrors].
    induction (flat_map (lineReport PublicKey_new) (split_LF (trim data)))
      as [|m l IH]; cbn; [reflexivity | rewrite IH; reflexivity].
  - intros filePath w data w' Hread Hempty Hinvalid.
    rewrite (Hrun _ _ _ _ Hread). rewrite Hempty.
    cbn [split_LF collect flat_map map app]. unfold lineReport.
    change (trim "") with "". rewrite Hinvalid. reflexivity.
Qed.

Lemma invalid_lines_are_reported_witness :
  readAddressesFromFile test_PublicKey_new (constFile "  ")
    "addresses.txt" tt
  = (Return [], tt,
     [ReadFile "addresses.txt"; ConsoleError AddressIsInvalid;
      ConsoleError (InvalidAddressSkipping "")]).
Proof.
  destruct (invalid_lines_are_reported test_PublicKey_new unit
              (constFile "  ")) as [_ [_ Hempty]].
  apply (Hempty "addresses.txt" tt "  " tt); reflexivity.
Defined.

Lemma fileReads_backoffTrace maxAttempts delay message filePath n :
  forall i,
  fileReads (backoffTrace maxAttempts delay i
               (repeat (message, [ReadFile filePath]) n))
  = repeat filePath n.
Proof.
  induction n as [|n IH]; intros i; cbn [repeat backoffTrace].
  - reflexivity.
  - cbn [app fileReads]. f_equal.
    destruct (Z.of_nat i + 1 <? maxAttempts); cbn [app fileReads];
      apply IH.
Qed.

(** X11: a file that cannot be read.  With [withRetry] the read is
    tried 20 times, with the doubling waits in between (524287000 ms in
    all), and the error of the file system is thrown as it is; in
    [index.js] the file is read once and an [Error] is thrown whose
    message is 'Error reading file: ' followed by the string that the
    value thrown makes of itself, whatever that string is (for a plain
    [Error] with the message ENOENT: 'Error: ENOENT'). *)
Theorem unreadable_file :
  forall PublicKey_new (W : Type) (fs : FileSystem W) filePath w message,
  (readFile fs filePath w = (Throw (VError message), w) ->
   exists t,
     readAddressesFromFile PublicKey_new fs filePath w
       = (Throw (VError message), w, t) /\
     fileReads t = repeat filePath 20 /\
     totalWait t = 524287000) /\
  (forall String_of w' error,
   readFile fs filePath w = (Throw error, w') ->
   IndexJs.readAddressesFromFile PublicKey_new fs String_of filePath w
   = (Throw (VError ("Error reading file: " ++ String_of error)%string),
      w', [ReadFile filePath])).
Proof.
  intros PublicKey_new W fs filePath w message. split.
  - intros Hread. eexists. split; [|split].
    + unfold readAddressesFromFile. apply withRetry_default_fails.
      unfold bind, fs_readFile. rewrite Hread. reflexivity.
    + apply fileReads_backoffTrace.
    + vm_compute. reflexivity.
  - intros String_of w' error Hread. unfold IndexJs.readAddressesFromFile.
    unfold bind at 1, tryCatch. unfold bind at 1, fs_readFile.
    rewrite Hread. cbn [throw app]. reflexivity.
Qed.

Lemma unreadable_file_witness :
  (exists t,
     readAddressesFromFile test_PublicKey_new (brokenFile "ENOENT")
       "addresses.txt" tt = (Throw (VError "ENOENT"), tt, t) /\
     fileReads t = repeat "addresses.txt" 20) /\
  IndexJs.readAddressesFromFile test_PublicKey_new (brokenFile "ENOENT")
    Error_toString "addresses.txt" tt
  = (Throw (VError "Error reading file: Error: ENOENT"), tt,
     [ReadFile "addresses.txt"]).
Proof.
  destruct (unreadable_file test_PublicKey_new unit (brokenFile "ENOENT")
              "addresses.txt" tt "ENOENT") as [Hretry Hindex].
  split.
  - destruct (Hretry eq_refl) as [t [Hrun [Hreads _]]].
    exists t. split; [exact Hrun | exact Hreads].
  - apply (Hindex Error_toString tt (VError "ENOENT")). reflexivity.
Defined.

Section FileFormat.

Local Open Scope string_scope.

Lemma append_nil_r (s : string) : s ++ "" = s.
Proof. induction s as [|c s IH]; cbn; [|rewrite IH]; reflexivity. Qed.

Lemma append_assoc (a b c : string) : (a ++ b) ++ c = a ++ (b ++ c).
Proof. induction a as [|x a IH]; cbn; [|rewrite IH]; reflexivity. Qed.

Lemma trimEnd_noWhiteSpace s : noWhiteSpace s = true -> trimEnd s = s.
Proof.
  induction s as [|c s IH]; cbn; [reflexivity|].
  intros H. apply andb_prop in H. destruct H as [Hc Hs].
  rewrite (IH Hs). destruct s; [|reflexivity].
  apply negb_true_iff in Hc. rewrite Hc. reflexivity.
Qed.

Lemma trimEnd_app_fixed a b :
  b <> "" -> trimEnd b = b -> trimEnd (a ++ b) = a ++ b.
Proof.
  intros Hne Hb. induction a as [|c a IH]; cbn; [exact Hb|].
  rewrite IH. destruct (a ++ b) eqn:Hab; [|reflexivity].
  exfalso. destruct a; cbn in Hab; [contradiction|discriminate].
Qed.

Lemma trimEnd_app_white_char s c :
  isWhiteSpace c = true -> trimEnd (s ++ String c "") = trimEnd s.
Proof.
  intros Hc. induction s as [|x s IH]; cbn.
  - rewrite Hc. reflexivity.
  - rewrite IH. reflexivity.
Qed.

Lemma trimEnd_app_white s q :
  allWhiteSpace q = true -> trimEnd (s ++ q) = trimEnd s.
Proof.
  revert s. induction q as [|c q IH]; intros s Hq.
  - rewrite append_nil_r. reflexivity.
  - cbn in Hq. apply andb_prop in Hq. destruct Hq as [Hc Hq].
    change (String c q) with (String c "" ++ q).
    rewrite <- append_assoc. rewrite (IH _ Hq).
    apply trimEnd_app_white_char. exact Hc.
Qed.

Lemma trimStart_app_white p s :
  allWhiteSpace p = true -> trimStart (p ++ s) = trimStart s.
Proof.
  induction p as [|c p IH]; cbn; [reflexivity|].
  intros H. apply andb_prop in H. destruct H as [Hc Hp].
  rewrite Hc. apply IH. exact Hp.
Qed.

Lemma trimStart_word l r : isWord l = true -> trimStart (l ++ r) = l ++ r.
Proof.
  unfold isWord. intros H. apply andb_prop in H. destruct H as [Hne Hl].
  destruct l as [|c l]; [discriminate|].
  cbn in Hl |- *. apply andb_prop in Hl. destruct Hl as [Hc _].
  apply negb_true_iff in Hc. rewrite Hc. reflexivity.
Qed.

Lemma isWord_nonempty l : isWord l = true -> l <> "".
Proof. intros H Heq. subst l. discriminate. Qed.

Lemma isWord_noWhiteSpace l : isWord l = true -> noWhiteSpace l = true.
Proof. unfold isWord. intros H. apply andb_prop in H. apply H. Qed.

Lemma trim_paddedWord line word :
  isWord word = true -> paddedWord line word -> trim line = word.
Proof.
  intros Hw [p [q [Hp [Hq Heq]]]]. subst line. unfold trim.
  rewrite (trimStart_app_white p _ Hp).
  rewrite (trimStart_word word q Hw).
  rewrite (trimEnd_app_white word q Hq).
  apply trimEnd_noWhiteSpace. apply isWord_noWhiteSpace. exact Hw.
Qed.

Lemma noWhiteSpace_split l rest :
  noWhiteSpace l = true ->
  split_LF (l ++ String LF rest) = l :: split_LF rest.
Proof.
  induction l as [|c l IH]; intros H.
  - reflexivity.
  - cbn in H. apply andb_prop in H. destruct H as [Hc Hl].
    cbn [append split_LF].
    assert (Hlf : Ascii.eqb c LF = false).
    { destruct (Ascii.eqb_spec c LF) as [Heq|]; [|reflexivity].
      subst c. discriminate. }
    rewrite Hlf. rewrite (IH Hl). reflexivity.
Qed.

Lemma noWhiteSpace_split_one l :
  noWhiteSpace l = true -> split_LF l = [l].
Proof.
  induction l as [|c l IH]; intros H.
  - reflexivity.
  - cbn in H. apply andb_prop in H. destruct H as [Hc Hl].
    cbn [split_LF].
    assert (Hlf : Ascii.eqb c LF = false).
    { destruct (Ascii.eqb_spec c LF) as [Heq|]; [|reflexivity].
      subst c. discriminate. }
    rewrite Hlf. rewrite (IH Hl). reflexivity.
Qed.

Lemma fileOf_cons x y r :
  fileOf (x :: y :: r) = x ++ String LF (fileOf (y :: r)).
Proof. reflexivity. Qed.

Lemma fileOf_words lines :
  lines <> [] ->
  Forall (fun l => isWord l = true) lines ->
  fileOf lines <> "" /\
  trimEnd (fileOf lines) = fileOf lines /\
  trimStart (fileOf lines) = fileOf lines /\
  split_LF (fileOf lines) = lines.
Proof.
  induction lines as [|x lines IH]; intros Hne Hall; [contradiction|].
  inversion Hall as [|? ? Hx Hrest]; subst.
  destruct lines as [|y r].
  - change (fileOf [x]) with x. split; [|split; [|split]].
    + apply isWord_nonempty. exact Hx.
    + apply trimEnd_noWhiteSpace. apply isWord_noWhiteSpace. exact Hx.
    + rewrite <- (append_nil_r x). apply trimStart_word. exact Hx.
    + apply noWhiteSpace_split_one. apply isWord_noWhiteSpace. exact Hx.
  - destruct (IH ltac:(discriminate) Hrest) as [Hne' [Hend [_ Hsplit]]].
    rewrite fileOf_cons. split; [|split; [|split]].
    + destruct x; [discriminate Hx|discriminate].
    + apply trimEnd_app_fixed; [discriminate|].
      change (String LF (fileOf (y :: r)))
        with (String LF "" ++ fileOf (y :: r)).
      apply trimEnd_app_fixed; assumption.
    + apply trimStart_word. exact Hx.
    + rewrite noWhiteSpace_split by (apply isWord_noWhiteSpace; exact Hx).
      rewrite Hsplit. reflexivity.
Qed.

End FileFormat.

(** X12: the file format, read back.  A file that holds one address per
    line (non-empty words without white space) is split back into these
    lines, whether or not it ends with a newline; and white space around
    the word of a line, a carriage return included, does not change
    what is loaded. *)
Theorem address_file_round_trip :
  forall PublicKey_new (lines : list string),
  lines <> [] ->
  Forall (fun l => isWord l = true) lines ->
  split_LF (trim (fileOf lines)) = lines /\
  split_LF (trim (String.append (fileOf lines) (String LF ""))) = lines /\
  (forall padded,
     Forall2 paddedWord padded lines ->
     collect PublicKey_new padded [] = collect PublicKey_new lines []).
Proof.
  intros PublicKey_new lines Hne Hall.
  destruct (fileOf_words lines Hne Hall) as [Hfile [Hend [Hstart Hsplit]]].
  split; [|split].
  - unfold trim. rewrite Hstart, Hend. exact Hsplit.
  - unfold trim.
    assert (Hs : trimStart (String.append (fileOf lines) (String LF ""))
                 = String.append (fileOf lines) (String LF "")).
    { destruct lines as [|x r]; [contradiction|].
      inversion Hall as [|? ? Hx _]; subst.
      destruct r as [|y r].
      - change (fileOf [x]) with x. apply trimStart_word. exact Hx.
      - rewrite fileOf_cons, append_assoc. apply trimStart_word. exact Hx. }
    rewrite Hs. rewrite trimEnd_app_white_char by reflexivity.
    rewrite Hend. exact Hsplit.
  - intros padded Hpad. rewrite !collect_fold_left.
    assert (Hmap : map trim padded = map trim lines).
    { clear Hne Hfile Hend Hstart Hsplit.
      induction Hpad as [|line word padded lines Hp Hrest IH].
      - reflexivity.
      - inversion Hall as [|? ? Hw Hall']; subst. cbn [map].
        rewrite (trim_paddedWord line word Hw Hp).
        rewrite (IH Hall').
        f_equal. symmetry. apply trim_paddedWord; [exact Hw|].
        exists "", "". repeat split. cbn. symmetry. apply append_nil_r. }
    rewrite Hmap. reflexivity.
Qed.

Lemma address_file_round_trip_witness :
  split_LF (trim (String.append (fileOf ["A"; "B"; "C"]) (String LF "")))
    = ["A"; "B"; "C"] /\
  collect test_PublicKey_new
    [String.append "A" (String CR ""); "  B"; String.append "C" " "] []
  = collect test_PublicKey_new ["A"; "B"; "C"] [].
Proof.
  destruct (address_file_round_trip test_PublicKey_new ["A"; "B"; "C"]
              ltac:(discriminate) ltac:(repeat constructor))
    as [_ [Hnewline Hpadded]].
  split; [exact Hnewline|].
  apply Hpadded.
  constructor; [exists "", (String CR ""); repeat split|].
  constructor; [exists "  ", ""; repeat split|].
  constructor; [exists "", " "; repeat split|].
  constructor.
Defined.

(** ** The aggregation: what the total can do *)

Section Monotone.

Variable W : Type.

(** A computation that never lowers [totalTransactions]. *)
Let nondecreasing {A} (m : M (Z * W) A) : Prop :=
  forall s o s' t, m s = (o, s', t) -> fst s <= fst s'.

Lemma nondecreasing_bind {A B} (m : M (Z * W) A) (k : A -> M (Z * W) B) :
  nondecreasing m -> (forall a, nondecreasing (k a)) ->
  nondecreasing (bind m k).
Proof.
  intros Hm Hk s o s' t H. unfold bind in H.
  destruct (m s) as [[o1 s1] t1] eqn:H1. apply Hm in H1.
  destruct o1 as [a| |].
  - destruct (k a s1) as [[o2 s2] t2] eqn:H2. apply Hk in H2.
    inversion H; subst. lia.
  - inversion H; subst. exact H1.
  - inversion H; subst. exact H1.
Qed.

Lemma nondecreasing_tryCatch {A} (m : M (Z * W) A) handler :
  nondecreasing m -> (forall error, nondecreasing (handler error)) ->
  nondecreasing (tryCatch m handler).
Proof.
  intros Hm Hh s o s' t H. unfold tryCatch in H.
  destruct (m s) as [[o1 s1] t1] eqn:H1. apply Hm in H1.
  destruct o1 as [a|error|].
  - inversion H; subst. exact H1.
  - destruct (handler error s1) as [[o2 s2] t2] eqn:H2. apply Hh in H2.
    inversion H; subst. lia.
  - inversion H; subst. exact H1.
Qed.

Lemma nondecreasing_lift {A} (m : M W A) : nondecreasing (lift m).
Proof.
  intros s o s' t H. unfold lift in H.
  destruct (m (snd s)) as [[o1 w1] t1]. inversion H; subst. cbn. lia.
Qed.

Lemma nondecreasing_emit e : nondecreasing (emit e).
Proof. intros s o s' t H. inversion H; subst. lia. Qed.

Lemma nondecreasing_getLocal : nondecreasing getLocal.
Proof. intros s o s' t H. inversion H; subst. lia. Qed.

Lemma nondecreasing_addTotal {X} (array : list X) :
  nondecreasing (addTotal (len array)).
Proof.
  intros s o s' t H. inversion H; subst. cbn. unfold len. lia.
Qed.

Lemma nondecreasing_forOf {X} (xs : list X) body :
  (forall x, nondecreasing (body x)) -> nondecreasing (forOf xs body).
Proof.
  intros Hbody. induction xs as [|x xs IH].
  - intros s o s' t H. inversion H; subst. lia.
  - cbn [forOf]. apply nondecreasing_bind; [apply Hbody|].
    intros _. exact IH.
Qed.

Ltac nondecreasing_step :=
  first
    [ apply nondecreasing_lift
    | apply nondecreasing_addTotal
    | apply nondecreasing_getLocal
    | apply nondecreasing_emit
    | apply nondecreasing_forOf; intros
    | apply nondecreasing_bind; [|intros]
    | match goal with
      | |- nondecreasing (if ?b then _ else _) => destruct b
      end ].

Variable PublicKey_new : string -> string + PublicKey.
Variable connection : Connection W.
Variable fuel : nat.

Lemma processAddress_nondecreasing address :
  nondecreasing (processAddress PublicKey_new connection fuel address).
Proof.
  unfold processAddress, console_log. repeat nondecreasing_step.
Qed.

Lemma IndexJs_processAddress_nondecreasing address :
  nondecreasing
    (IndexJs.processAddress PublicKey_new connection fuel address).
Proof.
  unfold IndexJs.processAddress, console_log. repeat nondecreasing_step.
Qed.

Lemma processAddress_caught_nondecreasing address :
  nondecreasing
    (processAddress_caught PublicKey_new connection fuel address).
Proof.
  unfold processAddress_caught. apply nondecreasing_tryCatch.
  - apply processAddress_nondecreasing.
  - intros error. apply nondecreasing_emit.
Qed.

Lemma total_never_decreases_all :
  (forall address total w o total' w' t,
     processAddress PublicKey_new connection fuel address (total, w)
       = (o, (total', w'), t) -> total <= total') /\
  (forall addresses total w total' w' t,
     aggregate PublicKey_new connection fuel addresses total w
       = (Return total', w', t) -> total <= total') /\
  (forall addresses w total' w' t,
     IndexJs.getTotalTransactionCount PublicKey_new connection fuel
       addresses w = (Return total', w', t) -> 0 <= total').
Proof.
  split; [|split].
  - intros address total w o total' w' t H.
    apply processAddress_nondecreasing in H. exact H.
  - intros addresses total w total' w' t H.
    rewrite aggregate_forOf in H.
    destruct (forOf addresses _ (total, w)) as [[o1 s1] t1] eqn:Hloop.
    apply (nondecreasing_forOf addresses _
             processAddress_caught_nondecreasing) in Hloop.
    destruct o1; inversion H; subst. exact Hloop.
  - intros addresses w total' w' t H.
    unfold IndexJs.getTotalTransactionCount, withLocal, bind in H.
    destruct (forOf addresses _ (0, w)) as [[o1 s1] t1] eqn:Hloop.
    apply (nondecreasing_forOf addresses _
             IndexJs_processAddress_nondecreasing) in Hloop.
    destruct o1; inversion H; subst. exact Hloop.
Qed.

End Monotone.

(** X13: for every connection, whatever it answers and wherever it
    fails, the running total never goes down: an address, also one whose
    processing fails, leaves the total at least where it found it, and
    the value that [getTotalTransactionCount] returns (with [withRetry]
    and in [index.js]) is not negative. *)
Theorem total_never_decreases :
  forall PublicKey_new (W : Type) (connection : Connection W) (fuel : nat),
  (forall address total w o total' w' t,
     processAddress PublicKey_new connection fuel address (total, w)
       = (o, (total', w'), t) -> total <= total') /\
  (forall addresses w total w' t,
     getTotalTransactionCount PublicKey_new connection fuel addresses w
       = (Return total, w', t) -> 0 <= total) /\
  (forall addresses w total w' t,
     IndexJs.getTotalTransactionCount PublicKey_new connection fuel
       addresses w = (Return total, w', t) -> 0 <= total).
Proof.
  intros PublicKey_new W connection fuel.
  destruct (total_never_decreases_all W PublicKey_new connection fuel)
    as [Hone [Hall Hindex]].
  split; [exact Hone|]. split; [|exact Hindex].
  intros addresses w total w' t H.
  apply (Hall addresses 0 w total w' t). exact H.
Qed.

Lemma total_never_decreases_witness :
  fst (processAddress test_PublicKey_new
         (withOutage signaturesOfSDown (ledgerConnection authorityLedger))
         1 "A" (0, tt))
  = (Throw (VError "timeout"), (2, tt)) /\
  0 <= 2.
Proof.
  destruct (total_never_decreases test_PublicKey_new unit
              (withOutage signaturesOfSDown
                 (ledgerConnection authorityLedger)) 1%nat)
    as [Hone _].
  split; [vm_compute; reflexivity|].
  exact (Hone "A" 0 tt (Throw (VError "timeout")) 2 tt
           (snd (processAddress test_PublicKey_new
                   (withOutage signaturesOfSDown
                      (ledgerConnection authorityLedger)) 1 "A" (0, tt)))
           ltac:(vm_compute; reflexivity)).
Defined.

(** ** [index.js]: no fault isolation, same total when nothing fails *)

Section IndexJsAbort.

Variable PublicKey_new : string -> string + PublicKey.
Variable W : Type.
Variable connection : Connection W.
Variable fuel : nat.

Lemma IndexJs_getTotalTransactionCount_forOf addresses w :
  IndexJs.getTotalTransactionCount PublicKey_new connection fuel addresses w
  = match forOf addresses
            (IndexJs.processAddress PublicKey_new connection fuel) (0, w)
    with
    | (Return _, s, t) => (Return (fst s), snd s, t)
    | (Throw error, s, t) => (Throw error, snd s, t)
    | (Diverge, s, t) => (Diverge, snd s, t)
    end.
Proof.
  unfold IndexJs.getTotalTransactionCount, withLocal, bind.
  destruct (forOf addresses _ (0, w)) as [[o s] t].
  destruct o; cbn; try reflexivity.
  rewrite app_nil_r. reflexivity.
Qed.

Lemma IndexJs_processAddress_invalid address message total w :
  PublicKey_new address = inl message ->
  IndexJs.processAddress PublicKey_new connection fuel address (total, w)
  = (Throw (VError message), (total, w),
     [ConsoleLog (ProcessingAddress address)]).
Proof.
  intros Hkey. unfold IndexJs.processAddress.
  change [ConsoleLog (ProcessingAddress address)]
    with ([ConsoleLog (ProcessingAddress address)] ++ []).
  eapply bind_runs; [apply console_log_runs|]. cbv beta.
  apply bind_Throw. apply lift_runs.
  unfold IndexJs.fetchAccountInfo, bind, new_PublicKey. rewrite Hkey.
  reflexivity.
Qed.

Lemma IndexJs_aborts pre address post w0 total1 w1 t1 error total2 w2 t2 :
  IndexJs.getTotalTransactionCount PublicKey_new connection fuel pre w0
    = (Return total1, w1, t1) ->
  IndexJs.processAddress PublicKey_new connection fuel address (total1, w1)
    = (Throw error, (total2, w2), t2) ->
  IndexJs.getTotalTransactionCount PublicKey_new connection fuel
    (pre ++ address :: post) w0
  = (Throw error, w2, t1 ++ t2).
Proof.
  intros Hpre Hfail.
  rewrite IndexJs_getTotalTransactionCount_forOf in Hpre.
  rewrite IndexJs_getTotalTransactionCount_forOf. rewrite forOf_app.
  destruct (forOf pre _ (0, w0)) as [[o1 [total1' w1']] t1'].
  destruct o1 as [[]|e|]; try discriminate.
  cbn in Hpre. inversion Hpre; subst. clear Hpre.
  cbn [forOf]. unfold bind at 1. rewrite Hfail. reflexivity.
Qed.

End IndexJsAbort.

(** X14: [index.js] has no [try] around the loop body: the first
    address whose processing fails ends the run with its error; the
    addresses after it are not processed and the counts gathered so far
    are lost to the caller.  An address that the key library rejects is
    such a failure, thrown before any request is sent for it. *)
Theorem IndexJs_first_failure_aborts :
  forall PublicKey_new (W : Type) (connection : Connection W) (fuel : nat),
  (forall pre address post w0 total1 w1 t1 error total2 w2 t2,
     IndexJs.getTotalTransactionCount PublicKey_new connection fuel pre w0
       = (Return total1, w1, t1) ->
     IndexJs.processAddress PublicKey_new connection fuel address
       (total1, w1) = (Throw error, (total2, w2), t2) ->
     IndexJs.getTotalTransactionCount PublicKey_new connection fuel
       (pre ++ address :: post) w0
     = (Throw error, w2, t1 ++ t2)) /\
  (forall pre address post message w0 total1 w1 t1,
     IndexJs.getTotalTransactionCount PublicKey_new connection fuel pre w0
       = (Return total1, w1, t1) ->
     PublicKey_new address = inl message ->
     IndexJs.getTotalTransactionCount PublicKey_new connection fuel
       (pre ++ address :: post) w0
     = (Throw (VError message), w1,
        t1 ++ [ConsoleLog (ProcessingAddress address)])).
Proof.
  intros PublicKey_new W connection fuel. split.
  - intros. eapply IndexJs_aborts; eassumption.
  - intros pre address post message w0 total1 w1 t1 Hpre Hkey.
    eapply IndexJs_aborts; [exact Hpre|].
    apply IndexJs_processAddress_invalid. exact Hkey.
Qed.

Lemma IndexJs_first_failure_aborts_witness :
  fst (IndexJs.getTotalTransactionCount test_PublicKey_new
         (ledgerConnection authorityLedger) 1 ["A"; "not-an-address"; "C"]
         tt)
  = (Throw (VError "Invalid public key input"), tt).
Proof.
  destruct (IndexJs_first_failure_aborts test_PublicKey_new unit
              (ledgerConnection authorityLedger) 1%nat) as [_ Hinvalid].
  change ["A"; "not-an-address"; "C"]
    with (["A"] ++ "not-an-address" :: ["C"]).
  rewrite (Hinvalid ["A"] "not-an-address" ["C"]
             "Invalid public key input" tt 5 tt
             (snd (IndexJs.getTotalTransactionCount test_PublicKey_new
                     (ledgerConnection authorityLedger) 1 ["A"] tt))
             ltac:(vm_compute; reflexivity) eq_refl).
  reflexivity.
Defined.

Section Agreement.

Variable PublicKey_new : string -> string + PublicKey.
Variable L : Ledger.
Variable fuel : nat.

Hypothesis Hdistinct :
  forall publicKey, NoDup (map signature (ledger_history L publicKey)).

Lemma IndexJs_forOf_static addresses :
  forall total,
  (forall address, In address addresses ->
     validAddress PublicKey_new address = true /\
     associatedKeysValid PublicKey_new L address) ->
  (enoughFuel PublicKey_new L addresses <= fuel)%nat ->
  exists t,
    forOf addresses
      (IndexJs.processAddress PublicKey_new (ledgerConnection L) fuel)
      (total, tt)
    = (Return tt, (total + totalOf PublicKey_new L addresses, tt), t).
Proof.
  induction addresses as [|address addresses IH]; intros total Hall Hfuel.
  - exists []. cbn. unfold totalOf. cbn. rewrite Z.add_0_r. reflexivity.
  - destruct (Hall address (or_introl eq_refl)) as [Hok Hvalid].
    unfold validAddress in Hok.
    destruct (PublicKey_new address) as [|publicKey] eqn:Hkey;
      [discriminate|].
    destruct (IndexJs_processAddress_static PublicKey_new L Hdistinct fuel
                address publicKey total Hkey Hvalid) as [t1 [H1 _]].
    { apply (enoughFuel_In PublicKey_new L fuel (address :: addresses));
        [left; reflexivity | exact Hfuel]. }
    destruct (IH (total + contribution PublicKey_new L address))
      as [t2 H2].
    { intros a Hin. apply Hall. right. exact Hin. }
    { unfold enoughFuel in *. simpl in Hfuel. lia. }
    exists (t1 ++ t2). cbn [forOf].
    eapply bind_runs; [exact H1|]. cbv beta. rewrite H2.
    unfold totalOf. cbn [map fold_right]. rewrite Z.add_assoc. reflexivity.
Qed.

End Agreement.

(** X15: when nothing fails the two versions agree: on a ledger that
    does not change, for addresses that are all valid, the function of
    [index.js] and the function with [withRetry] return the same
    total. *)
Theorem versions_agree_without_failures :
  forall PublicKey_new (L : Ledger) (addresses : list string) (fuel : nat),
  (forall publicKey, NoDup (map signature (ledger_history L publicKey))) ->
  (forall address, In address addresses ->
     validAddress PublicKey_new address = true /\
     associatedKeysValid PublicKey_new L address) ->
  (enoughFuel PublicKey_new L addresses <= fuel)%nat ->
  exists total t t',
    getTotalTransactionCount PublicKey_new (ledgerConnection L) fuel
      addresses tt = (Return total, tt, t) /\
    IndexJs.getTotalTransactionCount PublicKey_new (ledgerConnection L) fuel
      addresses tt = (Return total, tt, t') /\
    total = totalOf PublicKey_new L addresses.
Proof.
  intros PublicKey_new L addresses fuel Hdistinct Hall Hfuel.
  destruct (aggregate_static PublicKey_new L (fun _ => None) fuel Hdistinct
              addresses 0) as [t Ht].
  { intros address Hin. split; [apply reachable_no_outage|].
    apply Hall. exact Hin. }
  { exact Hfuel. }
  destruct (IndexJs_forOf_static PublicKey_new L fuel Hdistinct addresses 0
              Hall Hfuel) as [t' Ht'].
  exists (totalOf PublicKey_new L addresses), t, t'.
  split; [exact Ht|]. split; [|reflexivity].
  rewrite IndexJs_getTotalTransactionCount_forOf. rewrite Ht'. reflexivity.
Qed.

Lemma versions_agree_without_failures_witness :
  exists t t',
    getTotalTransactionCount test_PublicKey_new
      (ledgerConnection authorityLedger) 1 ["A"; "B"; "C"] tt
      = (Return 14, tt, t) /\
    IndexJs.getTotalTransactionCount test_PublicKey_new
      (ledgerConnection authorityLedger) 1 ["A"; "B"; "C"] tt
      = (Return 14, tt, t').
Proof.
  destruct (versions_agree_without_failures test_PublicKey_new
              authorityLedger ["A"; "B"; "C"] 1 authorityLedger_distinct)
    as [total [t [t' [Hrun [Hindex Htotal]]]]].
  - intros address Hin. split.
    + repeat (destruct Hin as [Heq|Hin]; [subst address; reflexivity|]).
      destruct Hin.
    + apply authorityLedger_keys.
      repeat (destruct Hin as [Heq|Hin]; [subst address; cbn; tauto|]).
      destruct Hin.
  - vm_compute. apply le_n.
  - exists t, t'. subst total. split; [exact Hrun | exact Hindex].
Defined.

(** ** The total as a sum: order, concatenation, repeated addresses *)

Lemma totalOf_app PublicKey_new L l1 l2 :
  totalOf PublicKey_new L (l1 ++ l2)
  = totalOf PublicKey_new L l1 + totalOf PublicKey_new L l2.
Proof.
  unfold totalOf. induction l1 as [|a l1 IH]; cbn [app map fold_right].
  - lia.
  - rewrite IH. lia.
Qed.

Lemma totalOf_Permutation PublicKey_new L l l' :
  Permutation l l' ->
  totalOf PublicKey_new L l = totalOf PublicKey_new L l'.
Proof.
  unfold totalOf.
  induction 1; cbn [map fold_right]; try lia.
Qed.

Lemma enoughFuel_Permutation PublicKey_new L l l' fuel :
  Permutation l l' ->
  (enoughFuel PublicKey_new L l <= fuel)%nat ->
  (enoughFuel PublicKey_new L l' <= fuel)%nat.
Proof.
  unfold enoughFuel. intros Hperm H.
  rewrite list_max_le in *. rewrite Forall_forall in *.
  intros n Hin. apply H.
  apply in_map_iff in Hin. destruct Hin as [a [Heq Hin]].
  apply in_map_iff. exists a. split; [exact Heq|].
  eapply Permutation_in; [apply Permutation_sym; exact Hperm | exact Hin].
Qed.

Lemma enoughFuel_app PublicKey_new L l1 l2 fuel :
  (enoughFuel PublicKey_new L (l1 ++ l2) <= fuel)%nat ->
  (enoughFuel PublicKey_new L l1 <= fuel)%nat /\
  (enoughFuel PublicKey_new L l2 <= fuel)%nat.
Proof.
  unfold enoughFuel. rewrite map_app, list_max_app. lia.
Qed.

(** X16: on a ledger that does not change the addresses are independent
    and add up: the total of two lists one after the other is the sum
    of their totals, and the total does not depend on the order of the
    addresses. *)
Theorem total_is_additive_and_order_independent :
  forall PublicKey_new (L : Ledger) (fuel : nat),
  (forall publicKey, NoDup (map signature (ledger_history L publicKey))) ->
  (forall l1 l2,
     (forall address, In address (l1 ++ l2) ->
        associatedKeysValid PublicKey_new L address) ->
     (enoughFuel PublicKey_new L (l1 ++ l2) <= fuel)%nat ->
     exists total1 total2 t1 t2 t,
       getTotalTransactionCount PublicKey_new (ledgerConnection L) fuel l1
         tt = (Return total1, tt, t1) /\
       getTotalTransactionCount PublicKey_new (ledgerConnection L) fuel l2
         tt = (Return total2, tt, t2) /\
       getTotalTransactionCount PublicKey_new (ledgerConnection L) fuel
         (l1 ++ l2) tt = (Return (total1 + total2), tt, t)) /\
  (forall l l',
     Permutation l l' ->
     (forall address, In address l ->
        associatedKeysValid PublicKey_new L address) ->
     (enoughFuel PublicKey_new L l <= fuel)%nat ->
     exists total t t',
       getTotalTransactionCount PublicKey_new (ledgerConnection L) fuel l
         tt = (Return total, tt, t) /\
       getTotalTransactionCount PublicKey_new (ledgerConnection L) fuel l'
         tt = (Return total, tt, t')).
Proof.
  intros PublicKey_new L fuel Hdistinct.
  assert (Hrun : forall l,
            (forall address, In address l ->
               associatedKeysValid PublicKey_new L address) ->
            (enoughFuel PublicKey_new L l <= fuel)%nat ->
            exists t,
              getTotalTransactionCount PublicKey_new (ledgerConnection L)
                fuel l tt
              = (Return (totalOf PublicKey_new L l), tt, t)).
  { intros l Hvalid Hfuel.
    destruct (aggregate_static PublicKey_new L (fun _ => None) fuel
                Hdistinct l 0) as [t Ht].
    - intros address Hin. split; [apply reachable_no_outage|].
      apply Hvalid. exact Hin.
    - exact Hfuel.
    - exists t. exact Ht. }
  split.
  - intros l1 l2 Hvalid Hfuel.
    destruct (enoughFuel_app PublicKey_new L l1 l2 fuel Hfuel) as [Hf1 Hf2].
    destruct (Hrun l1) as [t1 H1]; [|exact Hf1|].
    { intros a Hin. apply Hvalid. apply in_or_app. left. exact Hin. }
    destruct (Hrun l2) as [t2 H2]; [|exact Hf2|].
    { intros a Hin. apply Hvalid. apply in_or_app. right. exact Hin. }
    destruct (Hrun (l1 ++ l2) Hvalid Hfuel) as [t H].
    exists (totalOf PublicKey_new L l1), (totalOf PublicKey_new L l2),
           t1, t2, t.
    split; [exact H1|]. split; [exact H2|].
    rewrite <- totalOf_app. exact H.
  - intros l l' Hperm Hvalid Hfuel.
    destruct (Hrun l Hvalid Hfuel) as [t H].
    destruct (Hrun l') as [t' H'].
    { intros a Hin. apply Hvalid.
      eapply Permutation_in; [apply Permutation_sym; exact Hperm|exact Hin]. }
    { eapply enoughFuel_Permutation; eassumption. }
    exists (totalOf PublicKey_new L l), t, t'.
    split; [exact H|].
    rewrite (totalOf_Permutation PublicKey_new L l l' Hperm). exact H'.
Qed.

Lemma total_is_additive_and_order_independent_witness :
  exists t t',
    getTotalTransactionCount test_PublicKey_new
      (ledgerConnection authorityLedger) 1 ["A"; "B"; "C"] tt
      = (Return 14, tt, t) /\
    getTotalTransactionCount test_PublicKey_new
      (ledgerConnection authorityLedger) 1 ["C"; "A"; "B"] tt
      = (Return 14, tt, t').
Proof.
  destruct (total_is_additive_and_order_independent test_PublicKey_new
              authorityLedger 1 authorityLedger_distinct) as [_ Horder].
  destruct (Horder ["A"; "B"; "C"] ["C"; "A"; "B"])
    as [total [t [t' [H H']]]].
  - apply Permutation_sym. apply (Permutation_cons_app ["A"; "B"] []).
    apply Permutation_refl.
  - intros address Hin. apply authorityLedger_keys.
    repeat (destruct Hin as [Heq|Hin]; [subst address; cbn; tauto|]).
    destruct Hin.
  - vm_compute. apply le_n.
  - exists t, t'.
    assert (Htotal : total = 14).
    { assert (Hfst : fst (fst (getTotalTransactionCount test_PublicKey_new
                                 (ledgerConnection authorityLedger) 1
                                 ["A"; "B"; "C"] tt)) = Return 14)
        by (vm_compute; reflexivity).
      rewrite H in Hfst. cbn in Hfst. inversion Hfst. reflexivity. }
    subst total. split; [exact H | exact H'].
Defined.

(** X17: the aggregation itself does not remove repetitions.  An address
    listed twice is counted twice; and when an authority and its stake
    account are both listed, the signatures of the stake account are
    counted twice, once for the authority and once for itself. *)
Theorem listed_twice_counted_twice :
  forall PublicKey_new (L : Ledger) (fuel : nat),
  (forall publicKey, NoDup (map signature (ledger_history L publicKey))) ->
  (forall address,
     associatedKeysValid PublicKey_new L address ->
     (addressFuel PublicKey_new L address <= fuel)%nat ->
     exists t,
       getTotalTransactionCount PublicKey_new (ledgerConnection L) fuel
         [address; address] tt
       = (Return (2 * contribution PublicKey_new L address), tt, t)) /\
  (forall authority publicKey account,
     PublicKey_new authority = inr publicKey ->
     isStakeAccountItself L publicKey = false ->
     associatedOf L authority = [account] ->
     PublicKey_new (toBase58 (pubkey account)) = inr (pubkey account) ->
     isStakeAccountItself L (pubkey account) = true ->
     associatedOf L (toBase58 (pubkey account)) = [] ->
     (historyFuel L publicKey <= fuel)%nat ->
     (historyFuel L (pubkey account) <= fuel)%nat ->
     exists t,
       getTotalTransactionCount PublicKey_new (ledgerConnection L) fuel
         [authority; toBase58 (pubkey account)] tt
       = (Return (ownCount L publicKey + 2 * ownCount L (pubkey account)),
          tt, t)).
Proof.
  intros PublicKey_new L fuel Hdistinct. split.
  - intros address Hvalid Hfuel.
    destruct (aggregate_static PublicKey_new L (fun _ => None) fuel
                Hdistinct [address; address] 0) as [t Ht].
    + intros a Hin. split; [apply reachable_no_outage|].
      destruct Hin as [<-|[<-|[]]]; exact Hvalid.
    + unfold enoughFuel. cbn [map list_max fold_right]. lia.
    + exists t.
      replace (2 * contribution PublicKey_new L address)
        with (0 + totalOf PublicKey_new L [address; address]);
        [exact Ht|].
      unfold totalOf. cbn [map fold_right]. lia.
  - intros authority publicKey account Hkey Hnot Hassoc Hback Hstake
      Hnone Hf1 Hf2.
    destruct (aggregate_static PublicKey_new L (fun _ => None) fuel
                Hdistinct [authority; toBase58 (pubkey account)] 0)
      as [t Ht].
    + intros a Hin. split; [apply reachable_no_outage|].
      intros a' Hin'.
      destruct Hin as [<-|[<-|[]]].
      * rewrite Hassoc in Hin'. destruct Hin' as [<-|[]]. exact Hback.
      * rewrite Hnone in Hin'. destruct Hin'.
    + unfold enoughFuel, addressFuel. cbn [map].
      rewrite Hkey, Hback, Hassoc, Hnone.
      cbn [map list_max fold_right]. lia.
    + exists t.
      replace (ownCount L publicKey + 2 * ownCount L (pubkey account))
        with (0 + totalOf PublicKey_new L
                    [authority; toBase58 (pubkey account)]);
        [exact Ht|].
      unfold totalOf, contribution, kindOf, hasAssociatedStakeAccounts,
        associatedCount.
      cbn [map fold_right].
      rewrite Hkey, Hback, Hnot, Hstake, Hassoc.
      change (isArrayNotEmpty [account]) with true.
      cbn [map fold_right]. lia.
Qed.

Lemma listed_twice_counted_twice_witness :
  exists t,
    getTotalTransactionCount test_PublicKey_new
      (ledgerConnection authorityLedger) 1 ["A"; "S"] tt
    = (Return 8, tt, t).
Proof.
  destruct (listed_twice_counted_twice test_PublicKey_new authorityLedger 1
              authorityLedger_distinct) as [_ Hboth].
  destruct (Hboth "A" {| toBase58 := "A" |}
              {| pubkey := {| toBase58 := "S" |} |} eq_refl eq_refl eq_refl
              eq_refl eq_refl eq_refl)
    as [t Hrun].
  - vm_compute. apply le_n.
  - vm_compute. apply le_n.
  - exists t. exact Hrun.
Defined.

(** ** The requests that one address costs *)

Lemma scans_app t1 t2 : scans (t1 ++ t2) = (scans t1 + scans t2)%nat.
Proof.
  unfold scans. rewrite requests_app, filter_app, length_app. reflexivity.
Qed.

Lemma scans_pageRequests publicKey commitment batches :
  forall cursor,
  scans (map Rpc (pageRequests publicKey commitment cursor batches)) = 0%nat.
Proof.
  unfold scans. induction batches as [|b bs IH]; intros cursor.
  - reflexivity.
  - cbn [pageRequests map requests filter isScan]. apply IH.
Qed.

Section StaticRequests.

Variable PublicKey_new : string -> string + PublicKey.
Variable L : Ledger.

Let connection := ledgerConnection L.

Hypothesis Hdistinct :
  forall publicKey, NoDup (map signature (ledger_history L publicKey)).

Lemma signatures_static_requests fuel address publicKey :
  PublicKey_new address = inr publicKey ->
  (historyFuel L publicKey <= fuel)%nat ->
  exists t,
    getSignaturesForAddress PublicKey_new connection fuel address
      "confirmed" tt
    = (Return {| signatures := ledger_history L publicKey |}, tt, t) /\
    List.length (requests t) = historyFuel L publicKey /\
    scans t = 0%nat.
Proof.
  intros Hkey Hfuel.
  destruct (ledger_pages L (fun _ => None) publicKey "confirmed"
              (fun _ => eq_refl) (Hdistinct publicKey))
    as [batches [HP [Hcat Hcount]]].
  exists (map Rpc (pageRequests publicKey "confirmed" None batches)).
  split; [|split].
  - rewrite <- Hcat.
    eapply getSignaturesForAddress_Paged; [exact Hkey | exact HP |].
    unfold historyFuel in Hfuel. lia.
  - rewrite requests_map_Rpc, pageRequests_length, Hcount.
    unfold historyFuel. lia.
  - apply scans_pageRequests.
Qed.

Lemma forOf_associated_requests fuel accounts :
  forall total,
  (forall account, In account accounts ->
     PublicKey_new (toBase58 (pubkey account)) = inr (pubkey account) /\
     (historyFuel L (pubkey account) <= fuel)%nat) ->
  exists t s,
    forOf (map (fun account => toBase58 (pubkey account)) accounts)
      (fun stakeAccount =>
         console_log (ProcessingAssociatedStakeAccount stakeAccount) ;;
         r <- lift (getSignaturesForAddress PublicKey_new connection fuel
                      stakeAccount "confirmed") ;;
         addTotal (len (signatures r)) ;;
         console_log (TotalForAssociatedStakeAccount (len (signatures r))))
      (total, tt)
    = (Return tt, s, t) /\
    List.length (requests t)
    = list_sum (map (fun account => historyFuel L (pubkey account))
                    accounts) /\
    scans t = 0%nat.
Proof.
  induction accounts as [|account accounts IH]; intros total Hall.
  - exists [], (total, tt). repeat split.
  - destruct (Hall account (or_introl eq_refl)) as [Hkey Hfuel].
    destruct (signatures_static_requests fuel _ _ Hkey Hfuel)
      as [t1 [Hrun1 [Hreq1 Hscan1]]].
    destruct (IH (total + len (ledger_history L (pubkey account))))
      as [t2 [s2 [Hrun2 [Hreq2 Hscan2]]]].
    { intros account' Hin. apply Hall. right. exact Hin. }
    eexists. exists s2. split; [|split].
    + cbn [map forOf].
      eapply bind_runs.
      * eapply bind_runs; [apply console_log_runs|]. cbv beta.
        eapply bind_runs; [apply lift_runs; exact Hrun1|]. cbv beta.
        cbn [signatures].
        eapply bind_runs; [apply addTotal_runs|]. apply console_log_runs.
      * cbv beta. exact Hrun2.
    + rewrite !requests_app, !length_app. rewrite Hreq1, Hreq2.
      cbn [requests List.length map]. unfold list_sum.
      cbn [fold_right]. lia.
    + rewrite !scans_app. rewrite Hscan1, Hscan2. reflexivity.
Qed.

Lemma processAddress_static_requests fuel address publicKey total :
  PublicKey_new address = inr publicKey ->
  associatedKeysValid PublicKey_new L address ->
  (addressFuel PublicKey_new L address <= fuel)%nat ->
  exists t s,
    processAddress PublicKey_new connection fuel address (total, tt)
    = (Return tt, s, t) /\
    List.length (requests t) = requestCost L address publicKey /\
    scans t = if isStakeAccountItself L publicKey then 0%nat else 2%nat.
Proof.
  intros Hkey Hvalid Hfuel.
  pose proof (addressFuel_own PublicKey_new L address publicKey fuel Hkey
                Hfuel) as Hfuel1.
  pose proof (fetchAccountInfo_static PublicKey_new L (fun _ => None)
                address publicKey Hkey eq_refl) as Hfetch.
  pose proof (hasStakeAccount_static L (fun _ => None) address eq_refl)
    as Hhas.
  destruct (signatures_static_requests fuel address publicKey Hkey Hfuel1)
    as [t1 [Hrun1 [Hreq1 Hscan1]]].
  unfold requestCost, kindOf, isStakeAccountItself.
  destruct (program_is_stake (ledger_accountInfo L publicKey)) eqn:Hstake.
  - eexists. eexists. split; [|split].
    + unfold processAddress.
      eapply bind_runs; [apply console_log_runs|]. cbv beta.
      eapply bind_runs; [apply lift_runs; exact Hfetch|]. cbv beta.
      rewrite Hstake.
      eapply bind_runs.
      * eapply bind_runs; [apply console_log_runs|]. cbv beta.
        eapply bind_runs; [apply lift_runs; exact Hrun1|]. cbv beta.
        eapply bind_runs; [apply addTotal_runs|]. apply console_log_runs.
      * cbv beta.
        eapply bind_runs; [apply getLocal_runs|]. cbv beta.
        eapply bind_runs; [apply console_log_runs|apply console_log_runs].
    + rewrite !requests_app, !length_app. rewrite Hreq1.
      cbn [requests List.length]. lia.
    + rewrite !scans_app. rewrite Hscan1. reflexivity.
  - destruct (hasAssociatedStakeAccounts L address) eqn:Hauth.
    + pose proof (getAssociatedStakeAccounts_static L (fun _ => None)
                    address eq_refl) as Hget.
      destruct (forOf_associated_requests fuel (associatedOf L address)
                  (total + len (ledger_history L publicKey)))
        as [t2 [s2 [Hrun2 [Hreq2 Hscan2]]]].
      { intros account Hin. split.
        - apply Hvalid. exact Hin.
        - eapply addressFuel_associated; eassumption. }
      destruct s2 as [total2 w2].
      eexists. eexists. split; [|split].
      * unfold processAddress.
        eapply bind_runs; [apply console_log_runs|]. cbv beta.
        eapply bind_runs; [apply lift_runs; exact Hfetch|]. cbv beta.
        rewrite Hstake.
        eapply bind_runs.
        -- eapply bind_runs; [apply lift_runs; exact Hhas|]. cbv beta iota.
           eapply bind_runs; [apply console_log_runs|]. cbv beta.
           eapply bind_runs; [apply lift_runs; exact Hrun1|]. cbv beta.
           cbn [signatures].
           eapply bind_runs; [apply console_log_runs|]. cbv beta.
           eapply bind_runs; [apply addTotal_runs|]. cbv beta.
           eapply bind_runs; [apply lift_runs; exact Hget|]. cbv beta.
           exact Hrun2.
        -- cbv beta.
           eapply bind_runs; [apply getLocal_runs|]. cbv beta.
           eapply bind_runs; [apply console_log_runs|apply console_log_runs].
      * rewrite !requests_app, !length_app. rewrite Hreq1, Hreq2.
        cbn [requests List.length]. lia.
      * rewrite !scans_app. rewrite Hscan1, Hscan2. reflexivity.
    + eexists. eexists. split; [|split].
      * unfold processAddress.
        eapply bind_runs; [apply console_log_runs|]. cbv beta.
        eapply bind_runs; [apply lift_runs; exact Hfetch|]. cbv beta.
        rewrite Hstake.
        eapply bind_runs.
        -- eapply bind_runs; [apply lift_runs; exact Hhas|]. cbv beta iota.
           eapply bind_runs; [apply lift_runs; exact Hhas|]. cbv beta.
           cbn [negb andb]. cbv iota.
           eapply bind_runs; [apply console_log_runs|]. cbv beta.
           eapply bind_runs; [apply lift_runs; exact Hrun1|]. cbv beta.
           eapply bind_runs; [apply addTotal_runs|]. apply console_log_runs.
        -- cbv beta.
           eapply bind_runs; [apply getLocal_runs|]. cbv beta.
           eapply bind_runs; [apply console_log_runs|apply console_log_runs].
      * rewrite !requests_app, !length_app. rewrite Hreq1.
        cbn [requests List.length]. lia.
      * rewrite !scans_app. rewrite Hscan1. reflexivity.
Qed.

End StaticRequests.

(** X18: what one address costs on a ledger that does not change.  A
    stake account is settled with one account lookup and the pages of
    its history, without any scan; every other valid address costs one
    lookup and exactly two scans (the same scan, sent twice), the pages
    of its own history and, for an authority, the pages of the history
    of each associated stake account. *)
Theorem requests_per_address :
  forall PublicKey_new (L : Ledger) address publicKey fuel total,
  (forall publicKey, NoDup (map signature (ledger_history L publicKey))) ->
  PublicKey_new address = inr publicKey ->
  associatedKeysValid PublicKey_new L address ->
  (addressFuel PublicKey_new L address <= fuel)%nat ->
  exists t s,
    processAddress PublicKey_new (ledgerConnection L) fuel address
      (total, tt) = (Return tt, s, t) /\
    List.length (requests t) = requestCost L address publicKey /\
    scans t = if isStakeAccountItself L publicKey then 0%nat else 2%nat.
Proof.
  intros PublicKey_new L address publicKey fuel total Hdistinct Hkey Hvalid
    Hfuel.
  apply processAddress_static_requests; assumption.
Qed.

Lemma requests_per_address_witness :
  exists t s,
    processAddress test_PublicKey_new (ledgerConnection authorityLedger) 1
      "A" (0, tt) = (Return tt, s, t) /\
    List.length (requests t) = 5%nat /\
    scans t = 2%nat.
Proof.
  destruct (requests_per_address test_PublicKey_new authorityLedger "A"
              {| toBase58 := "A" |} 1 0 authorityLedger_distinct eq_refl)
    as [t [s [Hrun [Hcost Hscans]]]].
  - apply authorityLedger_keys. left. reflexivity.
  - vm_compute. apply le_n.
  - exists t, s. split; [exact Hrun|]. split; [exact Hcost | exact Hscans].
Defined.

(** ** The scan of [index.js] and its empty answers *)

Section IndexJsScan.

Variable answers : nat -> Outcome (list KeyedAccount).
Variable address : string.
Variables maxAttempts delay : Z.

Let connection := scriptedScans answers.

Lemma IndexJs_loop_skips_empty :
  forall i a r k stakeAccounts o s t,
  maxAttempts = Z.of_nat (a + i + S r) ->
  (forall j, (j < i)%nat -> answers (k + j) = Return []) ->
  IndexJs.getStakeAccountsForAddress_loop connection maxAttempts delay
    (S r) address (Z.of_nat (a + i))
    (match i with O => stakeAccounts | S _ => [] end) (k + i)%nat
  = (o, s, t) ->
  IndexJs.getStakeAccountsForAddress_loop connection maxAttempts delay
    (i + S r) address (Z.of_nat a) stakeAccounts k
  = (o, s, emptyRounds address delay i ++ t).
Proof.
  induction i as [|i IH]; intros a r k stakeAccounts o s t Hmax Hempty Hrest.
  - rewrite !Nat.add_0_r in Hrest. exact Hrest.
  - change (S i + S r)%nat with (S (i + S r)).
    cbn [IndexJs.getStakeAccountsForAddress_loop].
    replace (Z.of_nat a <? maxAttempts) with true
      by (symmetry; apply Z.ltb_lt; lia).
    unfold bind at 1, rpc at 1. cbn [connection scriptedScans getProgramAccounts].
    pose proof (Hempty 0%nat ltac:(lia)) as H0.
    rewrite Nat.add_0_r in H0. rewrite H0.
    change (isArrayNotEmpty (@nil KeyedAccount)) with false. cbv iota.
    replace (Z.of_nat a <? maxAttempts - 1) with true
      by (symmetry; apply Z.ltb_lt; lia).
    cbv [bind console_log sleep emit].
    replace (Z.of_nat a + 1) with (Z.of_nat (S a)) by lia.
    rewrite (IH (S a) r (S k) [] o s t).
    + reflexivity.
    + rewrite Hmax. f_equal. lia.
    + intros j Hj. replace (S k + j)%nat with (k + S j)%nat by lia.
      apply Hempty. lia.
    + replace (S a + i)%nat with (a + S i)%nat by lia.
      replace (S k + i)%nat with (k + S i)%nat by lia.
      destruct i; exact Hrest.
Qed.

Lemma IndexJs_scan_after_empty i o s t :
  Z.of_nat i < maxAttempts ->
  (forall j, (j < i)%nat -> answers j = Return []) ->
  (forall stakeAccounts,
     IndexJs.getStakeAccountsForAddress_loop connection maxAttempts delay
       (S (Z.to_nat maxAttempts - S i)) address (Z.of_nat i) stakeAccounts i
     = (o, s, t)) ->
  IndexJs.getStakeAccountsForAddress_loop connection maxAttempts delay
    (Z.to_nat maxAttempts) address 0 [] 0%nat
  = (o, s, emptyRounds address delay i ++ t).
Proof.
  intros Hi Hempty Hrest.
  replace (Z.to_nat maxAttempts)
    with (i + S (Z.to_nat maxAttempts - S i))%nat at 1 by lia.
  apply (IndexJs_loop_skips_empty i 0%nat).
  - lia.
  - exact Hempty.
  - apply Hrest.
Qed.

End IndexJsScan.

(** X19: the scan of [index.js] retries on an empty answer, not on a
    failure.  When the first [i] answers are empty and more attempts are
    allowed, each of them is followed by a wait of [delay] milliseconds,
    the same every time; then a non-empty answer is returned, a failure
    is thrown at once, and an empty answer to the last attempt allowed
    is returned as a success, without a wait.  With no attempt allowed
    nothing is sent and the list is empty. *)
Theorem IndexJs_scan_retries_on_empty :
  forall (answers : nat -> Outcome (list KeyedAccount)) (address : string)
         (maxAttempts delay : Z),
  let run :=
    IndexJs.getStakeAccountsForAddress (scriptedScans answers) address
      maxAttempts delay 0%nat in
  let scan := Rpc (scanRequest address) in
  (maxAttempts <= 0 -> run = (Return {| stakeAccounts := [] |}, 0%nat, [])) /\
  (forall i,
     Z.of_nat i < maxAttempts ->
     (forall j, (j < i)%nat -> answers j = Return []) ->
     (forall found,
        answers i = Return found -> found <> [] ->
        run = (Return {| stakeAccounts := found |}, S i,
               emptyRounds address delay i
               ++ [scan; ConsoleLog (FoundStakeAccounts (len found))])) /\
     (forall error,
        answers i = Throw error ->
        run = (Throw error, S i, emptyRounds address delay i ++ [scan])) /\
     (answers i = Return [] -> Z.of_nat i = maxAttempts - 1 ->
        run = (Return {| stakeAccounts := [] |}, S i,
               emptyRounds address delay i ++ [scan]))) /\
  (forall i,
     requests (emptyRounds address delay i)
     = repeat (scanRequest address) i /\
     waits (emptyRounds address delay i) = repeat delay i).
Proof.
  intros answers address maxAttempts delay run scan. split; [|split].
  - intros Hle. unfold run, IndexJs.getStakeAccountsForAddress.
    replace (Z.to_nat maxAttempts) with 0%nat by lia. reflexivity.
  - intros i Hi Hempty.
    assert (Hlt : (Z.of_nat i <? maxAttempts) = true)
      by (apply Z.ltb_lt; exact Hi).
    split; [|split].
    + intros found Hfound Hne.
      unfold run, IndexJs.getStakeAccountsForAddress. unfold bind at 1.
      rewrite (IndexJs_scan_after_empty answers address maxAttempts delay i
                 (Return found) (S i)
                 [scan; ConsoleLog (FoundStakeAccounts (len found))]
                 Hi Hempty).
      * cbv beta iota delta [ret]. rewrite app_nil_r. reflexivity.
      * intros stakeAccounts.
        cbn [IndexJs.getStakeAccountsForAddress_loop]. rewrite Hlt.
        unfold bind at 1, rpc at 1. cbn [scriptedScans getProgramAccounts].
        rewrite Hfound.
        destruct found as [|account found]; [congruence|].
        reflexivity.
    + intros error Herror.
      unfold run, IndexJs.getStakeAccountsForAddress. unfold bind at 1.
      rewrite (IndexJs_scan_after_empty answers address maxAttempts delay i
                 (Throw error) (S i) [scan] Hi Hempty).
      * reflexivity.
      * intros stakeAccounts.
        cbn [IndexJs.getStakeAccountsForAddress_loop]. rewrite Hlt.
        unfold bind at 1, rpc at 1. cbn [scriptedScans getProgramAccounts].
        rewrite Herror. reflexivity.
    + intros Hlast Hi'.
      unfold run, IndexJs.getStakeAccountsForAddress. unfold bind at 1.
      rewrite (IndexJs_scan_after_empty answers address maxAttempts delay i
                 (Return []) (S i) [scan] Hi Hempty).
      * cbv beta iota delta [ret]. rewrite app_nil_r. reflexivity.
      * intros stakeAccounts.
        replace (Z.to_nat maxAttempts - S i)%nat with 0%nat by lia.
        cbn [IndexJs.getStakeAccountsForAddress_loop]. rewrite Hlt.
        unfold bind at 1, rpc at 1. cbn [scriptedScans getProgramAccounts].
        rewrite Hlast.
        change (isArrayNotEmpty (@nil KeyedAccount)) with false. cbv iota.
        replace (Z.of_nat i <? maxAttempts - 1) with false
          by (symmetry; apply Z.ltb_ge; lia).
        reflexivity.
  - intros i. unfold emptyRounds. induction i as [|i [IHr IHw]].
    + split; reflexivity.
    + cbn [repeat List.concat]. rewrite requests_app, waits_app, IHr, IHw.
      split; reflexivity.
Qed.

Lemma IndexJs_scan_retries_on_empty_witness :
  IndexJs.getStakeAccountsForAddress
    (scriptedScans (fun k => if (k <? 2)%nat then Return []
                             else Throw (VError "429")))
    "A" 5 250 0%nat
  = (Throw (VError "429"), 3%nat,
     emptyRounds "A" 250 2 ++ [Rpc (scanRequest "A")]).
Proof.
  refine (proj1 (proj2 (proj1 (proj2
    (IndexJs_scan_retries_on_empty
       (fun k => if (k <? 2)%nat then Return [] else Throw (VError "429"))
       "A" 5 250)) 2%nat _ _)) (VError "429") eq_refl).
  - reflexivity.
  - intros j Hj. destruct j as [|[|j]]; [reflexivity | reflexivity | lia].
Defined.

(** ** [main] *)

Lemma inner_app t1 t2 : inner (t1 ++ t2) = inner t1 ++ inner t2.
Proof.
  induction t1 as [|e t1 IH]; [reflexivity|].
  destruct e; simpl; rewrite IH; reflexivity.
Qed.

Lemma inner_map_Inner t : inner (map Inner t) = t.
Proof.
  induction t as [|e t IH]; [reflexivity|]. simpl. rewrite IH. reflexivity.
Qed.

Lemma requestsAll_ConsoleError P l : requestsAll P (map ConsoleError l).
Proof. induction l; constructor; [exact I | assumption]. Qed.

Lemma requestsAll_none t :
  requestsAll (fun _ => False) t -> requests t = [].
Proof.
  intros H. apply requestsAll_requests in H.
  destruct (requests t) as [|r rs]; [reflexivity|].
  inversion H; contradiction.
Qed.

Lemma readAddressesFromFile_requests PublicKey_new {W} (fs : FileSystem W)
    filePath w o w' t :
  readAddressesFromFile PublicKey_new fs filePath w = (o, w', t) ->
  requests t = [].
Proof.
  intros H. apply requestsAll_none.
  unfold readAddressesFromFile, withRetry_default, withRetry in H.
  eapply withRetry_loop_requestsAll; [|exact H].
  clear. intros s o s' t H.
  unfold bind at 1, fs_readFile in H.
  destruct (readFile fs filePath s) as [o1 w1].
  destruct o1 as [data|error|].
  - pose proof (readAddresses_loop_trace PublicKey_new
                  (split_LF (trim data)) [] w1) as Htrace.
    destruct (readAddresses_loop_collect PublicKey_new
                (split_LF (trim data)) [] w1) as [t1 Hloop].
    rewrite Hloop in Htrace. cbn [snd] in Htrace.
    unfold bind at 1 in H. rewrite Hloop in H.
    unfold ret in H. inversion H; subst.
    constructor; [exact I|].
    rewrite app_nil_r. apply requestsAll_ConsoleError.
  - inversion H; subst. constructor; [exact I | constructor].
  - inversion H; subst. constructor; [exact I | constructor].
Qed.

(** X20: what ends [main].  Its promise is rejected only by the
    constructor of the connection, which stands before the [try]: then
    nothing has been read and nothing requested.  [main] ends the
    process itself only for the address file: the status is then 1, the
    connection had been made, it is [readAddressesFromFile] that threw
    (after its own retries), no request had been sent, and the last
    things done are the line 'Fatal error:' and the exit.  No failure
    of a request ends the process. *)
Theorem main_exits_only_for_the_file :
  forall PublicKey_new (W : Type)
         (Connection_new : string -> string -> string + Connection W)
         (fs : FileSystem W) (RPC_URL : option string) fuel w o w' t,
  main PublicKey_new Connection_new fs RPC_URL fuel w = (o, w', t) ->
  (forall error, o = Rejected error ->
     exists message,
       Connection_new (endpointOf RPC_URL) "confirmed" = inl message /\
       error = VError message /\ w' = w /\ t = []) /\
  (forall code, o = Exited code ->
     code = 1 /\
     exists connection error t1,
       Connection_new (endpointOf RPC_URL) "confirmed" = inr connection /\
       readAddressesFromFile PublicKey_new fs "./addresses.txt" w
         = (Throw error, w', t1) /\
       t = map Inner t1 ++ [ErrorFatal error; ProcessExit 1] /\
       requests (inner t) = []).
Proof.
  intros PublicKey_new W Connection_new fs RPC_URL fuel w o w' t H.
  unfold main, new_Connection in H.
  destruct (Connection_new (endpointOf RPC_URL) "confirmed")
    as [message|connection] eqn:Hnew.
  { cbv [finish] in H. inversion H; subst. split.
    - intros error Herror. inversion Herror; subst.
      exists message. repeat split.
    - discriminate. }
  unfold await at 1 in H.
  destruct (readAddressesFromFile PublicKey_new fs addressFile w)
    as [[o1 w1] t1] eqn:Hread.
  destruct o1 as [addresses|error|].
  - unfold say at 1, await in H.
    destruct (getTotalTransactionCount PublicKey_new connection fuel
                addresses w1) as [[o2 w2] t2] eqn:Hcount.
    destruct o2 as [total|error|].
    + cbv [say finish] in H. inversion H; subst.
      split; discriminate.
    + exfalso. unfold getTotalTransactionCount in Hcount.
      eapply aggregate_not_Throw; [exact Hcount | reflexivity].
    + inversion H; subst. split; discriminate.
  - cbv [say finish] in H. inversion H; subst.
    split; [discriminate|].
    intros code Hcode. inversion Hcode; subst. split; [reflexivity|].
    exists connection, error, t1.
    split; [reflexivity|]. split; [exact Hread|]. split; [reflexivity|].
    rewrite inner_app, inner_map_Inner. cbn [inner]. rewrite app_nil_r.
    eapply readAddressesFromFile_requests. exact Hread.
  - inversion H; subst. split; discriminate.
Qed.

Lemma main_exits_only_for_the_file_witness :
  let Connection_new :=
    test_Connection_new (ledgerConnection (ledgerOfHistory [])) in
  let unreadable :=
    main test_PublicKey_new Connection_new (brokenFile "ENOENT") None 0 tt in
  let noUrl :=
    main test_PublicKey_new Connection_new (brokenFile "ENOENT")
      (Some "localhost:8899") 0 tt in
  (fst (fst unreadable) = Exited 1 /\
   requests (inner (snd unreadable)) = []) /\
  (fst (fst noUrl)
   = Rejected (VError "Endpoint URL must start with `http:` or `https:`.") /\
   snd noUrl = []).
Proof.
  intros Connection_new unreadable noUrl. split.
  - destruct (main_exits_only_for_the_file test_PublicKey_new unit
                Connection_new (brokenFile "ENOENT") None 0%nat tt
                (fst (fst unreadable)) (snd (fst unreadable))
                (snd unreadable))
      as [_ Hexit].
    + vm_compute. reflexivity.
    + destruct (Hexit 1) as [_ [connection [error [t1 [_ [_ [_ Hquiet]]]]]]].
      * vm_compute. reflexivity.
      * split; [vm_compute; reflexivity | exact Hquiet].
  - destruct (main_exits_only_for_the_file test_PublicKey_new unit
                Connection_new (brokenFile "ENOENT") (Some "localhost:8899")
                0%nat tt (fst (fst noUrl)) (snd (fst noUrl)) (snd noUrl))
      as [Hrejected _].
    + vm_compute. reflexivity.
    + destruct (Hrejected
                  (VError "Endpoint URL must start with `http:` or `https:`."))
        as [message [_ [_ [_ Hnothing]]]].
      * vm_compute. reflexivity.
      * split; [vm_compute; reflexivity | exact Hnothing].
Defined.

Lemma requests_backoffTrace maxAttempts delay message r n :
  forall i,
  requests (backoffTrace maxAttempts delay i (repeat (message, [Rpc r]) n))
  = repeat r n.
Proof.
  induction n as [|n IH]; intros i; cbn [repeat backoffTrace].
  - reflexivity.
  - cbn [app requests]. f_equal.
    destruct (Z.of_nat i + 1 <? maxAttempts); cbn [app requests];
      apply IH.
Qed.

Lemma readAddressesFromFile_reads PublicKey_new {W} (fs : FileSystem W)
    filePath w data w' :
  readFile fs filePath w = (Return data, w') ->
  exists t,
    readAddressesFromFile PublicKey_new fs filePath w
      = (Return (collect PublicKey_new (split_LF (trim data)) []), w', t) /\
    requests t = [].
Proof.
  intros Hread.
  destruct (readAddresses_loop_collect PublicKey_new
              (split_LF (trim data)) [] w') as [t Ht].
  assert (Hrun : readAddressesFromFile PublicKey_new fs filePath w
                 = (Return (collect PublicKey_new (split_LF (trim data)) []),
                    w', ReadFile filePath :: t)).
  { unfold readAddressesFromFile, withRetry_default.
    apply withRetry_first_try; [|apply Return_not_Throw|lia].
    unfold bind at 1, fs_readFile. rewrite Hread.
    unfold bind at 1. rewrite Ht. unfold ret, Array_from.
    cbn [app]. rewrite app_nil_r. reflexivity. }
  exists (ReadFile filePath :: t). split; [exact Hrun|].
  eapply readAddressesFromFile_requests. exact Hrun.
Qed.

Section Outage.

Variable PublicKey_new : string -> string + PublicKey.
Variable L : Ledger.
Variable down : Request -> option string.
Variable message : string.
Variable fuel : nat.

Let connection := withOutage down (ledgerConnection L).

Hypothesis Hdown :
  forall publicKey, down (ReqGetParsedAccountInfo publicKey) = Some message.

Lemma forOf_lookup_down addresses :
  forall total,
  (forall address, In address addresses ->
     validAddress PublicKey_new address = true) ->
  exists t,
    forOf addresses (processAddress_caught PublicKey_new connection fuel)
      (total, tt)
    = (Return tt, (total, tt), t) /\
    List.length (requests t) = (20 * List.length addresses)%nat.
Proof.
  induction addresses as [|address addresses IH]; intros total Hvalid.
  - exists []. split; reflexivity.
  - pose proof (Hvalid address (or_introl eq_refl)) as Hkey.
    unfold validAddress in Hkey.
    destruct (PublicKey_new address) as [|publicKey] eqn:Hnew;
      [discriminate|].
    destruct (IH total) as [t2 [Hrun2 Hcount2]].
    { intros address' Hin. apply Hvalid. right. exact Hin. }
    eexists. split.
    + cbn [forOf]. eapply bind_runs; [|exact Hrun2].
      apply processAddress_caught_Throw.
      apply processAddress_lookup_fails.
      apply (fetchAccountInfo_down PublicKey_new L down address publicKey
               message Hnew (Hdown publicKey)).
    + rewrite !requests_app, !length_app, Hcount2.
      cbn [requests]. rewrite requests_backoffTrace, repeat_length.
      cbn [List.length]. lia.
Qed.

End Outage.

(** X21: an outage of the connection is not fatal.  When the
    connection can be made, the address file can be read and every
    account lookup fails, [main] still resolves: it goes through every
    address, with 20 lookups for each, and reports a total of 0.  [main]
    of [index.js] does not get that far as it stands: it never ends the
    process itself, and when the library rejects the text that stands
    for its endpoint, its promise is rejected with the error of the
    constructor before the file is read or a request is sent. *)
Theorem rpc_outage_is_not_fatal :
  forall PublicKey_new (L : Ledger) down
         (Connection_new : string -> string -> string + Connection unit)
         (fs : FileSystem unit) fuel,
  (forall RPC_URL data message,
     Connection_new (endpointOf RPC_URL) "confirmed"
       = inr (withOutage down (ledgerConnection L)) ->
     readFile fs "./addresses.txt" tt = (Return data, tt) ->
     (forall publicKey,
        down (ReqGetParsedAccountInfo publicKey) = Some message) ->
     exists t,
       main PublicKey_new Connection_new fs RPC_URL fuel tt
       = (Resolved, tt, t ++ [LogTotalTransactions 0]) /\
       List.length (requests (inner t))
       = (20 * List.length
                 (collect PublicKey_new (split_LF (trim data)) []))%nat) /\
  (forall String_of o w' t,
     IndexJs_main PublicKey_new Connection_new fs String_of fuel tt
       = (o, w', t) ->
     (forall code, o <> Exited code) /\
     (forall message,
        Connection_new "<RPC ENDPOINT HERE>" "confirmed" = inl message ->
        o = Rejected (VError message) /\ t = [])).
Proof.
  intros PublicKey_new L down Connection_new fs fuel. split.
  - intros RPC_URL data message Hnew Hread Hdown.
    set (connection := withOutage down (ledgerConnection L)) in *.
    set (addresses := collect PublicKey_new (split_LF (trim data)) []).
    destruct (readAddressesFromFile_reads PublicKey_new fs
                "./addresses.txt" tt data tt Hread) as [t1 [Hrun Hquiet]].
    fold addresses in Hrun.
    assert (Hvalid : forall address, In address addresses ->
                       validAddress PublicKey_new address = true).
    { intros address Hin. unfold addresses in Hin.
      apply collect_In in Hin. destruct Hin as [[]|[line [_ [_ Hv]]]].
      exact Hv. }
    destruct (forOf_lookup_down PublicKey_new L down message fuel Hdown
                addresses 0 Hvalid) as [t2 [Hloop Hcount]].
    exists (map Inner t1 ++ LogProcessingAddresses (len addresses)
              :: map Inner t2).
    split.
    + unfold main, new_Connection. rewrite Hnew. unfold await at 1.
      change addressFile with "./addresses.txt".
      rewrite Hrun. unfold say at 1, await.
      unfold getTotalTransactionCount. rewrite aggregate_forOf.
      fold connection in Hloop. rewrite Hloop.
      cbv [say finish fst snd]. rewrite <- app_assoc. reflexivity.
    + rewrite inner_app. cbn [inner]. rewrite !inner_map_Inner.
      rewrite requests_app, Hquiet. exact Hcount.
  - intros String_of o w' t H.
    unfold IndexJs_main, new_Connection in H.
    destruct (Connection_new "<RPC ENDPOINT HERE>" "confirmed")
      as [message'|connection] eqn:Hnew.
    + cbv [finish] in H. inversion H; subst. split; [discriminate|].
      intros message Hmessage. inversion Hmessage; subst.
      split; reflexivity.
    + split; [|discriminate].
      unfold await at 1 in H.
      destruct (IndexJs.readAddressesFromFile PublicKey_new fs String_of
                  addressFile tt) as [[o1 w1] t1].
      destruct o1 as [addresses|error|].
      * unfold say at 1, await in H.
        destruct (IndexJs.getTotalTransactionCount PublicKey_new connection
                    fuel addresses w1) as [[o2 w2] t2].
        destruct o2; cbv [say finish] in H; inversion H; subst;
          discriminate.
      * cbv [finish] in H. inversion H; subst. discriminate.
      * inversion H; subst. discriminate.
Qed.

Lemma rpc_outage_is_not_fatal_witness :
  let Connection_new :=
    test_Connection_new
      (withOutage (fun _ => Some "503") (ledgerConnection authorityLedger)) in
  (exists t,
     main test_PublicKey_new Connection_new (constFile (fileOf ["A"; "S"]))
       None 1 tt
     = (Resolved, tt, t ++ [LogTotalTransactions 0]) /\
     List.length (requests (inner t)) = 40%nat) /\
  (let run :=
     IndexJs_main test_PublicKey_new Connection_new
       (constFile (fileOf ["A"; "S"])) Error_toString 1 tt in
   fst (fst run)
   = Rejected (VError "Endpoint URL must start with `http:` or `https:`.") /\
   snd run = []).
Proof.
  intros Connection_new.
  destruct (rpc_outage_is_not_fatal test_PublicKey_new authorityLedger
              (fun _ => Some "503") Connection_new
              (constFile (fileOf ["A"; "S"])) 1%nat)
    as [Hmain Hindex].
  split.
  - destruct (Hmain None (fileOf ["A"; "S"]) "503" eq_refl eq_refl
                (fun _ => eq_refl)) as [t [Hrun Hcount]].
    exists t. split; [exact Hrun | exact Hcount].
  - intros run.
    destruct (Hindex Error_toString (fst (fst run)) (snd (fst run))
                (snd run) ltac:(vm_compute; reflexivity)) as [_ Hrejected].
    apply (Hrejected "Endpoint URL must start with `http:` or `https:`.").
    vm_compute. reflexivity.
Defined.
